(** * Chronologicon Engine: ingestion pipeline and temporal analytics

    A shallow embedding of
    - [src/services/FileIngestionService.js] (line parser, ingestion
      controller, job status),
    - [src/models/IngestionJob.js] (the job ledger),
    - [src/models/HistoricalEvent.js] (overlap detector, gap finder,
      shortest path, timeline),
    together with the properties the specification states about them. *)

From Stdlib Require Import ZArith NArith Ascii String DecimalString.
From stdpp Require Import gmap list sorting lexico.

Local Open Scope Z_scope.

(** ** JavaScript strings

    A JavaScript string is a sequence of UTF-16 code units. *)

Abbreviation jsstring := (list N).

(** An ASCII literal as a JavaScript string. *)
Definition str (s : string) : jsstring :=
  N_of_ascii <$> list_ascii_of_string s.

(** Template-literal rendering of a non-negative integer, [`${n}`]. *)
Definition decimal (n : N) : jsstring :=
  str (NilEmpty.string_of_uint (N.to_uint n)).

(** Rendering of a (possibly negative) integer. *)
Definition decimalZ (z : Z) : jsstring :=
  match z with
  | Zneg p => str "-" ++ decimal (Npos p)
  | _ => decimal (Z.to_N z)
  end.

(* Literals stay folded in proofs; evaluation still sees through them. *)
Global Opaque str decimal decimalZ.

(** White space and line terminators of ECMAScript, the code units
    [String.prototype.trim] strips. *)
Definition isWhiteSpace (c : N) : bool :=
  ((9 <=? c) && (c <=? 13))%N
  || (c =? 32)%N || (c =? 160)%N || (c =? 5760)%N
  || ((8192 <=? c) && (c <=? 8202))%N
  || (c =? 8232)%N || (c =? 8233)%N || (c =? 8239)%N
  || (c =? 8287)%N || (c =? 12288)%N || (c =? 65279)%N.

Fixpoint dropWhile {A} (p : A -> bool) (l : list A) : list A :=
  match l with
  | [] => []
  | x :: l' => if p x then dropWhile p l' else l
  end.

(** [s.trim()] *)
Definition trim (s : jsstring) : jsstring :=
  rev (dropWhile isWhiteSpace (rev (dropWhile isWhiteSpace s))).

(** Truthiness of a string: only the empty string is falsy. *)
Definition truthy (s : jsstring) : bool :=
  match s with [] => false | _ => true end.

(** [s.split(sep)] for a one-code-unit separator. *)
Fixpoint split (sep : N) (s : jsstring) : list jsstring :=
  match s with
  | [] => [[]]
  | c :: s' =>
      if (c =? sep)%N then [] :: split sep s'
      else match split sep s' with
           | [] => [[c]]
           | p :: ps => (c :: p) :: ps
           end
  end.

Definition pipe : N := 124.

(** ** Event drafts and parse errors *)

Record Metadata := {
  source_file : jsstring;
  line_number : Z;
  parsing_flags : list jsstring
}.

(** The object [parseLine] returns for a well-formed line. Dates are the
    millisecond time values of the JavaScript [Date] objects. *)
Record EventData := {
  ed_event_id : jsstring;
  ed_event_name : jsstring;
  ed_description : option jsstring;
  ed_start_date : Z;
  ed_end_date : Z;
  ed_parent_event_id : option jsstring;
  ed_metadata : Metadata
}.

(** The errors [parseLine] throws, one constructor per [throw]. *)
Inductive ParseError :=
| MalformedEntry (actual : nat)
| InvalidUUID (text : jsstring)
| InvalidStartDate (text : jsstring)
| InvalidEndDate (text : jsstring)
| DateOrderError
| InvalidParentUUID (text : jsstring).

(** [error.message] *)
Definition message (e : ParseError) : jsstring :=
  match e with
  | MalformedEntry n =>
      str "Malformed entry: expected 6 fields, got " ++ decimal (N.of_nat n)
  | InvalidUUID t => str "Invalid UUID format: '" ++ t ++ str "'"
  | InvalidStartDate t => str "Invalid start date format: '" ++ t ++ str "'"
  | InvalidEndDate t => str "Invalid end date format: '" ++ t ++ str "'"
  | DateOrderError => str "Start date must be before end date"
  | InvalidParentUUID t => str "Invalid parent UUID format: '" ++ t ++ str "'"
  end.

(** What a call of [parseLine] does: return [null], return a draft, or
    throw. *)
Inductive ParseOutcome :=
| Skipped
| Parsed (e : EventData)
| Rejected (err : ParseError).

(** ** External collaborators

    The database driver ([config/database]), the file system, the clock and
    the UUID generator are outside the repository's core; the model sees
    them through this interface. *)

Inductive FileNode :=
| RegularFile (readable : bool) (lines : list jsstring)
| Directory.

Class Platform := {
  (** [new Date(s).getTime()]; [None] stands for NaN, an invalid date. *)
  newDate : jsstring -> option Z;
  (** The [historical_events] table as the ingestion pipeline sees it, and
      one [INSERT ... RETURNING *] into it; [None] is a rejected insert
      (a constraint violation, a lost connection). *)
  Store : Type;
  insertEvent : Store -> EventData -> option Store;
  (** Whether the n-th query against [ingestion_jobs] is rejected, and with
      which message. A rejected query changes nothing. *)
  queryError : nat -> option jsstring;
  (** The paths visible to the process. *)
  fs : jsstring -> option FileNode;
  (** The n-th value [uuidv4()] returns. *)
  uuidv4 : nat -> jsstring
}.

(** ** The job ledger ([ingestion_jobs]) *)

Inductive JobStatus := PROCESSING | COMPLETED | FAILED.

Global Instance JobStatus_eq_dec : EqDecision JobStatus.
Proof. solve_decision. Defined.

Record Job := {
  job_id : jsstring;
  status : JobStatus;
  file_path : jsstring;
  total_lines : Z;
  processed_lines : Z;
  error_lines : Z;
  errors : list jsstring;
  start_time : Z;
  end_time : option Z
}.

(** The fields [updateProgress] accepts ([allowedFields]); a field that is
    [None] is absent from the [updates] object. Any other key of the object
    is ignored by the source. *)
Record Updates := {
  u_status : option JobStatus;
  u_total_lines : option Z;
  u_processed_lines : option Z;
  u_error_lines : option Z;
  u_errors : option (list jsstring);
  u_end_time : option Z
}.

(** Whether the object has the key. *)
Definition present {A} (o : option A) : bool :=
  match o with Some _ => true | None => false end.

Definition noUpdates : Updates :=
  {| u_status := None; u_total_lines := None; u_processed_lines := None;
     u_error_lines := None; u_errors := None; u_end_time := None |}.

(** ** The world and the monad of asynchronous code

    [await] is sequencing; a rejected promise is a thrown error. *)

Inductive Outcome (A : Type) :=
| Returned (a : A)
| Thrown (msg : jsstring).
Arguments Returned {A} a.
Arguments Thrown {A} msg.

Section Runtime.
Context `{Platform}.

Record World := {
  ledger : gmap jsstring Job;        (* ingestion_jobs, keyed by job_id *)
  events : Store;                    (* historical_events *)
  issued : nat;                      (* ledger queries issued so far *)
  draws : nat;                       (* uuidv4 values drawn so far *)
  clock : Z;                         (* Date.now() *)
  (* Observation only: the ledger after every completed ledger query,
     latest first, and the batches handed to bulkCreate, latest first. *)
  journal : list (gmap jsstring Job);
  commits : list (list EventData)
}.

Definition M (A : Type) : Type := World -> Outcome A * World.

Definition ret {A} (a : A) : M A := fun w => (Returned a, w).

Definition throw {A} (msg : jsstring) : M A := fun w => (Thrown msg, w).

Definition bind {A B} (m : M A) (k : A -> M B) : M B := fun w =>
  match m w with
  | (Returned a, w') => k a w'
  | (Thrown msg, w') => (Thrown msg, w')
  end.

(** [try { m } catch (error) { h(error.message) }] *)
Definition try_catch {A} (m : M A) (h : jsstring -> M A) : M A := fun w =>
  match m w with
  | (Returned a, w') => (Returned a, w')
  | (Thrown msg, w') => h msg w'
  end.

(** One query against [ingestion_jobs]: rejected as the platform says,
    otherwise it runs [q] on the table. *)
Definition query {A} (q : gmap jsstring Job -> Outcome A * gmap jsstring Job)
  : M A := fun w =>
  match queryError (issued w) with
  | Some msg =>
      (Thrown msg,
       {| ledger := ledger w; events := events w; issued := S (issued w);
          draws := draws w; clock := clock w; journal := journal w;
          commits := commits w |})
  | None =>
      let '(o, l') := q (ledger w) in
      (o,
       {| ledger := l'; events := events w; issued := S (issued w);
          draws := draws w; clock := clock w; journal := l' :: journal w;
          commits := commits w |})
  end.

Definition now : M Z := fun w => (Returned (clock w), w).
End Runtime.

Notation "'let!' x ':=' m 'in' k" := (bind m (fun x => k))
  (at level 10, x name, m at level 100, k at level 200).
Notation "'exec!' m 'in' k" := (bind m (fun _ => k))
  (at level 10, m at level 100, k at level 200).

Module IngestionJob.
Section Ledger.
Context `{Platform}.

(** [create]: the constructor's defaults, then the INSERT; [job_id] is the
    primary key. *)
Definition create (jobId filePath : jsstring) (st : JobStatus) : M Job :=
  let! t := now in
  let job := {| job_id := jobId; status := st; file_path := filePath;
                total_lines := 0; processed_lines := 0; error_lines := 0;
                errors := []; start_time := t; end_time := None |} in
  query (fun l =>
    match l !! jobId with
    | Some _ =>
        (Thrown (str "duplicate key value violates unique constraint"), l)
    | None => (Returned job, <[jobId := job]> l)
    end).

(** [findById]: [result.rows[0] || null] *)
Definition findById (jobId : jsstring) : M (option Job) :=
  query (fun l => (Returned (l !! jobId), l)).

Definition applyUpdates (u : Updates) (j : Job) : Job :=
  {| job_id := job_id j;
     status := default (status j) (u_status u);
     file_path := file_path j;
     total_lines := default (total_lines j) (u_total_lines u);
     processed_lines := default (processed_lines j) (u_processed_lines u);
     error_lines := default (error_lines j) (u_error_lines u);
     errors := default (errors j) (u_errors u);
     start_time := start_time j;
     end_time := match u_end_time u with
                 | Some t => Some t
                 | None => end_time j
                 end |}.

(** [UPDATE ingestion_jobs SET ... WHERE job_id = $n RETURNING *] through
    a function on the matching row. *)
Definition updateRow (jobId : jsstring) (f : Job -> Job)
  : gmap jsstring Job -> Outcome (option Job) * gmap jsstring Job :=
  fun l => (Returned (f <$> l !! jobId), alter f jobId l).

(** [updateProgress] *)
Definition updateProgress (jobId : jsstring) (u : Updates) : M (option Job) :=
  if present (u_status u) || present (u_total_lines u)
     || present (u_processed_lines u) || present (u_error_lines u)
     || present (u_errors u) || present (u_end_time u)
  then query (updateRow jobId (applyUpdates u))
  else throw (str "No valid fields to update").

(** [addError]: [errors = errors || $1, error_lines = error_lines + 1] *)
Definition addError (jobId errorMessage : jsstring) : M (option Job) :=
  query (updateRow jobId (fun j =>
    {| job_id := job_id j; status := status j; file_path := file_path j;
       total_lines := total_lines j; processed_lines := processed_lines j;
       error_lines := error_lines j + 1;
       errors := errors j ++ [errorMessage];
       start_time := start_time j; end_time := end_time j |})).

(** [complete]: [status = 'COMPLETED', end_time = CURRENT_TIMESTAMP] *)
Definition complete (jobId : jsstring) : M (option Job) :=
  let! t := now in
  query (updateRow jobId (fun j =>
    {| job_id := job_id j; status := COMPLETED; file_path := file_path j;
       total_lines := total_lines j; processed_lines := processed_lines j;
       error_lines := error_lines j; errors := errors j;
       start_time := start_time j; end_time := Some t |})).

(** [fail]: [status = 'FAILED', end_time = CURRENT_TIMESTAMP,
    errors = errors || $1] *)
Definition fail (jobId errorMessage : jsstring) : M (option Job) :=
  let! t := now in
  query (updateRow jobId (fun j =>
    {| job_id := job_id j; status := FAILED; file_path := file_path j;
       total_lines := total_lines j; processed_lines := processed_lines j;
       error_lines := error_lines j;
       errors := errors j ++ [errorMessage];
       start_time := start_time j; end_time := Some t |})).
End Ledger.

(** *** Listing the jobs ([getAll]) *)

(** [status] as the column holds it. *)
Definition statusText (st : JobStatus) : jsstring :=
  match st with
  | PROCESSING => str "PROCESSING"
  | COMPLETED => str "COMPLETED"
  | FAILED => str "FAILED"
  end.

(** A row of [ingestion_jobs] together with its [created_at] column, which
    the table fills in on insert. *)
Record JobRow := {
  created_at : Z;
  jr_job : Job
}.

(** [filters] of [getAll]: [None] is a property the object lacks. *)
Record JobFilters := {
  f_status : option jsstring;
  f_limit : option Z
}.

(** The WHERE clause: [1=1], and [status = $1] when [filters.status] is
    truthy, that is, a string other than the empty one. *)
Definition selected (filters : JobFilters) (r : JobRow) : Prop :=
  match f_status filters with
  | Some (_ :: _ as st) => statusText (status (jr_job r)) = st
  | _ => True
  end.

Global Instance selected_dec filters r : Decision (selected filters r).
Proof. unfold selected. destruct (f_status filters) as [[|]|]; apply _. Defined.

(** [ORDER BY created_at DESC]; rows of equal [created_at] come in the order
    the sort gives, which SQL leaves open. *)
Definition newerFirst (r1 r2 : JobRow) : Prop := created_at r2 <= created_at r1.

Global Instance newerFirst_dec r1 r2 : Decision (newerFirst r1 r2).
Proof. unfold newerFirst. apply _. Defined.

End IngestionJob.

(** ** Committing a batch ([HistoricalEvent.bulkCreate]) *)

Module HistoricalEvent.
Section BulkCreate.
Context `{Platform}.

(** The loop of INSERTs inside the transaction: the first rejected insert
    throws. *)
Fixpoint insertAll (s : Store) (batch : list EventData) : option Store :=
  match batch with
  | [] => Some s
  | e :: rest =>
      match insertEvent s e with
      | Some s' => insertAll s' rest
      | None => None
      end
  end.

(** Modelled from the spec: the [transaction] helper of [config/database]
    is not among the sources; per the Event Store interface a call is
    atomic, so a throw inside the callback rolls every insert of the call
    back. [None] is the rethrown error, the table being unchanged. *)
Definition transaction (body : Store -> option Store) (s : Store)
  : option Store := body s.

Definition bulkCreate (s : Store) (batch : list EventData) : option Store :=
  match batch with
  | [] => Some s                      (* events.length === 0: return [] *)
  | _ => transaction (fun s0 => insertAll s0 batch) s
  end.
End BulkCreate.

(** *** Rows of [historical_events]

    The columns the analytics queries read. Timestamps are PostgreSQL
    [timestamptz] values, microseconds since the epoch;
    [duration_minutes] is the stored generated column. *)
Record Event := {
  event_id : jsstring;
  event_name : jsstring;
  start_date : Z;
  end_date : Z;
  duration_minutes : Z;
  parent_event_id : option jsstring
}.

(** [event_id] is of type [uuid]; PostgreSQL compares two of them byte by
    byte, which on the canonical text form is the lexicographic order. *)
Definition uuid_lt (a b : jsstring) : Prop := lexico a b.

Global Instance uuid_lt_dec a b : Decision (uuid_lt a b).
Proof. unfold uuid_lt. apply _. Defined.

(** [Math.round(EXTRACT(EPOCH FROM iv) / 60)] for an interval of [us]
    microseconds: the quotient [us / 60000000], an exact decimal, rounded
    to the nearest integer, halves upwards. *)
Definition roundMinutes (us : Z) : Z := (us + 30000000) / 60000000.

(** *** Overlap detector *)

(** [LEAST(e1.end_date, e2.end_date) - GREATEST(e1.start_date, e2.start_date)] *)
Definition overlap (e1 e2 : Event) : Z :=
  Z.min (end_date e1) (end_date e2) - Z.max (start_date e1) (start_date e2).

(** The join condition and the WHERE clause. *)
Definition overlapping (e1 e2 : Event) : bool :=
  bool_decide (uuid_lt (event_id e1) (event_id e2))
  && (start_date e1 <? end_date e2)
  && (start_date e2 <? end_date e1)
  && (0 <? overlap e1 e2).

Definition joinedPairs (rows : list Event) : list (Event * Event) :=
  e1 ← rows; e2 ← rows;
  if overlapping e1 e2 then [(e1, e2)] else [].

(** [ORDER BY overlap_duration_minutes DESC]. SQL leaves the order of rows
    of equal overlap open; the model takes the one its sort gives. *)
Definition longerOverlap (r1 r2 : Event * Event) : Prop :=
  overlap r2.1 r2.2 <= overlap r1.1 r1.2.

Global Instance longerOverlap_dec r1 r2 : Decision (longerOverlap r1 r2).
Proof. unfold longerOverlap. apply _. Defined.

Definition overlapRows (rows : list Event) : list (Event * Event) :=
  merge_sort longerOverlap (joinedPairs rows).

Record EventSummary := {
  es_event_id : jsstring;
  es_event_name : jsstring;
  es_start_date : Z;
  es_end_date : Z
}.

Definition summary (e : Event) : EventSummary :=
  {| es_event_id := event_id e; es_event_name := event_name e;
     es_start_date := start_date e; es_end_date := end_date e |}.

Record OverlapReport := {
  overlappingEventPairs : EventSummary * EventSummary;
  overlap_duration_minutes : Z
}.

(** [findOverlappingEvents()] over the rows of the table. *)
Definition findOverlappingEvents (rows : list Event) : list OverlapReport :=
  (fun row : Event * Event =>
     {| overlappingEventPairs := (summary row.1, summary row.2);
        overlap_duration_minutes := roundMinutes (overlap row.1 row.2) |})
  <$> overlapRows rows.

(** *** Gap finder *)

Definition startsNoLater (e1 e2 : Event) : Prop :=
  start_date e1 <= start_date e2.

Global Instance startsNoLater_dec e1 e2 : Decision (startsNoLater e1 e2).
Proof. unfold startsNoLater. apply _. Defined.

(** The CTE [ordered_events]; the bounds of the window are the timestamps
    the two ISO strings denote. Events of equal [start_date] come in the
    order the sort gives, which SQL leaves open. *)
Definition ordered_events (startDate endDate : Z) (rows : list Event)
  : list Event :=
  merge_sort startsNoLater
    (filter (fun e => startDate <= start_date e /\ end_date e <= endDate) rows).

(** The CTE [gaps]: every row but the first, next to the row [LAG] gives
    it; [gap_start IS NOT NULL] drops the first row. *)
Fixpoint lagPairs (l : list Event) : list (Event * Event) :=
  match l with
  | p :: (c :: _) as rest => (p, c) :: lagPairs rest
  | _ => []
  end.

(** [start_date - LAG(end_date)], in microseconds. *)
Definition gapOf (g : Event * Event) : Z := start_date g.2 - end_date g.1.

Definition widerGap (g1 g2 : Event * Event) : Prop := gapOf g2 <= gapOf g1.

Global Instance widerGap_dec g1 g2 : Decision (widerGap g1 g2).
Proof. unfold widerGap. apply _. Defined.

(** The rows of the final SELECT, before [LIMIT 1]. *)
Definition gapRows (startDate endDate : Z) (rows : list Event)
  : list (Event * Event) :=
  merge_sort widerGap
    (filter (fun g => 0 < gapOf g)
       (lagPairs (ordered_events startDate endDate rows))).

Record LargestGap := {
  startOfGap : Z;
  endOfGap : Z;
  durationMinutes : Z;
  precedingEvent : jsstring * jsstring * Z;    (* event_id, event_name, end_date *)
  succeedingEvent : jsstring * jsstring * Z    (* event_id, event_name, start_date *)
}.

(** The value of [findTemporalGaps]: [largestGap] is [null] or the gap. *)
Definition findTemporalGaps (startDate endDate : Z) (rows : list Event)
  : option LargestGap :=
  match gapRows startDate endDate rows with
  | [] => None
  | (p, c) :: _ =>
      Some {| startOfGap := end_date p;
              endOfGap := start_date c;
              durationMinutes := roundMinutes (gapOf (p, c));
              precedingEvent := (event_id p, event_name p, end_date p);
              succeedingEvent := (event_id c, event_name c, start_date c) |}
  end.

(** *** Shortest path *)

(** The values the map [distances] holds. *)
Inductive Distance := Num (d : Z) | Infinity.

Definition graphOf (rows : list Event) : gmap jsstring (list jsstring) :=
  foldl (fun graph event =>
           let graph1 :=
             match graph !! event_id event with
             | Some _ => graph
             | None => <[event_id event := []]> graph
             end in
           match parent_event_id event with
           | Some parent =>
               if truthy parent then
                 let graph2 :=
                   match graph1 !! parent with
                   | Some _ => graph1
                   | None => <[parent := []]> graph1
                   end in
                 alter (fun children => children ++ [event_id event])
                   parent graph2
               else graph1
           | None => graph1
           end) ∅ rows.

Definition detailsOf (rows : list Event) : gmap jsstring Event :=
  foldl (fun details event => <[event_id event := event]> details) ∅ rows.

Record Search := {
  distances : gmap jsstring Distance;
  previous : gmap jsstring jsstring;
  visited : gset jsstring;
  queue : list (jsstring * Z)
}.

(** [queue.sort((a, b) => a.distance - b.distance)]: a stable sort. *)
Fixpoint enqueueSorted (x : jsstring * Z) (l : list (jsstring * Z))
  : list (jsstring * Z) :=
  match l with
  | [] => [x]
  | y :: l' => if x.2 <=? y.2 then x :: l else y :: enqueueSorted x l'
  end.

Definition sortQueue (l : list (jsstring * Z)) : list (jsstring * Z) :=
  foldr enqueueSorted [] l.

(** The body of [for (const neighborId of neighbors)]; [None] is the
    TypeError of reading [duration_minutes] of [undefined]. *)
Definition relax (details : gmap jsstring Event) (current : jsstring)
  (st : Search) (neighborId : jsstring) : option Search :=
  if bool_decide (neighborId ∈ visited st) then Some st
  else
    match details !! neighborId with
    | None => None
    | Some neighborEvent =>
        match distances st !! current, distances st !! neighborId with
        | Some (Num d), Some old =>
            let newDistance := d + duration_minutes neighborEvent in
            if match old with
               | Num o => newDistance <? o
               | Infinity => true
               end
            then
              Some {| distances := <[neighborId := Num newDistance]> (distances st);
                      previous := <[neighborId := current]> (previous st);
                      visited := visited st;
                      queue := queue st ++ [(neighborId, newDistance)] |}
            else Some st
        | _, _ => Some st       (* a comparison with NaN or undefined *)
        end
    end.

Fixpoint relaxAll (details : gmap jsstring Event) (current : jsstring)
  (st : Search) (neighbors : list jsstring) : option Search :=
  match neighbors with
  | [] => Some st
  | n :: rest =>
      match relax details current st n with
      | Some st' => relaxAll details current st' rest
      | None => None
      end
  end.

(** What the [while (queue.length > 0)] loop ends in. *)
Inductive LoopEnd :=
| Finished (st : Search)
| TypeError
| OutOfFuel.

Fixpoint dijkstra (graph : gmap jsstring (list jsstring))
  (details : gmap jsstring Event) (targetEventId : jsstring)
  (fuel : nat) (st : Search) : LoopEnd :=
  match fuel with
  | O => OutOfFuel
  | S fuel' =>
      match sortQueue (queue st) with
      | [] => Finished st
      | (current, _) :: rest =>
          if bool_decide (current ∈ visited st) then
            dijkstra graph details targetEventId fuel'
              {| distances := distances st; previous := previous st;
                 visited := visited st; queue := rest |}
          else
            let st1 := {| distances := distances st; previous := previous st;
                          visited := {[current]} ∪ visited st;
                          queue := rest |} in
            if bool_decide (current = targetEventId) then Finished st1
            else
              match relaxAll details current st1
                      (default [] (graph !! current)) with
              | Some st2 => dijkstra graph details targetEventId fuel' st2
              | None => TypeError
              end
      end
  end.

(** The state the loop starts in: every row at distance [Infinity], the
    source at 0 and alone in the queue. *)
Definition initialSearch (rows : list Event) (sourceEventId : jsstring)
  : Search :=
  {| distances :=
       <[sourceEventId := Num 0]>
         (foldl (fun ds event => <[event_id event := Infinity]> ds) ∅ rows);
     previous := ∅;
     visited := ∅;
     queue := [(sourceEventId, 0)] |}.

Record PathNode := {
  pn_event_id : jsstring;
  pn_event_name : jsstring;
  pn_duration_minutes : Z
}.

Definition pathNode (e : Event) : PathNode :=
  {| pn_event_id := event_id e; pn_event_name := event_name e;
     pn_duration_minutes := duration_minutes e |}.

(** [while (currentEventId !== undefined) { path.unshift(...) ... }];
    the inner [None] is the TypeError of [event.event_id] on [undefined],
    the outer one the end of the fuel. *)
Fixpoint reconstruct (details : gmap jsstring Event)
  (prev : gmap jsstring jsstring) (fuel : nat)
  (currentEventId : option jsstring) (path : list PathNode)
  : option (option (list PathNode)) :=
  match currentEventId with
  | None => Some (Some path)
  | Some cur =>
      match fuel with
      | O => None
      | S fuel' =>
          match details !! cur with
          | None => Some None
          | Some event =>
              reconstruct details prev fuel' (prev !! cur)
                (pathNode event :: path)
          end
      end
  end.

Inductive PathResult :=
| PathFound (shortestPath : list PathNode) (totalDurationMinutes : Z)
| NoPath                   (* shortestPath: [], totalDurationMinutes: 0 *)
| PathError.               (* the TypeError, logged and rethrown *)

(** [findShortestPath(sourceEventId, targetEventId)] over the rows of the
    table. An event is visited once and its children are pushed then, so
    the queue receives at most one entry per row besides the source, and
    the path has at most one node per visit; [None] is the model running
    out of the fuel that allows for this ([dijkstra_ends] below shows the
    search loop never does on a table of distinct identifiers). *)
Definition findShortestPath (rows : list Event)
  (sourceEventId targetEventId : jsstring) : option PathResult :=
  let graph := graphOf rows in
  let eventDetails := detailsOf rows in
  let fuel := S (S (length rows)) in
  match dijkstra graph eventDetails targetEventId fuel
          (initialSearch rows sourceEventId) with
  | OutOfFuel => None
  | TypeError => Some PathError
  | Finished st =>
      if bool_decide (previous st !! targetEventId = None)
         && bool_decide (sourceEventId <> targetEventId)
      then Some NoPath
      else
        match reconstruct eventDetails (previous st) fuel
                (Some targetEventId) [] with
        | None => None
        | Some None => Some PathError
        | Some (Some path) =>
            Some (PathFound path
                    (foldl (fun sum node => sum + pn_duration_minutes node)
                       0 path))
        end
  end.

(** *** Timeline ([buildHierarchy]) *)

Section Hierarchy.
(** [buildHierarchy] reads two properties of the objects it is given,
    [event_id] and [parent_event_id], and copies the others. *)
Context {Row : Type} (key : Row -> jsstring) (parent : Row -> option jsstring).

(** An object of [eventMap]: the copy of the row, and its [children]
    array. The array holds references to objects of the map, each of which
    the key it sits under identifies. *)
Record TimelineNode := {
  tn_row : Row;
  tn_children : list jsstring
}.

(** The first [forEach]: [eventMap.set(event.event_id, {...event, children: []})] *)
Definition eventMapOf (events : list Row) : gmap jsstring TimelineNode :=
  foldl (fun eventMap event =>
           <[key event := {| tn_row := event; tn_children := [] |}]> eventMap)
    ∅ events.

(** The second [forEach]: [parent.children.push(child)] *)
Definition linkChildren (eventMap : gmap jsstring TimelineNode)
  (events : list Row) : gmap jsstring TimelineNode :=
  foldl (fun eventMap event =>
           match parent event with
           | Some p =>
               if truthy p && bool_decide (is_Some (eventMap !! p))
               then alter (fun node =>
                             {| tn_row := tn_row node;
                                tn_children := tn_children node ++ [key event] |})
                      p eventMap
               else eventMap
           | None => eventMap
           end) eventMap events.

(** [buildHierarchy(events)]: [null], or the object under the key of the
    first row, given as that key and the objects of the map. *)
Definition buildHierarchy (events : list Row)
  : option (jsstring * gmap jsstring TimelineNode) :=
  match events with
  | [] => None
  | rootEvent :: _ =>
      Some (key rootEvent, linkChildren (eventMapOf events) events)
  end.
End Hierarchy.

(** *** The timeline query ([getTimeline]) *)

(** A row of [historical_events] as [getTimeline] selects it: the columns
    of [Event], the description and the metadata, a JSON document, both of
    which may be [NULL]. *)
Record StoredEvent := {
  se_event : Event;
  se_description : option jsstring;
  se_metadata : option jsstring
}.

(** A row of [event_hierarchy]. *)
Record HierarchyRow := {
  hr_row : StoredEvent;
  hr_level : Z
}.

Definition hr_event_id (r : HierarchyRow) : jsstring :=
  event_id (se_event (hr_row r)).

Definition hr_parent_event_id (r : HierarchyRow) : option jsstring :=
  parent_event_id (se_event (hr_row r)).

(** The recursive term: [historical_events he INNER JOIN event_hierarchy eh
    ON he.parent_event_id = eh.event_id], the working table standing for
    [event_hierarchy]. *)
Definition childRows (table working : list StoredEvent) : list StoredEvent :=
  he ← table; eh ← working;
  if bool_decide (parent_event_id (se_event he) = Some (event_id (se_event eh)))
  then [he] else [].

(** [WITH RECURSIVE event_hierarchy]: the working table, at its level, then
    what the recursive term makes of it, until the working table is empty.
    [None] is a query that goes on after [fuel] rounds. *)
Fixpoint event_hierarchy (table : list StoredEvent) (fuel : nat) (level : Z)
  (working : list StoredEvent) : option (list HierarchyRow) :=
  match working with
  | [] => Some []
  | _ :: _ =>
      match fuel with
      | O => None
      | S fuel' =>
          rest ← event_hierarchy table fuel' (level + 1)
                   (childRows table working);
          Some (((fun e => {| hr_row := e; hr_level := level |}) <$> working)
                ++ rest)
      end
  end.

(** [ORDER BY level, start_date]; rows equal in both come in the order the
    sort gives, which SQL leaves open. *)
Definition byLevelThenStart (r1 r2 : HierarchyRow) : Prop :=
  hr_level r1 < hr_level r2
  \/ (hr_level r1 = hr_level r2
      /\ start_date (se_event (hr_row r1))
         <= start_date (se_event (hr_row r2))).

Global Instance byLevelThenStart_dec r1 r2 : Decision (byLevelThenStart r1 r2).
Proof. unfold byLevelThenStart. apply _. Defined.

(** [getTimeline(rootEventId)] over the rows of the table, [rootEventId]
    being the [uuid] the parameter is cast to, in its canonical text. In a
    table of distinct identifiers without cycles every round but the last
    adds a row the rounds before have not, so the query ends within one
    round more than the table has rows; the outer [None] is the model
    running out of the fuel that allows for this. *)
Definition getTimeline (table : list StoredEvent) (rootEventId : jsstring)
  : option (option (jsstring * gmap jsstring (@TimelineNode HierarchyRow))) :=
  rows ← event_hierarchy table (S (length table)) 0
            (filter (fun e => event_id (se_event e) = rootEventId) table);
  Some (buildHierarchy hr_event_id hr_parent_event_id
          (merge_sort byLevelThenStart rows)).
End HistoricalEvent.

Module FileIngestionService.

(** ** UUID validation

    [/^[0-9a-f]{8}-[0-9a-f]{4}-[1-5][0-9a-f]{3}-[89ab][0-9a-f]{3}-[0-9a-f]{12}$/i] *)

Definition isHex (c : N) : bool :=
  ((48 <=? c) && (c <=? 57))%N       (* 0-9 *)
  || ((97 <=? c) && (c <=? 102))%N   (* a-f *)
  || ((65 <=? c) && (c <=? 70))%N.   (* A-F, by the i flag *)

Definition isDash (c : N) : bool := (c =? 45)%N.

Definition isVersion (c : N) : bool := ((49 <=? c) && (c <=? 53))%N. (* 1-5 *)

Definition isVariant (c : N) : bool :=
  (c =? 56)%N || (c =? 57)%N || (c =? 97)%N || (c =? 98)%N
  || (c =? 65)%N || (c =? 66)%N.                       (* 8 9 a b A B *)

(** The regular expression as the sequence of its 36 character classes. *)
Definition uuidPattern : list (N -> bool) :=
  replicate 8 isHex ++ [isDash] ++
  replicate 4 isHex ++ [isDash] ++
  [isVersion] ++ replicate 3 isHex ++ [isDash] ++
  [isVariant] ++ replicate 3 isHex ++ [isDash] ++
  replicate 12 isHex.

Fixpoint matches (pat : list (N -> bool)) (s : jsstring) : bool :=
  match pat, s with
  | [], [] => true
  | p :: pat', c :: s' => p c && matches pat' s'
  | _, _ => false
  end.

Definition isValidUUID (s : jsstring) : bool := matches uuidPattern s.

(** [s.toUpperCase() !== 'NULL'] negated: the strings whose upper-casing is
    the literal NULL are exactly the four-letter ASCII spellings of it. *)
Definition toUpperAscii (c : N) : N :=
  if ((97 <=? c) && (c <=? 122))%N then (c - 32)%N else c.

Definition isNullLiteral (s : jsstring) : bool :=
  bool_decide (toUpperAscii <$> s = str "NULL").


Section Service.
Context `{Platform}.

(** [parseLine(line, lineNumber, filePath)] *)
Definition parseLine (line : jsstring) (lineNumber : Z) (filePath : jsstring)
  : ParseOutcome :=
  if negb (truthy (trim line)) then Skipped
  else
    match split pipe line with
    | [eventId; eventName; startDate; endDate; parentId; description] =>
        if negb (isValidUUID (trim eventId))
        then Rejected (InvalidUUID (trim eventId))
        else
          match newDate (trim startDate) with
          | None => Rejected (InvalidStartDate (trim startDate))
          | Some startDateObj =>
              match newDate (trim endDate) with
              | None => Rejected (InvalidEndDate (trim endDate))
              | Some endDateObj =>
                  if startDateObj >=? endDateObj
                  then Rejected DateOrderError
                  else
                    let parentIdTrimmed := trim parentId in
                    let draft parentEventId :=
                      {| ed_event_id := trim eventId;
                         ed_event_name := trim eventName;
                         ed_description :=
                           if truthy (trim description)
                           then Some (trim description) else None;
                         ed_start_date := startDateObj;
                         ed_end_date := endDateObj;
                         ed_parent_event_id := parentEventId;
                         ed_metadata :=
                           {| source_file := filePath;
                              line_number := lineNumber;
                              parsing_flags := [] |} |} in
                    if truthy parentIdTrimmed
                       && negb (isNullLiteral parentIdTrimmed)
                    then
                      if negb (isValidUUID parentIdTrimmed)
                      then Rejected (InvalidParentUUID parentIdTrimmed)
                      else Parsed (draft (Some parentIdTrimmed))
                    else Parsed (draft None)
              end
          end
    | parts => Rejected (MalformedEntry (length parts))
    end.

(** [generateJobId]: [`ingest-job-${Date.now()}-${uuidv4().substring(0, 8)}`] *)
Definition generateJobId : M jsstring := fun w =>
  (Returned (str "ingest-job-" ++ decimalZ (clock w) ++ str "-"
             ++ take 8 (uuidv4 (draws w))),
   {| ledger := ledger w; events := events w; issued := issued w;
      draws := S (draws w); clock := clock w; journal := journal w;
      commits := commits w |}).

(** [fs.access(filePath)], with the default mode [F_OK]: the path is
    visible to the process. *)
Definition access (filePath : jsstring) : M unit :=
  match fs filePath with
  | Some _ => ret tt
  | None =>
      throw (str "ENOENT: no such file or directory, access '"
             ++ filePath ++ str "'")
  end.

(** [createReadStream] and [readline.createInterface]: the lines of the
    file, or the stream's error. *)
Definition readLines (filePath : jsstring) : M (list jsstring) :=
  match fs filePath with
  | Some (RegularFile true lines) => ret lines
  | Some (RegularFile false _) =>
      throw (str "EACCES: permission denied, open '" ++ filePath ++ str "'")
  | Some Directory =>
      throw (str "EISDIR: illegal operation on a directory, read")
  | None =>
      throw (str "ENOENT: no such file or directory, open '"
             ++ filePath ++ str "'")
  end.

(** [countLines] *)
Definition countLines (filePath : jsstring) : M Z :=
  let! lines := readLines filePath in
  ret (Z.of_nat (length lines)).

(** The local variables of [processFile]. *)
Record Locals := {
  lineNumber : Z;
  processedLines : Z;
  errorLines : Z;
  eventBatch : list EventData
}.

Definition batchSize : nat := 100.

(** [await HistoricalEvent.bulkCreate(eventBatch)] inside its [try]:
    [true] when it resolved. *)
Definition commitBatch (batch : list EventData) : M bool := fun w =>
  let w' s :=
    {| ledger := ledger w; events := s; issued := issued w;
       draws := draws w; clock := clock w; journal := journal w;
       commits := batch :: commits w |} in
  match HistoricalEvent.bulkCreate (events w) batch with
  | Some s' => (Returned true, w' s')
  | None => (Returned false, w' (events w))
  end.

Definition progress (processed errs : Z) : Updates :=
  {| u_status := None; u_total_lines := None;
     u_processed_lines := Some processed; u_error_lines := Some errs;
     u_errors := None; u_end_time := None |}.

(** [try { parseLine ... } catch (error) { errorLines++; addError ... }] *)
Definition tryParse (jobId filePath line : jsstring) (v : Locals) : M Locals :=
  let lineNumber' := lineNumber v + 1 in
  match parseLine line lineNumber' filePath with
  | Parsed eventData =>
      ret {| lineNumber := lineNumber';
             processedLines := processedLines v + 1;
             errorLines := errorLines v;
             eventBatch := eventBatch v ++ [eventData] |}
  | Skipped =>
      ret {| lineNumber := lineNumber';
             processedLines := processedLines v;
             errorLines := errorLines v;
             eventBatch := eventBatch v |}
  | Rejected error =>
      exec! IngestionJob.addError jobId
              (str "Line " ++ decimalZ lineNumber' ++ str ": "
               ++ message error) in
      ret {| lineNumber := lineNumber';
             processedLines := processedLines v;
             errorLines := errorLines v + 1;
             eventBatch := eventBatch v |}
  end.

(** Process batch when it reaches the batch size. *)
Definition processBatch (v : Locals) : M Locals :=
  if bool_decide (batchSize <= length (eventBatch v))%nat then
    let! ok := commitBatch (eventBatch v) in
    if ok : bool then
      ret {| lineNumber := lineNumber v;
             processedLines := processedLines v;
             errorLines := errorLines v;
             eventBatch := [] |}
    else
      ret {| lineNumber := lineNumber v;
             processedLines :=
               processedLines v - Z.of_nat (length (eventBatch v));
             errorLines := errorLines v + Z.of_nat (length (eventBatch v));
             eventBatch := [] |}
  else ret v.

(** Update progress every 100 lines. *)
Definition reportProgress (jobId : jsstring) (v : Locals) : M Locals :=
  if lineNumber v mod 100 =? 0 then
    exec! IngestionJob.updateProgress jobId
            (progress (processedLines v) (errorLines v)) in
    ret v
  else ret v.

(** The body of [for await (const line of rl)]. *)
Definition forLine (jobId filePath line : jsstring) (v : Locals) : M Locals :=
  let! v1 := tryParse jobId filePath line v in
  let! v2 := processBatch v1 in
  reportProgress jobId v2.

Fixpoint forEachLine (jobId filePath : jsstring) (lines : list jsstring)
  (v : Locals) : M Locals :=
  match lines with
  | [] => ret v
  | line :: rest =>
      let! v' := forLine jobId filePath line v in
      forEachLine jobId filePath rest v'
  end.

(** Process remaining events in the last batch. *)
Definition lastBatch (v : Locals) : M Locals :=
  if bool_decide (0 < length (eventBatch v))%nat then
    let! ok := commitBatch (eventBatch v) in
    if ok : bool then ret v
    else
      ret {| lineNumber := lineNumber v;
             processedLines :=
               processedLines v - Z.of_nat (length (eventBatch v));
             errorLines := errorLines v + Z.of_nat (length (eventBatch v));
             eventBatch := eventBatch v |}
  else ret v.

(** The [try] block of [processFile]. *)
Definition processFileBody (jobId filePath : jsstring) : M unit :=
  let! totalLines := countLines filePath in
  exec! IngestionJob.updateProgress jobId
          {| u_status := None; u_total_lines := Some totalLines;
             u_processed_lines := None; u_error_lines := None;
             u_errors := None; u_end_time := None |} in
  let! lines := readLines filePath in
  let! v := forEachLine jobId filePath lines
              {| lineNumber := 0; processedLines := 0; errorLines := 0;
                 eventBatch := [] |} in
  let! v' := lastBatch v in
  let! t := now in
  exec! IngestionJob.updateProgress jobId
          {| u_status := Some COMPLETED; u_total_lines := None;
             u_processed_lines := Some (processedLines v');
             u_error_lines := Some (errorLines v');
             u_errors := None; u_end_time := Some t |} in
  ret tt.

(** [processFile(jobId, filePath)] *)
Definition processFile (jobId filePath : jsstring) : M unit :=
  try_catch (processFileBody jobId filePath)
    (fun msg =>
       exec! IngestionJob.fail jobId (str "Processing failed: " ++ msg) in
       ret tt).

(** The promise [startIngestion] leaves running:
    [this.processFile(jobId, filePath).catch(error => IngestionJob.fail(...))] *)
Definition backgroundTask (jobId filePath : jsstring) : M unit :=
  try_catch (processFile jobId filePath)
    (fun msg =>
       exec! IngestionJob.fail jobId (str "Processing failed: " ++ msg) in
       ret tt).

Record Started := {
  s_status : jsstring;
  s_jobId : jsstring;
  s_message : jsstring
}.

(** [startIngestion(filePath)]. Its value comes with the task it has
    started and not awaited: [processFile] runs up to its first [await],
    which comes before any query, so the task has touched nothing when
    [startIngestion] returns. *)
Definition startIngestion (filePath : jsstring)
  : M (Started * (jsstring * jsstring)) :=
  let! jobId := generateJobId in
  try_catch
    (exec! access filePath in
     exec! IngestionJob.create jobId filePath PROCESSING in
     ret ({| s_status := str "Ingestion initiated";
             s_jobId := jobId;
             s_message := str "Check /api/events/ingestion-status/" ++ jobId
                          ++ str " for updates." |},
          (jobId, filePath)))
    (fun msg => throw (str "Failed to start ingestion: " ++ msg)).

(** The object [getJobStatus] returns; [startTime] and [endTime] are
    properties the object has or lacks together. *)
Record JobSnapshot := {
  r_jobId : jsstring;
  r_status : JobStatus;
  r_processedLines : Z;
  r_errorLines : Z;
  r_totalLines : Z;
  r_errors : list jsstring;
  r_times : option (Z * option Z)
}.

(** [getJobStatus(jobId)] *)
Definition getJobStatus (jobId : jsstring) : M JobSnapshot :=
  let! job := IngestionJob.findById jobId in
  match job with
  | None => throw (str "Job not found")
  | Some job =>
      ret {| r_jobId := job_id job;
             r_status := status job;
             r_processedLines := processed_lines job;
             r_errorLines := error_lines job;
             r_totalLines := total_lines job;
             r_errors := errors job;
             r_times :=
               if bool_decide (status job = COMPLETED)
               then Some (start_time job, end_time job)
               else None |}
  end.
End Service.
End FileIngestionService.

(** ** A sample platform

    A concrete instance of the collaborators, on which the statements below
    are exercised: a [Date] that understands the form
    [YYYY-MM-DDTHH:MM:SSZ], and an event table that enforces the primary key
    and the parent reference of [database_schema.sql]. *)

Module Sample.
Definition digit (c : N) : option Z :=
  if ((48 <=? c) && (c <=? 57))%N then Some (Z.of_N c - 48) else None.

Fixpoint number (acc : Z) (s : jsstring) : option Z :=
  match s with
  | [] => Some acc
  | c :: s' => d ← digit c; number (10 * acc + d) s'
  end.

Definition leap (y : Z) : bool :=
  ((y mod 4 =? 0) && negb (y mod 100 =? 0)) || (y mod 400 =? 0).

Definition daysInMonth (y m : Z) : Z :=
  if m =? 2 then (if leap y then 29 else 28)
  else if (m =? 4) || (m =? 6) || (m =? 9) || (m =? 11) then 30 else 31.

(** Days from 1970-01-01 to the civil date. *)
Definition daysFromCivil (y m d : Z) : Z :=
  let y' := if m <=? 2 then y - 1 else y in
  let era := y' / 400 in
  let yoe := y' - era * 400 in
  let doy := (153 * (if 2 <? m then m - 3 else m + 9) + 2) / 5 + d - 1 in
  let doe := yoe * 365 + yoe / 4 - yoe / 100 + doy in
  era * 146097 + doe - 719468.

Definition field (from len : nat) (s : jsstring) : option Z :=
  number 0 (take len (drop from s)).

Definition date (s : jsstring) : option Z :=
  if bool_decide (length s = 20%nat
                  /\ (fun i => default 0%N (s !! i)) <$> [4; 7; 10; 13; 16; 19]%nat
                     = str "--T::Z")
  then
    y ← field 0 4 s; m ← field 5 2 s; d ← field 8 2 s;
    hh ← field 11 2 s; mm ← field 14 2 s; ss ← field 17 2 s;
    if (1 <=? m) && (m <=? 12) && (1 <=? d) && (d <=? daysInMonth y m)
       && (hh <=? 23) && (mm <=? 59) && (ss <=? 59)
    then Some ((((daysFromCivil y m d * 24 + hh) * 60 + mm) * 60 + ss) * 1000)
    else None
  else None.

Definition insert (s : list EventData) (e : EventData)
  : option (list EventData) :=
  if bool_decide (ed_event_id e ∈ ed_event_id <$> s) then None
  else
    match ed_parent_event_id e with
    | Some p =>
        if bool_decide (p ∈ ed_event_id <$> s ++ [e])
        then Some (s ++ [e]) else None
    | None => Some (s ++ [e])
    end.

Definition uuid (n : nat) : jsstring :=
  let d := decimal (N.of_nat n) in
  replicate (8 - length d) 48%N ++ d ++ str "-0000-4000-8000-000000000000".

Definition platform (files : jsstring -> option FileNode)
  (faults : nat -> option jsstring) : Platform :=
  {| newDate := date; Store := list EventData; insertEvent := insert;
     queryError := faults; fs := files; uuidv4 := uuid |}.

Definition noFaults : nat -> option jsstring := fun _ => None.

Definition noFiles : jsstring -> option FileNode := fun _ => None.

Definition oneFile (path : jsstring) (node : FileNode)
  : jsstring -> option FileNode :=
  fun p => if bool_decide (p = path) then Some node else None.

(** The i-th line of the sample file of 150 valid lines; the event of
    line 120 names a parent that no line declares. *)
Definition line (i : nat) : jsstring :=
  uuid i ++ str "|Event|2023-01-01T10:00:00Z|2023-01-01T11:00:00Z|"
  ++ (if bool_decide (i = 120%nat) then uuid 999 else str "NULL")
  ++ str "|sample".

Definition file150 : list jsstring := line <$> seq 1 150.

(** Whether a line parses, decided on line number 0. *)
Definition parses `{Platform} (l : jsstring) : bool :=
  match FileIngestionService.parseLine l 0 [] with
  | Parsed _ => true
  | _ => false
  end.

(** Sample rows of [historical_events]: a time of day on 2023-01-01 as a
    timestamp, and an event with the duration the table derives for it. *)
Definition at_ (h m sec : Z) : Z :=
  (1672531200 + (h * 60 + m) * 60 + sec) * 1000000.

Definition event (n : nat) (name : string) (starts ends : Z)
  (parent : option nat) : HistoricalEvent.Event :=
  {| HistoricalEvent.event_id := uuid n;
     HistoricalEvent.event_name := str name;
     HistoricalEvent.start_date := starts;
     HistoricalEvent.end_date := ends;
     HistoricalEvent.duration_minutes :=
       HistoricalEvent.roundMinutes (ends - starts);
     HistoricalEvent.parent_event_id := uuid <$> parent |}.

(** A root, its child of 10 minutes and its grandchild of 20 minutes. *)
Definition founding : HistoricalEvent.Event :=
  event 1 "Founding" (at_ 10 0 0) (at_ 11 30 0) None.
Definition research : HistoricalEvent.Event :=
  event 2 "Research" (at_ 10 30 0) (at_ 10 40 0) (Some 1%nat).
Definition review : HistoricalEvent.Event :=
  event 3 "Review" (at_ 10 45 0) (at_ 11 5 0) (Some 2%nat).

(** A world that has seen nothing yet. *)
Definition world `{Platform} (s : Store) (jobs : gmap jsstring Job) (t : Z)
  : World :=
  {| ledger := jobs; events := s; issued := 0; draws := 0; clock := t;
     journal := [jobs]; commits := [] |}.
End Sample.

(** ** Vocabulary of the statements *)

Import HistoricalEvent FileIngestionService.

Section Vocabulary.
Context `{Platform}.

(** A computation started in a world satisfying [P] ends, when it returns
    [a], in a world satisfying [Q a], and when it throws in one
    satisfying [E]. *)
Definition triple {A} (P : World -> Prop) (m : M A)
  (Q : A -> World -> Prop) (E : World -> Prop) : Prop :=
  forall w, P w ->
    match m w with
    | (Returned a, w') => Q a w'
    | (Thrown _, w') => E w'
    end.

(** The whole life of one submission: [startIngestion], then the task it
    started, run to its end. *)
Definition lifecycle (filePath : jsstring) (w : World) : World :=
  match startIngestion filePath w with
  | (Returned (_, (jobId, path)), w1) => (backgroundTask jobId path w1).2
  | (Thrown _, w1) => w1
  end.

(** The successive states of the ledger row of a job, oldest first. *)
Definition rowHistory (jobId : jsstring) (w : World) : list (option Job) :=
  (fun l : gmap jsstring Job => l !! jobId) <$> reverse (journal w).

Definition consecutive {A} (l : list A) (a b : A) : Prop :=
  exists i, l !! i = Some a /\ l !! S i = Some b.

(** One step of a row's history that the state machine allows: the row
    appears in PROCESSING state, stays as it is, or changes while in
    PROCESSING state. *)
Definition legal (before after : option Job) : Prop :=
  match before with
  | None =>
      match after with
      | None => True
      | Some j => status j = PROCESSING
      end
  | Some j => after = Some j \/ (status j = PROCESSING /\ is_Some after)
  end.

(** The journal, latest first, has only legal steps for the job. *)
Fixpoint lawful (jobId : jsstring) (js : list (gmap jsstring Job)) : Prop :=
  match js with
  | newer :: (older :: _) as rest =>
      legal (older !! jobId) (newer !! jobId) /\ lawful jobId rest
  | _ => True
  end.

(** The lines [parseLine] does not skip. *)
Definition nonBlank (lines : list jsstring) : Z :=
  Z.of_nat (length (filter (fun l => trim l <> []) lines)).

(** The drafts of a run of lines, the first of which has number
    [from + 1]; lines that do not parse contribute nothing. *)
Fixpoint drafts (filePath : jsstring) (from : Z) (lines : list jsstring)
  : list EventData :=
  match lines with
  | [] => []
  | line :: rest =>
      match parseLine line (from + 1) filePath with
      | Parsed e => e :: drafts filePath (from + 1) rest
      | _ => drafts filePath (from + 1) rest
      end
  end.

(** A line is valid when it parses, whatever its number. *)
Definition valid (filePath line : jsstring) : Prop :=
  forall n, exists e, parseLine line n filePath = Parsed e.

(** *** Reasoning about the controller *)

(** What a property of worlds may depend on: the ledger and its journal. *)
Definition ledgerView (w : World)
  : gmap jsstring Job * list (gmap jsstring Job) :=
  (ledger w, journal w).

(** A row update that keeps the status and the total of the job. *)
Definition benign (f : Job -> Job) : Prop :=
  forall j, status (f j) = status j /\ total_lines (f j) = total_lines j.

(** What a property of worlds needs in order to survive the loop over the
    lines of job [jobId]. *)
Record LoopInvariant (jobId : jsstring) (I : World -> Prop) : Prop := {
  inv_view : forall w w', ledgerView w = ledgerView w' -> I w -> I w';
  inv_update : forall w w' f,
    benign f ->
    ledger w' = alter f jobId (ledger w) ->
    journal w' = ledger w' :: journal w ->
    I w -> I w'
}.

(** The local counters account for [n] lines, and every draft still in
    the batch has been counted as processed. *)
Definition counted (v : Locals) (n : Z) : Prop :=
  processedLines v + errorLines v = n
  /\ Z.of_nat (length (eventBatch v)) <= processedLines v
  /\ 0 <= errorLines v.

(** The final counters: [n] lines accounted for, none negatively. *)
Definition settled (v : Locals) (n : Z) : Prop :=
  processedLines v + errorLines v = n
  /\ 0 <= processedLines v /\ 0 <= errorLines v.

(** The job is in the ledger, in PROCESSING state. *)
Definition processing (jobId : jsstring) (w : World) : Prop :=
  exists j, ledger w !! jobId = Some j /\ status j = PROCESSING.

(** ... and its total is [t]. *)
Definition processingOf (jobId : jsstring) (t : Z) (w : World) : Prop :=
  exists j, ledger w !! jobId = Some j /\ status j = PROCESSING
            /\ total_lines j = t.

(** The job is COMPLETED and its counters account for the file. *)
Definition accounted (jobId : jsstring) (lines : list jsstring) (w : World)
  : Prop :=
  exists j, ledger w !! jobId = Some j /\ status j = COMPLETED
            /\ total_lines j = Z.of_nat (length lines)
            /\ processed_lines j + error_lines j = nonBlank lines
            /\ 0 <= processed_lines j /\ 0 <= error_lines j.

(** The world after [bulkCreate] was called on [batch] and left the table
    as [s]. *)
Definition afterCommit (batch : list EventData) (s : Store) (w : World)
  : World :=
  {| ledger := ledger w; events := s; issued := issued w; draws := draws w;
     clock := clock w; journal := journal w; commits := batch :: commits w |}.

(** The world after an accepted ledger query that left the table as [l]. *)
Definition afterQuery (l : gmap jsstring Job) (w : World) : World :=
  {| ledger := l; events := events w; issued := S (issued w);
     draws := draws w; clock := clock w; journal := l :: journal w;
     commits := commits w |}.

(** The journal is up to date and lawful for job [k]. *)
Definition observed (k : jsstring) (w : World) : Prop :=
  head (journal w) = Some (ledger w) /\ lawful k (journal w).

(** ... and job [jobId] is being processed. *)
Definition tracked (k jobId : jsstring) (w : World) : Prop :=
  observed k w /\ processing jobId w.
End Vocabulary.

(** *** Vocabulary of the analytics *)

(** The report lists the pair of events (a, b), in this order. *)
Definition reports (out : list OverlapReport) (a b : Event) : Prop :=
  exists r, r ∈ out /\ overlappingEventPairs r = (summary a, summary b).

(** Ordered by rounded overlap, longest first. *)
Definition longerReported (r1 r2 : OverlapReport) : Prop :=
  overlap_duration_minutes r2 <= overlap_duration_minutes r1.

(** The identifiers of the rows whose parent is [p], in the order of the
    rows: the adjacency list of [p]. *)
Definition children (rows : list Event) (p : jsstring) : list jsstring :=
  event_id <$> filter (fun e => parent_event_id e = Some p /\ p <> []) rows.

(** The rows whose parent has not been visited: the edges not yet relaxed. *)
Definition unvisitedParent (vis : gset jsstring) (e : Event) : bool :=
  match parent_event_id e with
  | Some p => truthy p && bool_decide (p ∉ vis)
  | None => false
  end.

Definition pending (rows : list Event) (vis : gset jsstring) : nat :=
  length (filter (fun e => unvisitedParent vis e = true) rows).

(** The identifiers waiting in the queue. *)
Definition queued (st : Search) : list jsstring := (queue st).*1.

(** What the search keeps true on a table of distinct identifiers, between
    two iterations ([todo] empty) and while the children [todo] of the
    event [cur] just visited remain to be relaxed. *)
Record SearchInv (rows : list Event) (s t cur : jsstring)
  (todo : list jsstring) (st : Search) : Prop := {
  si_prev : forall n p, previous st !! n = Some p ->
    p ∈ visited st
    /\ exists e, e ∈ rows /\ event_id e = n /\ parent_event_id e = Some p;
  si_prev_source : previous st !! s = None;
  si_dist : forall n, n ∈ visited st \/ n ∈ queued st ->
    exists d, distances st !! n = Some (Num d);
  si_reached : forall n, n ∈ visited st \/ n ∈ queued st -> n <> s ->
    is_Some (previous st !! n);
  si_fresh : forall e, e ∈ rows -> event_id e <> s ->
    (forall p, parent_event_id e = Some p -> p <> [] ->
       p ∉ visited st \/ (p = cur /\ event_id e ∈ todo)) ->
    distances st !! event_id e = Some Infinity
    /\ (event_id e ∉ visited st) /\ (event_id e ∉ queued st);
  si_children : forall e p, e ∈ rows -> parent_event_id e = Some p ->
    p <> [] -> p ∈ visited st -> event_id e <> s ->
    event_id e ∈ visited st \/ event_id e ∈ queued st
    \/ (p = cur /\ event_id e ∈ todo);
  si_source : s ∈ visited st \/ (queued st = [s]);
  si_target : t ∉ visited st
}.

(** What the map [previous] is when the loop has ended: links from child to
    parent, each leading back to the source, which has none. *)
Definition PrevOK (rows : list Event) (s : jsstring) (st : Search) : Prop :=
  (forall n p, previous st !! n = Some p ->
     (exists e, e ∈ rows /\ event_id e = n /\ parent_event_id e = Some p)
     /\ (p = s \/ is_Some (previous st !! p)))
  /\ previous st !! s = None.

(** How the loop ends: it has emptied the queue, or it has popped the
    target, which is then the source or has a predecessor. *)
Definition Ended (rows : list Event) (s t : jsstring) (st : Search) : Prop :=
  PrevOK rows s st
  /\ ((exists c0, SearchInv rows s t c0 [] st /\ queue st = [])
       \/ t = s \/ is_Some (previous st !! t)).

(** *** Vocabulary of the further properties *)

(** [parts.join(sep)] *)
Fixpoint join (sep : N) (parts : list jsstring) : jsstring :=
  match parts with
  | [] => []
  | [p] => p
  | p :: rest => p ++ sep :: join sep rest
  end.

Definition pipes (line : jsstring) : nat :=
  length (filter (fun c => c = pipe) line).

Section LedgerVocabulary.
Context `{Platform}.

(** An operation on the ledger that touches the row of [jobId] at most,
    neither creates nor deletes it, and leaves its identifier, file path and
    start time alone; on a missing row it answers [undefined]. *)
Definition rowLocal (jobId : jsstring) (m : M (option Job)) : Prop :=
  forall w,
    (forall k, k <> jobId -> ledger (m w).2 !! k = ledger w !! k)
    /\ match ledger w !! jobId with
       | None =>
           ledger (m w).2 !! jobId = None
           /\ forall r, (m w).1 = Returned r -> r = None
       | Some j =>
           exists j',
             ledger (m w).2 !! jobId = Some j'
             /\ job_id j' = job_id j /\ file_path j' = file_path j
             /\ start_time j' = start_time j
             /\ forall r, (m w).1 = Returned r -> r = Some j'
       end.
End LedgerVocabulary.

Section RunVocabulary.
Context `{Platform}.

(** The entries [processFile] adds to the error list for a run of lines,
    the first of which has number [from + 1]: one per line [parseLine]
    rejects. *)
Fixpoint complaints (filePath : jsstring) (from : Z) (lines : list jsstring)
  : list jsstring :=
  match lines with
  | [] => []
  | line :: rest =>
      match parseLine line (from + 1) filePath with
      | Rejected error =>
          (str "Line " ++ decimalZ (from + 1) ++ str ": " ++ message error)
          :: complaints filePath (from + 1) rest
      | _ => complaints filePath (from + 1) rest
      end
  end.

(** What the loop over [lines] has done when it hands over [v'] and [w'],
    having started from [v] and [w], the ledger holding [j] for the job:
    the batches it has handed to [bulkCreate], oldest first, are [bs]. *)
Definition loopRun (jobId filePath : jsstring) (lines : list jsstring)
  (v : Locals) (w : World) (j : Job) (v' : Locals) (w' : World)
  (bs : list (list EventData)) : Prop :=
  lineNumber v' = lineNumber v + Z.of_nat (length lines)
  /\ commits w' = reverse bs ++ commits w
  /\ concat bs ++ eventBatch v'
     = eventBatch v ++ drafts filePath (lineNumber v) lines
  /\ Forall (fun b => length b = batchSize) bs
  /\ (length (eventBatch v') < batchSize)%nat
  /\ processedLines v'
     <= processedLines v
        + Z.of_nat (length (drafts filePath (lineNumber v) lines))
  /\ errorLines v + Z.of_nat (length (complaints filePath (lineNumber v) lines))
     <= errorLines v'
  /\ exists j',
       ledger w' !! jobId = Some j'
       /\ errors j' = errors j ++ complaints filePath (lineNumber v) lines
       /\ status j' = status j /\ total_lines j' = total_lines j
       /\ end_time j' = end_time j.
End RunVocabulary.

(** A line of descent: each event is the parent of the next. *)
Fixpoint lineage (es : list Event) : Prop :=
  match es with
  | a :: (b :: _) as rest =>
      parent_event_id b = Some (event_id a) /\ event_id a <> [] /\ lineage rest
  | _ => True
  end.

(** A line of descent in the table that leads from the event [s] down to the
    event [t]. *)
Definition descent (rows : list Event) (s t : jsstring) (es : list Event)
  : Prop :=
  Forall (fun e => e ∈ rows) es /\ lineage es
  /\ event_id <$> head es = Some s /\ event_id <$> last es = Some t.

(** The sum of the durations of the events. *)
Definition totalDuration (es : list Event) : Z :=
  foldr (fun e sum => duration_minutes e + sum) 0 es.

(** The events visited so far, latest first: every link of [previous]
    leads from an event to one visited before it. *)
Definition VisitOrder (rows : list Event) (s : jsstring)
  (order : list jsstring) (st : Search) : Prop :=
  NoDup order
  /\ (forall n, n ∈ order <-> n ∈ visited st)
  /\ (forall n, n ∈ order \/ n ∈ queued st ->
        n = s \/ n ∈ event_id <$> rows)
  /\ (forall n p, previous st !! n = Some p ->
        p <> [] /\ p ∈ order
        /\ forall pre suf, order = pre ++ n :: suf -> p ∈ suf).

(** A table without cycles: every event lies one level below its parent. *)
Definition forest (table : list StoredEvent) (depth : jsstring -> nat) : Prop :=
  forall e p, e ∈ table -> parent_event_id (se_event e) = Some p ->
    depth (event_id (se_event e)) = S (depth p).

(** Siblings in the order of their start. *)
Definition earlierStart (r1 r2 : HierarchyRow) : Prop :=
  start_date (se_event (hr_row r1)) <= start_date (se_event (hr_row r2)).

(** The rows at level [n] below [root]: those a line of descent of [n + 1]
    events leads to from the root. *)
Definition atLevel (table : list StoredEvent) (root : jsstring) (n : nat)
  (e : StoredEvent) : Prop :=
  e ∈ table
  /\ exists es, descent (se_event <$> table) root (event_id (se_event e)) es
                /\ length es = S n.

(** The working table of round [n]: the rows at level [n], in the order of
    the table. *)
Definition round (table : list StoredEvent) (root : jsstring) (n : nat)
  (W : list StoredEvent) : Prop :=
  W `sublist_of` table /\ forall e, e ∈ W <-> atLevel table root n e.

(** The rows not above level [n]: what is left for the rounds from [n]. *)
Definition remaining (table : list StoredEvent) (root : jsstring)
  (depth : jsstring -> nat) (n : nat) : list StoredEvent :=
  filter (fun e => (depth root + n <= depth (event_id (se_event e)))%nat) table.

(** * Properties *)

(** ** Line parser *)

Section ParserProperties.
Context `{Platform}.
Import FileIngestionService.

Lemma truthy_nil (s : jsstring) : truthy s = false <-> s = [].
Proof. destruct s; simpl; split; congruence. Qed.

(** A line that does not split into six fields is skipped when blank and
    is a malformed entry otherwise; nothing else is looked at. *)
Lemma parseLine_wrong_count line lineNumber filePath :
  length (split pipe line) <> 6%nat ->
  parseLine line lineNumber filePath =
    if truthy (trim line)
    then Rejected (MalformedEntry (length (split pipe line)))
    else Skipped.
Proof.
  intros Hlen. unfold parseLine.
  destruct (truthy (trim line)); simpl; [|reflexivity].
  destruct (split pipe line) as [|f1 [|f2 [|f3 [|f4 [|f5 [|f6 [|f7 fs]]]]]]];
    simpl in *; congruence.
Qed.

(** C4, as amended: a line that is not blank and whose pipe-split field
    count is not 6 makes [parseLine] fail with the MalformedEntry error,
    whose message reports the expected count 6 and the actual count, and
    with no other error; a blank line, whose field count is not 6
    either, is skipped without any error. *)
Theorem wrong_field_count_is_malformed_entry line lineNumber filePath :
  length (split pipe line) <> 6%nat ->
  (trim line <> [] ->
     exists err,
       parseLine line lineNumber filePath = Rejected err
       /\ err = MalformedEntry (length (split pipe line))
       /\ message err =
            str "Malformed entry: expected 6 fields, got "
            ++ decimal (N.of_nat (length (split pipe line))))
  /\ (trim line = [] -> parseLine line lineNumber filePath = Skipped).
Proof.
  intros Hlen. rewrite (parseLine_wrong_count _ _ _ Hlen). split.
  - intros Hblank. destruct (truthy (trim line)) eqn:Ht.
    + eexists. repeat split; reflexivity.
    + apply truthy_nil in Ht. contradiction.
  - intros ->. reflexivity.
Qed.
End ParserProperties.

(** The MalformedEntry case on a line of three fields. *)
Lemma wrong_field_count_is_malformed_entry_witness :
  let P := Sample.platform Sample.noFiles Sample.noFaults in
  exists err,
    FileIngestionService.parseLine (str "abc|def|ghi") 4 (str "events.txt")
      = Rejected err
    /\ message err = str "Malformed entry: expected 6 fields, got 3".
Proof.
  intros P.
  destruct (wrong_field_count_is_malformed_entry (H := P)
              (str "abc|def|ghi") 4 (str "events.txt")) as [Hbad _].
  - vm_compute. discriminate.
  - destruct Hbad as (err & Hp & -> & Hm).
    + vm_compute. discriminate.
    + exists (MalformedEntry (length (split pipe (str "abc|def|ghi")))).
      split; [exact Hp | reflexivity].
Defined.

(** C4, as stated, fails on the blank line: it has one field, and
    [parseLine] returns [null] for it instead of throwing. *)
Lemma blank_line_is_not_malformed_entry :
  let P := Sample.platform Sample.noFiles Sample.noFaults in
  length (split pipe (str "   ")) <> 6%nat
  /\ ~ exists err,
         FileIngestionService.parseLine (str "   ") 1 (str "events.txt")
           = Rejected err.
Proof.
  intros P. split.
  - vm_compute. discriminate.
  - intros [err Herr]. vm_compute in Herr. discriminate.
Qed.

(** ** Job status and ingestion start *)

Section ServiceProperties.
Context `{Platform}.
Import FileIngestionService.

(** C9, as amended: provided the ledger answers the query,
    [getJobStatus] fails with the not-found error exactly when the ledger
    has no job of that id; for a job of any status it returns the
    ledger's current status, processed, error and total line counters and
    error list, and leaves the ledger as it is; the start and end times
    are part of the answer only when the status is COMPLETED. *)
Theorem job_status_snapshot jobId w :
  queryError (issued w) = None ->
  ((getJobStatus jobId w).1 = Thrown (str "Job not found")
     <-> ledger w !! jobId = None)
  /\ (forall job, ledger w !! jobId = Some job ->
        (getJobStatus jobId w).1 =
          Returned {| r_jobId := job_id job;
                      r_status := status job;
                      r_processedLines := processed_lines job;
                      r_errorLines := error_lines job;
                      r_totalLines := total_lines job;
                      r_errors := errors job;
                      r_times :=
                        if bool_decide (status job = COMPLETED)
                        then Some (start_time job, end_time job)
                        else None |})
  /\ ledger (getJobStatus jobId w).2 = ledger w.
Proof.
  intros Hq.
  unfold getJobStatus, IngestionJob.findById, bind, query, ret, throw.
  rewrite Hq. simpl.
  destruct (ledger w !! jobId) as [job|] eqn:Hjob; simpl.
  - repeat split; try discriminate.
    intros job' [= <-]. reflexivity.
  - repeat split; discriminate || reflexivity.
Qed.

(** The identifier [generateJobId] produces in world [w]. *)
Definition nextJobId (w : World) : jsstring :=
  str "ingest-job-" ++ decimalZ (clock w) ++ str "-"
  ++ take 8 (uuidv4 (draws w)).

(** C7, as amended: [startIngestion] fails at once with the
    ingestion-start error, creating no ledger entry, when the path is not
    visible to the process; whenever it fails the ledger is as before.
    When the path exists, be it a readable file or not, and the ledger
    accepts the insert of the generated identifier, it creates the entry
    in PROCESSING state with all counters at zero, returns the
    identifier, and hands the processing to a task that has not touched
    the ledger or the event table by then. *)
Theorem start_ingestion filePath w :
  (fs filePath = None ->
     exists msg,
       (startIngestion filePath w).1
         = Thrown (str "Failed to start ingestion: " ++ msg))
  /\ (forall msg, (startIngestion filePath w).1 = Thrown msg ->
        ledger (startIngestion filePath w).2 = ledger w)
  /\ (is_Some (fs filePath) ->
      queryError (issued w) = None ->
      ledger w !! nextJobId w = None ->
      exists started w',
        startIngestion filePath w
          = (Returned (started, (nextJobId w, filePath)), w')
        /\ s_jobId started = nextJobId w
        /\ ledger w' =
             <[nextJobId w :=
                 {| job_id := nextJobId w; status := PROCESSING;
                    file_path := filePath; total_lines := 0;
                    processed_lines := 0; error_lines := 0; errors := [];
                    start_time := clock w; end_time := None |}]> (ledger w)
        /\ events w' = events w
        /\ commits w' = commits w).
Proof.
  unfold startIngestion, generateJobId, access, IngestionJob.create,
    try_catch, bind, query, now, ret, throw, nextJobId.
  simpl. repeat split.
  - intros ->. simpl. eexists. reflexivity.
  - destruct (fs filePath); simpl; [|reflexivity].
    destruct (queryError (issued w)); simpl; [reflexivity|].
    destruct (ledger w !! _); simpl; [reflexivity|discriminate].
  - intros [node ->] Hq Hfresh. simpl. rewrite Hq. simpl.
    rewrite Hfresh. do 2 eexists.
    repeat split; reflexivity.
Qed.
End ServiceProperties.

(** [getJobStatus] on a completed job of the sample ledger. *)
Lemma job_status_snapshot_witness :
  let P := Sample.platform Sample.noFiles Sample.noFaults in
  let job := {| job_id := str "job-1"; status := COMPLETED;
                file_path := str "events.txt"; total_lines := 3;
                processed_lines := 2; error_lines := 1;
                errors := [str "Line 2: Invalid UUID format: 'x'"];
                start_time := 1000; end_time := Some 2000 |} in
  let w := Sample.world [] {[ str "job-1" := job ]} 3000 in
  ((FileIngestionService.getJobStatus (str "job-2") w).1
     = Thrown (str "Job not found"))
  /\ r_times (match (FileIngestionService.getJobStatus (str "job-1") w).1 with
              | Returned r => r
              | Thrown _ =>
                  {| r_jobId := []; r_status := FAILED; r_processedLines := 0;
                     r_errorLines := 0; r_totalLines := 0; r_errors := [];
                     r_times := None |}
              end) = Some (1000, Some 2000).
Proof.
  intros P job w.
  destruct (job_status_snapshot (H := P) (str "job-2") w eq_refl)
    as (Hnone & _ & _).
  destruct (job_status_snapshot (H := P) (str "job-1") w eq_refl)
    as (_ & Hsome & _).
  split.
  - apply Hnone. reflexivity.
  - rewrite (Hsome job eq_refl). reflexivity.
Defined.

(** C9, as stated, fails on a job that is not COMPLETED: the ledger has the
    start and end times of this FAILED job, the answer has neither. *)
Lemma failed_job_status_lacks_times :
  let P := Sample.platform Sample.noFiles Sample.noFaults in
  let job := {| job_id := str "job-1"; status := FAILED;
                file_path := str "events.txt"; total_lines := 3;
                processed_lines := 0; error_lines := 0;
                errors := [str "Processing failed: EACCES"];
                start_time := 1000; end_time := Some 2000 |} in
  let w := Sample.world [] {[ str "job-1" := job ]} 3000 in
  ledger w !! str "job-1" = Some job
  /\ end_time job = Some 2000
  /\ exists r,
       (FileIngestionService.getJobStatus (str "job-1") w).1 = Returned r
       /\ r_status r = FAILED
       /\ r_times r = None.
Proof.
  intros P job w. repeat split.
  eexists. repeat split; reflexivity.
Qed.

(** [startIngestion] on a missing path and on a readable file. *)
Lemma start_ingestion_witness :
  let file := RegularFile true [str "one"; str "two"] in
  let P := Sample.platform (Sample.oneFile (str "events.txt") file)
             Sample.noFaults in
  let w := Sample.world [] ∅ 1700000000000 in
  (exists msg,
     (FileIngestionService.startIngestion (str "missing.txt") w).1
       = Thrown (str "Failed to start ingestion: " ++ msg))
  /\ exists started w',
       FileIngestionService.startIngestion (str "events.txt") w
         = (Returned (started,
                      (str "ingest-job-1700000000000-00000000",
                       str "events.txt")), w')
       /\ status <$> ledger w' !! str "ingest-job-1700000000000-00000000"
          = Some PROCESSING.
Proof.
  intros file P w.
  destruct (start_ingestion (H := P) (str "missing.txt") w) as (Hmiss & _ & _).
  destruct (start_ingestion (H := P) (str "events.txt") w) as (_ & _ & Hok).
  split.
  - apply Hmiss. reflexivity.
  - destruct Hok as (started & w' & Hrun & _ & Hl & _).
    + eexists. reflexivity.
    + reflexivity.
    + reflexivity.
    + exists started, w'. split; [exact Hrun|].
      rewrite Hl. reflexivity.
Defined.

(** C7, as stated, fails on a path that exists and is not a readable file,
    here a directory: the ingestion starts, and the job is created. *)
Lemma start_ingestion_on_directory :
  let P := Sample.platform (Sample.oneFile (str "uploads") Directory)
             Sample.noFaults in
  let w := Sample.world [] ∅ 1700000000000 in
  fs (str "uploads") = Some Directory
  /\ (exists msg, (FileIngestionService.readLines (str "uploads") w).1
                  = Thrown msg)
  /\ exists started task w',
       FileIngestionService.startIngestion (str "uploads") w
         = (Returned (started, task), w')
       /\ status <$> ledger w' !! s_jobId started = Some PROCESSING.
Proof.
  intros P w. split; [reflexivity|]. split.
  - eexists. reflexivity.
  - do 3 eexists. split; reflexivity.
Qed.

(** ** Ingestion controller *)

Section TripleRules.
Context `{Platform}.

Lemma triple_ret {A} (a : A) (P : World -> Prop) Q E :
  (forall w, P w -> Q a w) -> triple P (ret a) Q E.
Proof. intros HQ w Hw. simpl. auto. Qed.

Lemma triple_throw {A} msg (P : World -> Prop) (Q : A -> World -> Prop) E :
  (forall w, P w -> E w) -> triple P (throw msg) Q E.
Proof. intros HE w Hw. simpl. auto. Qed.

Lemma triple_bind {A B} (m : M A) (k : A -> M B) P Q R E :
  triple P m Q E -> (forall a, triple (Q a) (k a) R E) ->
  triple P (bind m k) R E.
Proof.
  intros Hm Hk w Hw. unfold bind. specialize (Hm w Hw).
  destruct (m w) as [[a|msg] w']; [apply Hk, Hm | exact Hm].
Qed.

Lemma triple_try_catch {A} (m : M A) h P Q E E' :
  triple P m Q E -> (forall msg, triple E (h msg) Q E') ->
  triple P (try_catch m h) Q E'.
Proof.
  intros Hm Hh w Hw. unfold try_catch. specialize (Hm w Hw).
  destruct (m w) as [[a|msg] w']; [exact Hm | apply Hh, Hm].
Qed.

Lemma triple_weaken {A} (m : M A) (P P' : World -> Prop) (Q Q' : A -> World -> Prop)
  (E E' : World -> Prop) :
  triple P m Q E -> (forall w, P' w -> P w) ->
  (forall a w, Q a w -> Q' a w) -> (forall w, E w -> E' w) ->
  triple P' m Q' E'.
Proof.
  intros Hm HP HQ HE w Hw. specialize (Hm w (HP w Hw)).
  destruct (m w) as [[a|msg] w']; auto.
Qed.


Lemma triple_query_update jobId I f :
  LoopInvariant jobId I -> benign f ->
  triple I (query (IngestionJob.updateRow jobId f)) (fun _ => I) I.
Proof.
  intros HI Hf w Hw. unfold query.
  destruct (queryError (issued w)).
  - eapply inv_view; [exact HI | | exact Hw]. reflexivity.
  - simpl. eapply inv_update; [exact HI | exact Hf | | | exact Hw]; reflexivity.
Qed.

Lemma triple_addError jobId I msg :
  LoopInvariant jobId I ->
  triple I (IngestionJob.addError jobId msg) (fun _ => I) I.
Proof.
  intros HI. apply triple_query_update; [exact HI|].
  intros j. split; reflexivity.
Qed.

Lemma triple_progress jobId I p e :
  LoopInvariant jobId I ->
  triple I (IngestionJob.updateProgress jobId (progress p e)) (fun _ => I) I.
Proof.
  intros HI. unfold IngestionJob.updateProgress. simpl.
  apply triple_query_update; [exact HI|].
  intros j. split; reflexivity.
Qed.

Lemma triple_commitBatch jobId I batch :
  LoopInvariant jobId I ->
  triple I (commitBatch batch) (fun _ => I) I.
Proof.
  intros HI w Hw. unfold commitBatch.
  destruct (bulkCreate (events w) batch);
    (eapply inv_view; [exact HI | | exact Hw]); reflexivity.
Qed.
End TripleRules.

Section LoopProperties.
Context `{Platform}.

Lemma parseLine_skipped_iff line lineNumber filePath :
  parseLine line lineNumber filePath = Skipped <-> trim line = [].
Proof.
  unfold parseLine. destruct (trim line) eqn:Ht; simpl.
  - split; reflexivity.
  - split; [|discriminate].
    repeat case_match; discriminate.
Qed.

Lemma nonBlank_cons line lines :
  nonBlank (line :: lines)
  = (if bool_decide (trim line = []) then 0 else 1) + nonBlank lines.
Proof.
  unfold nonBlank. rewrite filter_cons.
  case_bool_decide as Hb; destruct (decide (trim line <> [])) as [Hd|Hd];
    try contradiction; simpl; lia.
Qed.

Lemma nonBlank_nonneg lines : 0 <= nonBlank lines.
Proof. unfold nonBlank. lia. Qed.

Lemma nonBlank_le_length lines : nonBlank lines <= Z.of_nat (length lines).
Proof. unfold nonBlank. pose proof (length_filter (fun l => trim l <> []) lines). lia. Qed.



Section WithInvariant.
Variables (jobId filePath : jsstring) (I : World -> Prop).
Hypothesis HI : LoopInvariant jobId I.

Lemma triple_tryParse line v :
  triple I (tryParse jobId filePath line v)
    (fun v1 w => I w /\ forall n, counted v n -> counted v1 (n + nonBlank [line]))
    I.
Proof.
  unfold tryParse. rewrite nonBlank_cons.
  destruct (parseLine line (lineNumber v + 1) filePath) as [|e|err] eqn:Hp.
  - apply triple_ret. intros w Hw. split; [exact Hw|].
    apply parseLine_skipped_iff in Hp. rewrite bool_decide_eq_true_2 by exact Hp.
    unfold counted, nonBlank. simpl. intros n. lia.
  - apply triple_ret. intros w Hw. split; [exact Hw|].
    rewrite bool_decide_eq_false_2.
    + unfold counted, nonBlank. simpl. rewrite length_app. simpl. intros n. lia.
    + intros Hb. apply parseLine_skipped_iff with (lineNumber := lineNumber v + 1)
        (filePath := filePath) in Hb. congruence.
  - eapply triple_bind; [apply triple_addError, HI|].
    intros ?. apply triple_ret. intros w Hw. split; [exact Hw|].
    rewrite bool_decide_eq_false_2.
    + unfold counted, nonBlank. simpl. intros n. lia.
    + intros Hb. apply parseLine_skipped_iff with (lineNumber := lineNumber v + 1)
        (filePath := filePath) in Hb. congruence.
Qed.

Lemma triple_processBatch v :
  triple I (processBatch v)
    (fun v2 w => I w /\ forall n, counted v n -> counted v2 n) I.
Proof.
  unfold processBatch. case_bool_decide.
  - eapply triple_bind; [apply (triple_commitBatch jobId), HI|].
    intros [|]; apply triple_ret; intros w Hw; (split; [exact Hw|]);
      unfold counted; simpl; intros n; lia.
  - apply triple_ret. auto.
Qed.

Lemma triple_reportProgress v :
  triple I (reportProgress jobId v) (fun v' w => I w /\ v' = v) I.
Proof.
  unfold reportProgress. destruct (_ =? _).
  - eapply triple_bind; [apply triple_progress, HI|].
    intros ?. apply triple_ret. auto.
  - apply triple_ret. auto.
Qed.

Lemma triple_forLine line v :
  triple I (forLine jobId filePath line v)
    (fun v' w => I w /\ forall n, counted v n -> counted v' (n + nonBlank [line]))
    I.
Proof.
  unfold forLine.
  eapply triple_bind; [apply triple_tryParse|]. intros v1. simpl.
  intros w [Hw H1]. revert w Hw.
  change (triple I (let! v2 := processBatch v1 in reportProgress jobId v2)
            (fun v' w => I w /\ forall n, counted v n -> counted v' (n + nonBlank [line])) I).
  eapply triple_bind; [apply triple_processBatch|]. intros v2.
  intros w [Hw H2]. revert w Hw.
  change (triple I (reportProgress jobId v2)
            (fun v' w => I w /\ forall n, counted v n -> counted v' (n + nonBlank [line])) I).
  eapply triple_weaken; [apply triple_reportProgress | auto | | auto].
  intros v' w [Hw ->]. split; [exact Hw|]. auto.
Qed.

Lemma triple_forEachLine lines : forall v,
  triple I (forEachLine jobId filePath lines v)
    (fun v' w => I w /\ forall n, counted v n -> counted v' (n + nonBlank lines))
    I.
Proof.
  induction lines as [|line rest IH]; intros v.
  - apply triple_ret. intros w Hw. split; [exact Hw|].
    intros n. unfold nonBlank. simpl. rewrite Z.add_0_r. auto.
  - simpl. eapply triple_bind; [apply triple_forLine|].
    intros v1 w [Hw H1]. specialize (IH v1 w Hw).
    destruct (forEachLine jobId filePath rest v1 w) as [[v'|msg] w']; [|exact IH].
    destruct IH as [Hw' H2]. split; [exact Hw'|].
    intros n Hn. rewrite nonBlank_cons.
    specialize (H2 _ (H1 _ Hn)).
    rewrite nonBlank_cons in H2.
    replace (nonBlank []) with 0 in H2 by reflexivity.
    replace (n + ((if bool_decide (trim line = []) then 0 else 1) + nonBlank rest))
      with (n + ((if bool_decide (trim line = []) then 0 else 1) + 0) + nonBlank rest)
      by lia.
    exact H2.
Qed.

Lemma triple_lastBatch v :
  triple I (lastBatch v)
    (fun v' w => I w /\ forall n, counted v n -> settled v' n) I.
Proof.
  unfold lastBatch. case_bool_decide.
  - eapply triple_bind; [apply (triple_commitBatch jobId), HI|].
    intros [|]; apply triple_ret; intros w Hw; (split; [exact Hw|]);
      unfold counted, settled; simpl; intros n; lia.
  - apply triple_ret. intros w Hw. split; [exact Hw|].
    unfold counted, settled. intros n. lia.
Qed.
End WithInvariant.
End LoopProperties.

(** ** Accounting of lines *)

Section Accounting.
Context `{Platform}.
Variables (jobId filePath : jsstring) (lines : list jsstring).
Hypothesis Hfile : fs filePath = Some (RegularFile true lines).

Local Abbreviation processing := (processing jobId).
Local Abbreviation processingOf := (processingOf jobId).
Local Abbreviation accounted := (accounted jobId lines).


Lemma processingOf_invariant t : LoopInvariant jobId (processingOf t).
Proof.
  split.
  - intros w w' [= Hl _] (j & Hj & Hs & Ht). exists j. rewrite <- Hl. auto.
  - intros w w' f Hf Hl _ (j & Hj & Hs & Ht). exists (f j).
    rewrite Hl, lookup_alter_eq, Hj. destruct (Hf j) as [-> ->]. auto.
Qed.

Lemma triple_readLines (P : World -> Prop) :
  triple P (readLines filePath) (fun ls w => P w /\ ls = lines) P.
Proof. unfold readLines. rewrite Hfile. apply triple_ret. auto. Qed.

Lemma triple_countLines (P : World -> Prop) :
  triple P (countLines filePath)
    (fun n w => P w /\ n = Z.of_nat (length lines)) P.
Proof.
  unfold countLines. eapply triple_bind; [apply triple_readLines|].
  intros ls. apply triple_ret. intros w [Hw ->]. auto.
Qed.

Lemma triple_setTotal t :
  triple processing
    (IngestionJob.updateProgress jobId
       {| u_status := None; u_total_lines := Some t;
          u_processed_lines := None; u_error_lines := None;
          u_errors := None; u_end_time := None |})
    (fun _ => processingOf t) processing.
Proof.
  intros w (j & Hj & Hs). unfold IngestionJob.updateProgress, query. simpl.
  destruct (queryError (issued w)); simpl.
  - exists j. auto.
  - eexists. cbn [ledger]. rewrite lookup_alter_eq, Hj. simpl.
    split; [reflexivity|]. auto.
Qed.

Lemma triple_complete v t :
  settled v (nonBlank lines) ->
  triple (processingOf (Z.of_nat (length lines)))
    (IngestionJob.updateProgress jobId
       {| u_status := Some COMPLETED; u_total_lines := None;
          u_processed_lines := Some (processedLines v);
          u_error_lines := Some (errorLines v);
          u_errors := None; u_end_time := Some t |})
    (fun _ => accounted) (processingOf (Z.of_nat (length lines))).
Proof.
  intros (Hsum & Hp & He) w (j & Hj & Hs & Ht).
  unfold IngestionJob.updateProgress, query. simpl.
  destruct (queryError (issued w)); simpl.
  - exists j. auto.
  - eexists. cbn [ledger]. rewrite lookup_alter_eq, Hj. simpl.
    split; [reflexivity|]. simpl. auto.
Qed.

Lemma counted_start :
  counted {| lineNumber := 0; processedLines := 0; errorLines := 0;
             eventBatch := [] |} 0.
Proof. unfold counted. simpl. lia. Qed.

Lemma triple_processFileBody :
  triple processing (processFileBody jobId filePath)
    (fun _ => accounted) processing.
Proof.
  unfold processFileBody.
  eapply triple_bind; [apply triple_countLines|]. intros n w [Hw ->]. revert w Hw.
  refine (triple_bind _ _ _ _ _ _ (triple_setTotal _) _). intros _.
  pose (I := processingOf (Z.of_nat (length lines))).
  assert (HIE : forall w, I w -> processing w).
  { intros w (j & Hj & Hs & _). exists j. auto. }
  eapply triple_weaken with (P := I) (Q := fun _ => accounted) (E := I);
    [|auto|auto|exact HIE].
  eapply triple_bind; [apply triple_readLines|]. intros ls w [Hw ->]. revert w Hw.
  refine (triple_bind _ _ _ _ _ _
            (triple_forEachLine jobId filePath I (processingOf_invariant _) lines _) _).
  intros v w [Hw Hv]. revert w Hw.
  refine (triple_bind _ _ _ _ _ _
            (triple_lastBatch jobId I (processingOf_invariant _) v) _).
  intros v' w [Hw Hv']. revert w Hw.
  assert (Hset : settled v' (nonBlank lines)).
  { apply Hv'. specialize (Hv _ counted_start). exact Hv. }
  refine (triple_bind _ _ _ (fun _ => I) _ _ _ _).
  { intros w Hw. exact Hw. }
  intros t.
  eapply triple_bind.
  - apply (triple_complete v' t Hset).
  - intros ?. apply triple_ret. auto.
Qed.

(** C3: when the job of a file has completed, its processed and error
    counters add up to the number of non-blank lines of the file, which
    is at most [total_lines], the number of all its lines; blank lines
    count towards [total_lines] only. *)
Theorem line_accounting_at_completion w job' :
  processing w ->
  ledger (processFile jobId filePath w).2 !! jobId = Some job' ->
  status job' = COMPLETED ->
  total_lines job' = Z.of_nat (length lines)
  /\ processed_lines job' + error_lines job' = nonBlank lines
  /\ processed_lines job' + error_lines job' <= total_lines job'
  /\ 0 <= processed_lines job' /\ 0 <= error_lines job'.
Proof.
  intros Hw. unfold processFile, try_catch.
  pose proof (triple_processFileBody w Hw) as Hbody.
  destruct (processFileBody jobId filePath w) as [[[]|msg] w1].
  - cbn [snd]. destruct Hbody as (j & Hj & Hs & Ht & Hsum & Hp & He).
    intros Hl _. rewrite Hj in Hl. injection Hl as <-.
    pose proof (nonBlank_le_length lines). repeat split; lia.
  - destruct Hbody as (j & Hj & Hs).
    unfold IngestionJob.fail, bind, now, query, ret.
    destruct (queryError (issued w1)); cbn [snd ledger].
    + intros Hl Hc. rewrite Hj in Hl. injection Hl as <-. congruence.
    + simpl. rewrite lookup_alter_eq, Hj. simpl.
      intros [= <-]. discriminate.
Qed.
End Accounting.

(** ** Batch commits *)

Section BatchCommit.
Context `{Platform}.
Variables (jobId filePath : jsstring).


Lemma processBatch_failure v w :
  (batchSize <= length (eventBatch v))%nat ->
  bulkCreate (events w) (eventBatch v) = None ->
  processBatch v w =
    (Returned {| lineNumber := lineNumber v;
                 processedLines :=
                   processedLines v - Z.of_nat (length (eventBatch v));
                 errorLines := errorLines v + Z.of_nat (length (eventBatch v));
                 eventBatch := [] |},
     afterCommit (eventBatch v) (events w) w).
Proof.
  intros Hfull Hfail. unfold processBatch, commitBatch, bind.
  rewrite bool_decide_eq_true_2 by exact Hfull. rewrite Hfail. reflexivity.
Qed.

Lemma processBatch_success v w s :
  (batchSize <= length (eventBatch v))%nat ->
  bulkCreate (events w) (eventBatch v) = Some s ->
  processBatch v w =
    (Returned {| lineNumber := lineNumber v;
                 processedLines := processedLines v;
                 errorLines := errorLines v;
                 eventBatch := [] |},
     afterCommit (eventBatch v) s w).
Proof.
  intros Hfull Hok. unfold processBatch, commitBatch, bind.
  rewrite bool_decide_eq_true_2 by exact Hfull. rewrite Hok. reflexivity.
Qed.

Lemma lastBatch_failure v w :
  (0 < length (eventBatch v))%nat ->
  bulkCreate (events w) (eventBatch v) = None ->
  lastBatch v w =
    (Returned {| lineNumber := lineNumber v;
                 processedLines :=
                   processedLines v - Z.of_nat (length (eventBatch v));
                 errorLines := errorLines v + Z.of_nat (length (eventBatch v));
                 eventBatch := eventBatch v |},
     afterCommit (eventBatch v) (events w) w).
Proof.
  intros Hsome Hfail. unfold lastBatch, commitBatch, bind.
  rewrite bool_decide_eq_true_2 by exact Hsome. rewrite Hfail. reflexivity.
Qed.

(** A valid line, away from a batch boundary and from a progress report,
    only grows the batch. *)
Lemma forLine_valid_quiet line v w :
  valid filePath line ->
  (length (eventBatch v) + 1 < batchSize)%nat ->
  (lineNumber v + 1) mod 100 <> 0 ->
  forLine jobId filePath line v w =
    (Returned {| lineNumber := lineNumber v + 1;
                 processedLines := processedLines v + 1;
                 errorLines := errorLines v;
                 eventBatch :=
                   eventBatch v ++ drafts filePath (lineNumber v) [line] |},
     w).
Proof.
  intros Hvalid Hroom Hmod. destruct (Hvalid (lineNumber v + 1)) as [e He].
  unfold forLine, tryParse, bind. simpl. rewrite He. simpl.
  unfold processBatch. simpl.
  rewrite bool_decide_eq_false_2 by (rewrite length_app; simpl; lia).
  simpl. unfold reportProgress. simpl.
  apply Z.eqb_neq in Hmod. rewrite Hmod. reflexivity.
Qed.

Lemma drafts_app from l1 l2 :
  drafts filePath from (l1 ++ l2)
  = drafts filePath from l1
    ++ drafts filePath (from + Z.of_nat (length l1)) l2.
Proof.
  revert from. induction l1 as [|x l1 IH]; intros from; simpl.
  - rewrite Z.add_0_r. reflexivity.
  - rewrite IH. replace (from + 1 + Z.of_nat (length l1))
      with (from + Z.pos (Pos.of_succ_nat (length l1))) by lia.
    destruct (parseLine x (from + 1) filePath); reflexivity.
Qed.

Lemma drafts_valid_length from lines :
  Forall (valid filePath) lines ->
  length (drafts filePath from lines) = length lines.
Proof.
  intros Hall. revert from. induction Hall as [|x l Hx _ IH]; intros from; simpl.
  - reflexivity.
  - destruct (Hx (from + 1)) as [e ->]. simpl. rewrite IH. reflexivity.
Qed.

Lemma forEachLine_valid_quiet lines : forall v w,
  Forall (valid filePath) lines ->
  (length (eventBatch v) + length lines < batchSize)%nat ->
  0 <= lineNumber v ->
  lineNumber v mod 100 + Z.of_nat (length lines) < 100 ->
  forEachLine jobId filePath lines v w =
    (Returned {| lineNumber := lineNumber v + Z.of_nat (length lines);
                 processedLines := processedLines v + Z.of_nat (length lines);
                 errorLines := errorLines v;
                 eventBatch :=
                   eventBatch v ++ drafts filePath (lineNumber v) lines |},
     w).
Proof.
  induction lines as [|line rest IH]; intros v w Hall Hroom Hpos Hmod.
  - simpl. unfold ret. rewrite !Z.add_0_r, app_nil_r. destruct v; reflexivity.
  - inversion Hall as [|? ? Hline Hrest]; subst. simpl in Hroom, Hmod.
    pose proof (Z.mod_pos_bound (lineNumber v) 100 ltac:(lia)) as Hb.
    assert (Hnext : (lineNumber v + 1) mod 100 = lineNumber v mod 100 + 1).
    { rewrite Z.add_mod by lia. rewrite (Z.mod_small 1 100) by lia.
      apply Z.mod_small. lia. }
    assert (Hone : length (drafts filePath (lineNumber v) [line]) = 1%nat).
    { apply (drafts_valid_length _ [line]). constructor; [exact Hline|constructor]. }
    cbn [forEachLine]. unfold bind.
    rewrite forLine_valid_quiet; [|exact Hline|lia|lia].
    rewrite IH; cbn [lineNumber processedLines errorLines eventBatch];
      [|exact Hrest|rewrite length_app, Hone; lia|lia|lia].
    change (line :: rest) with ([line] ++ rest) at 3.
    rewrite drafts_app, <- app_assoc. cbn [length].
    change (Z.of_nat 1) with 1.
    replace (Z.of_nat (S (length rest))) with (1 + Z.of_nat (length rest)) by lia.
    rewrite !Z.add_assoc. reflexivity.
Qed.

Lemma forEachLine_app l1 l2 v w :
  forEachLine jobId filePath (l1 ++ l2) v w
  = bind (forEachLine jobId filePath l1 v) (forEachLine jobId filePath l2) w.
Proof.
  revert v w. induction l1 as [|x l1 IH]; intros v w; simpl.
  - reflexivity.
  - unfold bind in *.
    destruct (forLine jobId filePath x v w) as [[v1|msg] w1]; [|reflexivity].
    rewrite IH. reflexivity.
Qed.
End BatchCommit.

Section Scenario.
Context `{Platform}.
Variables (jobId filePath : jsstring).

Lemma updateProgress_accepted u w :
  present (u_status u) || present (u_total_lines u)
  || present (u_processed_lines u) || present (u_error_lines u)
  || present (u_errors u) || present (u_end_time u) = true ->
  queryError (issued w) = None ->
  IngestionJob.updateProgress jobId u w =
    (Returned (IngestionJob.applyUpdates u <$> ledger w !! jobId),
     afterQuery (alter (IngestionJob.applyUpdates u) jobId (ledger w)) w).
Proof.
  intros Hu Hq. unfold IngestionJob.updateProgress. rewrite Hu.
  unfold query. rewrite Hq. reflexivity.
Qed.

(** The run of [processFile] on 150 valid lines when the first commit
    succeeds and the second fails. *)
Lemma run_150_lines lines w job s1 :
  fs filePath = Some (RegularFile true lines) ->
  length lines = 150%nat ->
  Forall (valid filePath) lines ->
  (forall n, queryError n = None) ->
  ledger w !! jobId = Some job ->
  bulkCreate (events w) (drafts filePath 0 (take 100 lines)) = Some s1 ->
  bulkCreate s1 (drafts filePath 100 (drop 100 lines)) = None ->
  exists w',
    processFile jobId filePath w = (Returned tt, w')
    /\ commits w' = drafts filePath 100 (drop 100 lines)
                    :: drafts filePath 0 (take 100 lines) :: commits w
    /\ events w' = s1
    /\ exists job',
         ledger w' !! jobId = Some job'
         /\ status job' = COMPLETED
         /\ total_lines job' = 150
         /\ processed_lines job' = 100
         /\ error_lines job' = 50.
Proof.
  intros Hfile Hlen Hvalid Hq Hjob Hfirst Hsecond.
  destruct (lookup_lt_is_Some_2 lines 99 ltac:(lia)) as [x Hx].
  pose proof (take_drop_middle lines 99 x Hx) as Hsplit.
  pose proof (take_S_r lines 99 x Hx) as Htake.
  assert (Hla : Forall (valid filePath) (take 99 lines)) by (apply Forall_take, Hvalid).
  assert (Hlb : Forall (valid filePath) (drop 100 lines)) by (apply Forall_drop, Hvalid).
  assert (Hvx : valid filePath x).
  { rewrite Forall_forall in Hvalid. apply Hvalid.
    eapply list_elem_of_lookup_2, Hx. }
  assert (Hna : length (take 99 lines) = 99%nat) by (rewrite length_take; lia).
  assert (Hnb : length (drop 100 lines) = 50%nat) by (rewrite length_drop; lia).
  destruct (Hvx 100) as [e He].
  assert (Hbatch1 : drafts filePath 0 (take 100 lines)
                    = drafts filePath 0 (take 99 lines) ++ [e]).
  { rewrite Htake, drafts_app, Hna. simpl.
    change (0 + Z.of_nat 99 + 1) with 100. rewrite He. reflexivity. }
  set (u1 := {| u_status := None; u_total_lines := Some (Z.of_nat (length lines));
                u_processed_lines := None; u_error_lines := None;
                u_errors := None; u_end_time := None |}).
  set (w1 := afterQuery (alter (IngestionJob.applyUpdates u1) jobId (ledger w)) w).
  set (batch1 := drafts filePath 0 (take 100 lines)) in *.
  set (batch2 := drafts filePath 100 (drop 100 lines)) in *.
  set (w2 := afterQuery
               (alter (IngestionJob.applyUpdates (progress 100 0)) jobId (ledger w1))
               (afterCommit batch1 s1 w1)).
  assert (Hloop :
    forEachLine jobId filePath lines
      {| lineNumber := 0; processedLines := 0; errorLines := 0; eventBatch := [] |} w1
    = (Returned {| lineNumber := 150; processedLines := 150; errorLines := 0;
                   eventBatch := batch2 |}, w2)).
  { rewrite <- Hsplit, forEachLine_app. unfold bind at 1.
    rewrite forEachLine_valid_quiet;
      [|exact Hla|cbn [eventBatch length]; rewrite Hna; unfold batchSize; lia
       |cbn [lineNumber]; lia
       |cbn [lineNumber]; rewrite Hna; change (0 mod 100) with 0; lia].
    cbn [forEachLine lineNumber processedLines errorLines eventBatch app].
    rewrite Hna. change (0 + Z.of_nat 99) with 99.
    unfold bind at 1. unfold forLine at 1. unfold bind at 1.
    unfold tryParse at 1. cbn [lineNumber processedLines errorLines eventBatch].
    change (99 + 1) with 100. rewrite He.
    unfold ret at 1. unfold bind at 1.
    erewrite processBatch_success;
      [|cbn [eventBatch]; rewrite length_app, drafts_valid_length, Hna by exact Hla;
        unfold batchSize; simpl; lia
       |cbn [eventBatch]; rewrite <- Hbatch1; exact Hfirst].
    cbn [eventBatch lineNumber processedLines errorLines].
    unfold reportProgress at 1.
    cbn [lineNumber processedLines errorLines].
    change (100 mod 100 =? 0) with true. cbv iota.
    unfold bind at 1.
    rewrite updateProgress_accepted by (reflexivity || apply Hq).
    unfold ret at 1. rewrite <- Hbatch1. fold w2.
    rewrite forEachLine_valid_quiet;
      [|exact Hlb|cbn [eventBatch length]; rewrite Hnb; unfold batchSize; lia
       |cbn [lineNumber]; lia
       |cbn [lineNumber]; rewrite Hnb; change (100 mod 100) with 0; lia].
    cbn [lineNumber processedLines errorLines eventBatch app].
    rewrite Hnb. reflexivity. }
  assert (Hlen2 : length batch2 = 50%nat).
  { unfold batch2. rewrite drafts_valid_length by exact Hlb. exact Hnb. }
  unfold processFile, try_catch, processFileBody, bind.
  unfold countLines, bind, readLines. rewrite Hfile. unfold ret at 1 2.
  rewrite updateProgress_accepted by (reflexivity || apply Hq).
  fold u1. fold w1. unfold ret at 1. rewrite Hloop.
  erewrite lastBatch_failure;
    [|cbn [eventBatch]; lia|cbn [eventBatch]; exact Hsecond].
  cbn [eventBatch lineNumber processedLines errorLines].
  unfold now at 1.
  rewrite updateProgress_accepted by (reflexivity || apply Hq).
  unfold ret.
  eexists. split; [reflexivity|].
  cbn [commits events ledger afterQuery afterCommit w2 w1].
  repeat split.
  eexists. unfold w2, w1. cbn [ledger afterQuery afterCommit].
  rewrite !lookup_alter_eq, Hjob. cbn [fmap option_fmap option_map].
  split; [reflexivity|]. simpl. rewrite Hlen2, Hlen.
  repeat split; reflexivity.
Qed.
End Scenario.

(** ** The job state machine *)

Section StateMachine.
Context `{Platform}.
Variable k : jsstring.

Local Abbreviation observed := (observed k).
Local Abbreviation tracked := (tracked k).


Lemma legal_refl a : legal a a.
Proof. destruct a; simpl; auto. Qed.

Lemma observed_view w w' : ledgerView w = ledgerView w' -> observed w -> observed w'.
Proof. intros [= Hl Hj] [Hc Hlaw]. unfold observed. rewrite <- Hl, <- Hj. auto. Qed.

Lemma observed_push w w' :
  observed w -> journal w' = ledger w' :: journal w ->
  legal (ledger w !! k) (ledger w' !! k) -> observed w'.
Proof.
  intros [Hc Hlaw] Hj Hlegal. unfold observed. rewrite Hj. split; [reflexivity|].
  destruct (journal w) as [|l0 rest]; [exact I|].
  simpl in Hc. injection Hc as ->. simpl. auto.
Qed.

(** Any update of a job in PROCESSING state is a legal step of every row. *)
Lemma tracked_update jobId f w w' :
  tracked jobId w ->
  ledger w' = alter f jobId (ledger w) ->
  journal w' = ledger w' :: journal w ->
  observed w'.
Proof.
  intros [Hobs (j & Hj & Hs)] Hl Hjn. apply (observed_push w); [exact Hobs|exact Hjn|].
  rewrite Hl. destruct (decide (jobId = k)) as [->|Hne].
  - rewrite lookup_alter_eq, Hj. simpl. right. split; [exact Hs|]. eauto.
  - rewrite lookup_alter_ne by exact Hne. apply legal_refl.
Qed.

Lemma tracked_update_keeps jobId f w w' :
  (forall j, status (f j) = status j) ->
  tracked jobId w ->
  ledger w' = alter f jobId (ledger w) ->
  journal w' = ledger w' :: journal w ->
  tracked jobId w'.
Proof.
  intros Hf Hw Hl Hjn. split; [eapply tracked_update; eauto|].
  destruct Hw as [_ (j & Hj & Hs)]. exists (f j).
  rewrite Hl, lookup_alter_eq, Hj, Hf. auto.
Qed.

Lemma tracked_view jobId w w' :
  ledgerView w = ledgerView w' -> tracked jobId w -> tracked jobId w'.
Proof.
  intros Hv [Hobs (j & Hj & Hs)]. split; [eapply observed_view; eauto|].
  injection Hv as Hl _. exists j. rewrite <- Hl. auto.
Qed.

Lemma tracked_invariant jobId : LoopInvariant jobId (tracked jobId).
Proof.
  split.
  - apply tracked_view.
  - intros w w' f Hf Hl Hj Hw.
    eapply (tracked_update_keeps jobId f w w');
      [intros j; apply Hf|exact Hw|exact Hl|exact Hj].
Qed.

Lemma triple_update_keeps jobId f :
  (forall j, status (f j) = status j) ->
  triple (tracked jobId) (query (IngestionJob.updateRow jobId f))
    (fun _ => tracked jobId) (tracked jobId).
Proof.
  intros Hf w Hw. unfold query. destruct (queryError (issued w)).
  - eapply tracked_view; [|exact Hw]. reflexivity.
  - simpl. eapply tracked_update_keeps; eauto.
Qed.

Lemma triple_update_terminal jobId f :
  triple (tracked jobId) (query (IngestionJob.updateRow jobId f))
    (fun _ => observed) (tracked jobId).
Proof.
  intros w Hw. unfold query. destruct (queryError (issued w)).
  - eapply tracked_view; [|exact Hw]. reflexivity.
  - simpl. eapply tracked_update; eauto.
Qed.

Lemma triple_fail jobId msg :
  triple (tracked jobId) (IngestionJob.fail jobId msg)
    (fun _ => observed) (tracked jobId).
Proof.
  unfold IngestionJob.fail. eapply triple_bind with (Q := fun _ => tracked jobId).
  - intros w Hw. exact Hw.
  - intros t. apply triple_update_terminal.
Qed.

Lemma triple_readLines_any filePath (P : World -> Prop) :
  triple P (readLines filePath) (fun _ => P) P.
Proof.
  intros w Hw. unfold readLines.
  destruct (fs filePath) as [[[|] ls|]|]; simpl; exact Hw.
Qed.

Lemma triple_processFileBody_tracked jobId filePath :
  triple (tracked jobId) (processFileBody jobId filePath)
    (fun _ => observed) (tracked jobId).
Proof.
  unfold processFileBody, countLines.
  eapply triple_bind with (Q := fun _ => tracked jobId).
  { eapply triple_bind; [apply triple_readLines_any|].
    intros ls. apply triple_ret. auto. }
  intros n. eapply triple_bind with (Q := fun _ => tracked jobId).
  { unfold IngestionJob.updateProgress. simpl.
    apply triple_update_keeps. reflexivity. }
  intros ?. eapply triple_bind; [apply triple_readLines_any|].
  intros ls. eapply triple_bind with (Q := fun _ => tracked jobId).
  { eapply triple_weaken;
      [apply (triple_forEachLine jobId filePath _ (tracked_invariant jobId))
      |auto| |auto].
    intros v w [Hw _]. exact Hw. }
  intros v. eapply triple_bind with (Q := fun _ => tracked jobId).
  { eapply triple_weaken;
      [apply (triple_lastBatch jobId _ (tracked_invariant jobId))|auto| |auto].
    intros v' w [Hw _]. exact Hw. }
  intros v'. eapply triple_bind with (Q := fun _ => tracked jobId).
  { intros w Hw. exact Hw. }
  intros t. eapply triple_bind with (Q := fun _ => observed).
  { unfold IngestionJob.updateProgress. simpl. apply triple_update_terminal. }
  intros ?. apply triple_ret. auto.
Qed.

Lemma triple_processFile_tracked jobId filePath :
  triple (tracked jobId) (processFile jobId filePath)
    (fun _ => observed) (tracked jobId).
Proof.
  unfold processFile. eapply triple_try_catch.
  - apply triple_processFileBody_tracked.
  - intros msg. eapply triple_bind; [apply triple_fail|].
    intros ?. apply triple_ret. auto.
Qed.

Lemma triple_backgroundTask jobId filePath :
  triple (tracked jobId) (backgroundTask jobId filePath)
    (fun _ => observed) observed.
Proof.
  unfold backgroundTask. eapply triple_try_catch.
  - apply triple_processFile_tracked.
  - intros msg. eapply triple_bind with (Q := fun _ => observed).
    + apply (triple_weaken _ (tracked jobId) (tracked jobId)
               (fun _ => observed) (fun _ => observed)
               (tracked jobId) observed (triple_fail jobId _)); auto.
      intros w Hw. apply Hw.
    + intros ?. apply triple_ret. auto.
Qed.

Lemma startIngestion_observed filePath w :
  observed w ->
  match startIngestion filePath w with
  | (Returned (_, (jobId, _)), w1) => tracked jobId w1
  | (Thrown _, w1) => observed w1
  end.
Proof.
  intros Hw.
  unfold startIngestion, generateJobId, access, IngestionJob.create,
    try_catch, bind, query, now, ret, throw.
  simpl. destruct (fs filePath); simpl.
  2:{ eapply observed_view; [|exact Hw]. reflexivity. }
  destruct (queryError (issued w)); simpl.
  { eapply observed_view; [|exact Hw]. reflexivity. }
  match goal with |- context [ledger w !! ?id] => set (jobId := id) end.
  destruct (ledger w !! jobId) eqn:Hfresh; simpl.
  - eapply (observed_push w); [exact Hw|reflexivity|]. apply legal_refl.
  - split.
    + eapply (observed_push w); [exact Hw|reflexivity|]. simpl.
      destruct (decide (jobId = k)) as [<-|Hne].
      * rewrite Hfresh, lookup_insert_eq. reflexivity.
      * rewrite lookup_insert_ne by exact Hne. apply legal_refl.
    + eexists. simpl. rewrite lookup_insert_eq. split; reflexivity.
Qed.

Lemma lifecycle_observed filePath w :
  observed w -> observed (lifecycle filePath w).
Proof.
  intros Hw. unfold lifecycle.
  pose proof (startIngestion_observed filePath w Hw) as Hs.
  destruct (startIngestion filePath w) as [[[started [jobId path]]|msg] w1];
    [|exact Hs].
  pose proof (triple_backgroundTask jobId path w1 Hs) as Hb.
  destruct (backgroundTask jobId path w1) as [[?|?] w2]; exact Hb.
Qed.

Lemma lawful_lookup js : forall i newer older,
  lawful k js -> js !! i = Some newer -> js !! S i = Some older ->
  legal (older !! k) (newer !! k).
Proof.
  induction js as [|l0 js IH]; intros i newer older Hlaw Hn Ho; [discriminate|].
  destruct js as [|l1 js']; [discriminate|].
  destruct Hlaw as [Hstep Hrest].
  destruct i as [|i]; simpl in Hn, Ho.
  - injection Hn as <-. injection Ho as <-. exact Hstep.
  - eapply IH; eauto.
Qed.

Lemma rowHistory_consecutive w before after :
  lawful k (journal w) ->
  consecutive (rowHistory k w) before after -> legal before after.
Proof.
  intros Hlaw (i & Hb & Ha). unfold rowHistory in *.
  rewrite list_lookup_fmap in Hb, Ha.
  destruct (reverse (journal w) !! i) as [older|] eqn:Ho; [|discriminate].
  destruct (reverse (journal w) !! S i) as [newer|] eqn:Hn; [|discriminate].
  injection Hb as <-. injection Ha as <-.
  apply reverse_lookup_Some in Ho as [Ho Hi].
  apply reverse_lookup_Some in Hn as [Hn Hi'].
  eapply lawful_lookup; [exact Hlaw|exact Hn|].
  replace (S (length (journal w) - S (S i))) with (length (journal w) - S i)%nat by lia.
  exact Ho.
Qed.
End StateMachine.

(** A file of five lines: two events, one bad identifier, two blanks. *)
Lemma line_accounting_at_completion_witness :
  let lines :=
    [ Sample.line 1;
      str "";
      str "not-a-uuid|Event|2023-01-01T10:00:00Z|2023-01-01T11:00:00Z|NULL|x";
      Sample.line 2;
      str "   " ] in
  let P := Sample.platform
             (Sample.oneFile (str "events.txt") (RegularFile true lines))
             Sample.noFaults in
  let job := {| job_id := str "job-1"; status := PROCESSING;
                file_path := str "events.txt"; total_lines := 0;
                processed_lines := 0; error_lines := 0; errors := [];
                start_time := 1000; end_time := None |} in
  let w := Sample.world [] {[ str "job-1" := job ]} 2000 in
  exists job',
    ledger (processFile (str "job-1") (str "events.txt") w).2 !! str "job-1"
      = Some job'
    /\ processed_lines job' = 2 /\ error_lines job' = 1
    /\ total_lines job' = 5
    /\ processed_lines job' + error_lines job' = nonBlank lines.
Proof.
  intros lines P job w.
  destruct (ledger (processFile (str "job-1") (str "events.txt") w).2
              !! str "job-1") as [job'|] eqn:Hjob; [|vm_compute in Hjob; discriminate].
  exists job'. split; [reflexivity|].
  assert (Hval : Some job' = Some (IngestionJob.applyUpdates
            {| u_status := Some COMPLETED; u_total_lines := Some 5;
               u_processed_lines := Some 2; u_error_lines := Some 1;
               u_errors := Some [str "Line 3: Invalid UUID format: 'not-a-uuid'"];
               u_end_time := Some 2000 |} job)).
  { rewrite <- Hjob. vm_compute. reflexivity. }
  injection Hval as ->.
  destruct (line_accounting_at_completion (H := P) (str "job-1")
              (str "events.txt") lines eq_refl w _
              ltac:(exists job; split; reflexivity) Hjob eq_refl)
    as (_ & Hsum & _).
  split; [reflexivity|]. split; [reflexivity|]. split; [reflexivity|].
  exact Hsum.
Defined.

Section BatchFailure.
Context `{Platform}.

(** Whether a line parses depends neither on its number nor on the path. *)
Lemma parses_valid filePath line :
  Sample.parses line = true -> valid filePath line.
Proof.
  unfold Sample.parses, valid, parseLine. intros Hp n.
  repeat case_match; try discriminate; eauto.
Qed.

(** C2: a failed commit, of a full batch or of the trailing one, moves the
    whole batch from the processed counter to the error counter and is
    not repeated: [bulkCreate] has been called once, the table is as
    before, and the full batch is emptied. On 150 valid lines the commits
    are one of 100 drafts and one of 50; when the first succeeds and the
    second fails the job completes with [processed_lines] 100 and
    [error_lines] 50. *)
Theorem failed_commit_counts_batch_as_errors (jobId filePath : jsstring) :
  batchSize = 100%nat
  /\ (forall v w,
        (batchSize <= length (eventBatch v))%nat ->
        bulkCreate (events w) (eventBatch v) = None ->
        processBatch v w =
          (Returned {| lineNumber := lineNumber v;
                       processedLines :=
                         processedLines v - Z.of_nat (length (eventBatch v));
                       errorLines :=
                         errorLines v + Z.of_nat (length (eventBatch v));
                       eventBatch := [] |},
           afterCommit (eventBatch v) (events w) w))
  /\ (forall v w,
        (0 < length (eventBatch v))%nat ->
        bulkCreate (events w) (eventBatch v) = None ->
        lastBatch v w =
          (Returned {| lineNumber := lineNumber v;
                       processedLines :=
                         processedLines v - Z.of_nat (length (eventBatch v));
                       errorLines :=
                         errorLines v + Z.of_nat (length (eventBatch v));
                       eventBatch := eventBatch v |},
           afterCommit (eventBatch v) (events w) w))
  /\ (forall lines w job s1,
        fs filePath = Some (RegularFile true lines) ->
        length lines = 150%nat ->
        Forall (valid filePath) lines ->
        (forall n, queryError n = None) ->
        ledger w !! jobId = Some job ->
        bulkCreate (events w) (drafts filePath 0 (take 100 lines)) = Some s1 ->
        bulkCreate s1 (drafts filePath 100 (drop 100 lines)) = None ->
        exists w',
          processFile jobId filePath w = (Returned tt, w')
          /\ commits w' = drafts filePath 100 (drop 100 lines)
                          :: drafts filePath 0 (take 100 lines) :: commits w
          /\ length (drafts filePath 0 (take 100 lines)) = 100%nat
          /\ length (drafts filePath 100 (drop 100 lines)) = 50%nat
          /\ events w' = s1
          /\ exists job',
               ledger w' !! jobId = Some job'
               /\ status job' = COMPLETED
               /\ total_lines job' = 150
               /\ processed_lines job' = 100
               /\ error_lines job' = 50).
Proof.
  split; [reflexivity|]. split; [apply processBatch_failure|].
  split; [apply lastBatch_failure|].
  intros lines w job s1 Hfile Hlen Hvalid Hq Hjob Hfirst Hsecond.
  destruct (run_150_lines jobId filePath lines w job s1
              Hfile Hlen Hvalid Hq Hjob Hfirst Hsecond)
    as (w' & Hrun & Hcommits & Hevents & Hjob').
  exists w'. split; [exact Hrun|]. split; [exact Hcommits|].
  split.
  { rewrite drafts_valid_length by (apply Forall_take, Hvalid).
    rewrite length_take. lia. }
  split.
  { rewrite drafts_valid_length by (apply Forall_drop, Hvalid).
    rewrite length_drop. lia. }
  split; [exact Hevents|exact Hjob'].
Qed.
End BatchFailure.

(** The sample file of 150 lines: the second batch holds the event whose
    parent does not exist, and the table rejects it. *)
Lemma failed_commit_counts_batch_as_errors_witness :
  let P := Sample.platform
             (Sample.oneFile (str "events.txt") (RegularFile true Sample.file150))
             Sample.noFaults in
  let job := {| job_id := str "job-1"; status := PROCESSING;
                file_path := str "events.txt"; total_lines := 0;
                processed_lines := 0; error_lines := 0; errors := [];
                start_time := 1000; end_time := None |} in
  let w := Sample.world [] {[ str "job-1" := job ]} 2000 in
  exists w',
    processFile (str "job-1") (str "events.txt") w = (Returned tt, w')
    /\ length <$> commits w' = [50; 100]%nat
    /\ exists job',
         ledger w' !! str "job-1" = Some job'
         /\ processed_lines job' = 100
         /\ error_lines job' = 50.
Proof.
  intros P job w.
  destruct (failed_commit_counts_batch_as_errors (H := P)
              (str "job-1") (str "events.txt")) as (_ & _ & _ & Hrun).
  destruct (Hrun Sample.file150 w job
              (drafts (str "events.txt") 0 (take 100 Sample.file150)))
    as (w' & Hw' & Hc & H100 & H50 & _ & job' & Hj & _ & _ & Hp & He).
  - reflexivity.
  - reflexivity.
  - apply Forall_forall. intros l Hl. apply parses_valid.
    assert (Hall : forallb Sample.parses Sample.file150 = true)
      by (vm_compute; reflexivity).
    rewrite forallb_forall in Hall. apply Hall. apply list_elem_of_In, Hl.
  - reflexivity.
  - reflexivity.
  - vm_compute. reflexivity.
  - vm_compute. reflexivity.
  - exists w'. split; [exact Hw'|]. split.
    + rewrite Hc. cbn [fmap list_fmap]. rewrite H100, H50. reflexivity.
    + exists job'. auto.
Defined.

Section JobLifecycle.
Context `{Platform}.

(** C8: through the whole life of a submission, [startIngestion] and the
    task it starts, a ledger row that exists is never removed, changes
    only while its status is PROCESSING, and so changes status only from
    PROCESSING to COMPLETED or to FAILED; a row in a terminal state stays
    exactly as it is. This holds for the row of every job, the submitted
    one and the others. *)
Theorem job_status_transitions filePath w jobId before after :
  journal w = [ledger w] ->
  consecutive (rowHistory jobId (lifecycle filePath w)) (Some before) after ->
  (status before <> PROCESSING -> after = Some before)
  /\ (forall j, after = Some j -> status j <> status before ->
        status before = PROCESSING
        /\ (status j = COMPLETED \/ status j = FAILED))
  /\ is_Some after.
Proof.
  intros Hj Hcons.
  assert (Hobs : observed jobId w).
  { unfold observed. rewrite Hj. split; [reflexivity|exact I]. }
  apply (lifecycle_observed jobId filePath) in Hobs as [_ Hlaw].
  pose proof (rowHistory_consecutive jobId _ _ _ Hlaw Hcons) as Hlegal.
  simpl in Hlegal. destruct Hlegal as [->|[Hp Hsome]].
  - split; [reflexivity|]. split; [|eauto].
    intros j [= <-] Hne. congruence.
  - split; [congruence|]. split; [|exact Hsome].
    intros j -> Hne. split; [exact Hp|].
    destruct (status j); [congruence|auto|auto].
Qed.
End JobLifecycle.

(** The life of a submission of three lines, the second of them malformed:
    the row appears, is updated three times while PROCESSING, and ends
    COMPLETED. *)
Lemma job_status_transitions_witness :
  let P := Sample.platform
             (Sample.oneFile (str "events.txt")
                (RegularFile true [Sample.line 1; str "oops"; Sample.line 2]))
             Sample.noFaults in
  let w := Sample.world [] ∅ 1700000000000 in
  let jobId := str "ingest-job-1700000000000-00000000" in
  let h := rowHistory jobId (lifecycle (str "events.txt") w) in
  let before :=
    {| job_id := jobId; status := PROCESSING; file_path := str "events.txt";
       total_lines := 3; processed_lines := 0; error_lines := 1;
       errors := [str "Line 2: Malformed entry: expected 6 fields, got 1"];
       start_time := 1700000000000; end_time := None |} in
  let after :=
    {| job_id := jobId; status := COMPLETED; file_path := str "events.txt";
       total_lines := 3; processed_lines := 2; error_lines := 1;
       errors := [str "Line 2: Malformed entry: expected 6 fields, got 1"];
       start_time := 1700000000000; end_time := Some 1700000000000 |} in
  fmap (M := option) status <$> h
    = [None; Some PROCESSING; Some PROCESSING; Some PROCESSING; Some COMPLETED]
  /\ consecutive h (Some before) (Some after)
  /\ is_Some (Some after).
Proof.
  intros P w jobId h before after.
  split; [vm_compute; reflexivity|].
  assert (Hc : consecutive h (Some before) (Some after)).
  { exists 3%nat. split; vm_compute; reflexivity. }
  split; [exact Hc|].
  exact (proj2 (proj2 (job_status_transitions (H := P) (str "events.txt") w
                         jobId before (Some after) eq_refl Hc))).
Defined.

(** A submission of a directory: the task cannot read it and the job ends
    FAILED. *)
Example directory_job_fails :
  let P := Sample.platform (Sample.oneFile (str "uploads") Directory)
             Sample.noFaults in
  let w := Sample.world [] ∅ 1700000000000 in
  fmap (M := option) status
    <$> rowHistory (str "ingest-job-1700000000000-00000000")
          (lifecycle (str "uploads") w)
  = [None; Some PROCESSING; Some FAILED].
Proof. vm_compute. reflexivity. Qed.

(** The guard is the controller's, not the ledger's: called on its own,
    [IngestionJob.fail] rewrites a COMPLETED row. *)
Example ledger_functions_are_unguarded :
  let P := Sample.platform Sample.noFiles Sample.noFaults in
  let job := {| job_id := str "job-1"; status := COMPLETED;
                file_path := str "events.txt"; total_lines := 3;
                processed_lines := 3; error_lines := 0; errors := [];
                start_time := 1000; end_time := Some 2000 |} in
  let w := Sample.world [] {[ str "job-1" := job ]} 3000 in
  status <$> ledger (IngestionJob.fail (str "job-1") (str "late") w).2
               !! str "job-1"
  = Some FAILED.
Proof. vm_compute. reflexivity. Qed.

(** The scenario of the specification: three lines, the second with an
    invalid identifier. *)
Example three_lines_one_bad_uuid :
  let lines :=
    [ Sample.line 1;
      str "not-a-uuid|Event|2023-01-01T10:00:00Z|2023-01-01T11:00:00Z|NULL|x";
      Sample.line 2 ] in
  let P := Sample.platform
             (Sample.oneFile (str "events.txt") (RegularFile true lines))
             Sample.noFaults in
  let w := Sample.world [] ∅ 1700000000000 in
  (fun j => (status j, processed_lines j, error_lines j, errors j))
    <$> ledger (lifecycle (str "events.txt") w)
          !! str "ingest-job-1700000000000-00000000"
  = Some (COMPLETED, 2, 1, [str "Line 2: Invalid UUID format: 'not-a-uuid'"]).
Proof. vm_compute. reflexivity. Qed.


(** ** Overlap detector *)

Section OverlapProperties.

Global Instance longerOverlap_total : Total longerOverlap.
Proof. intros r1 r2. unfold longerOverlap. lia. Qed.

Global Instance longerOverlap_trans : Transitive longerOverlap.
Proof. intros r1 r2 r3. unfold longerOverlap. lia. Qed.

Lemma uuid_lt_trichotomy (a b : jsstring) : uuid_lt a b \/ a = b \/ uuid_lt b a.
Proof. unfold uuid_lt. apply (trichotomy (lexico (A := jsstring))). Qed.

Lemma uuid_lt_irrefl (a : jsstring) : ~ uuid_lt a a.
Proof. unfold uuid_lt. apply (irreflexivity (lexico (A := jsstring))). Qed.

Lemma uuid_lt_asym (a b : jsstring) : uuid_lt a b -> ~ uuid_lt b a.
Proof.
  unfold uuid_lt. intros Hab Hba. apply (uuid_lt_irrefl a).
  unfold uuid_lt. etransitivity; eauto.
Qed.

Lemma overlapping_spec e1 e2 :
  overlapping e1 e2 = true <->
  uuid_lt (event_id e1) (event_id e2)
  /\ Z.max (start_date e1) (start_date e2) < Z.min (end_date e1) (end_date e2).
Proof.
  unfold overlapping, overlap.
  rewrite !andb_true_iff, bool_decide_eq_true, !Z.ltb_lt. intuition lia.
Qed.

Lemma joinedPairs_elem rows e1 e2 :
  (e1, e2) ∈ joinedPairs rows <->
  e1 ∈ rows /\ e2 ∈ rows /\ overlapping e1 e2 = true.
Proof.
  unfold joinedPairs. rewrite list_elem_of_bind. split.
  - intros (x & Hx & Hin). apply list_elem_of_bind in Hx as (y & Hy & Hiny).
    destruct (overlapping x y) eqn:Ho; [|inversion Hy].
    apply list_elem_of_singleton in Hy. injection Hy as -> ->. auto.
  - intros (H1 & H2 & Ho). exists e1. split; [|exact H1].
    apply list_elem_of_bind. exists e2. split; [|exact H2].
    rewrite Ho. apply list_elem_of_singleton. reflexivity.
Qed.

Lemma overlapRows_elem rows e1 e2 :
  (e1, e2) ∈ overlapRows rows <->
  e1 ∈ rows /\ e2 ∈ rows /\ overlapping e1 e2 = true.
Proof.
  unfold overlapRows. rewrite merge_sort_Permutation. apply joinedPairs_elem.
Qed.

Lemma roundMinutes_nonneg us : 0 <= us -> 0 <= roundMinutes us.
Proof. intros Hus. unfold roundMinutes. apply Z.div_pos; lia. Qed.

Lemma roundMinutes_mono a b : a <= b -> roundMinutes a <= roundMinutes b.
Proof. intros Hab. unfold roundMinutes. apply Z.div_le_mono; lia. Qed.

(** The primary key identifies the row. *)
Lemma unique_event_id rows a b :
  NoDup (event_id <$> rows) -> a ∈ rows -> b ∈ rows ->
  event_id a = event_id b -> a = b.
Proof.
  induction rows as [|x rows IH]; intros Hnd Ha Hb Hid; [inversion Ha|].
  rewrite fmap_cons in Hnd. apply NoDup_cons in Hnd as [Hx Hnd].
  apply elem_of_cons in Ha as [->|Ha]; apply elem_of_cons in Hb as [->|Hb].
  - reflexivity.
  - exfalso. apply Hx. rewrite Hid. apply list_elem_of_fmap. eauto.
  - exfalso. apply Hx. rewrite <- Hid. apply list_elem_of_fmap. eauto.
  - auto.
Qed.

Lemma reports_inv rows a b :
  reports (findOverlappingEvents rows) a b ->
  exists x y, x ∈ rows /\ y ∈ rows /\ overlapping x y = true
              /\ summary x = summary a /\ summary y = summary b.
Proof.
  intros (r & Hr & Hp). unfold findOverlappingEvents in Hr.
  apply list_elem_of_fmap in Hr as ([x y] & -> & Hxy).
  apply overlapRows_elem in Hxy as (Hx & Hy & Ho).
  simpl in Hp. injection Hp as Hsx Hsy. exists x, y.
  repeat split; try assumption; unfold summary; congruence.
Qed.

Lemma reports_intro rows a b :
  a ∈ rows -> b ∈ rows -> overlapping a b = true ->
  reports (findOverlappingEvents rows) a b.
Proof.
  intros Ha Hb Ho. eexists. split.
  - unfold findOverlappingEvents. apply list_elem_of_fmap.
    exists (a, b). split; [reflexivity|]. apply overlapRows_elem. auto.
  - reflexivity.
Qed.

Lemma summary_event_id x a : summary x = summary a -> event_id x = event_id a.
Proof. intros Hs. apply (f_equal es_event_id) in Hs. exact Hs. Qed.

(** C5, as amended: over a table whose event identifiers are distinct, a
    pair of distinct events is reported, in one order or the other, exactly
    when the later start precedes the earlier end; every reported row pairs
    two events of different identifiers whose overlap, the earlier end
    minus the later start, is positive, and it shows that overlap in
    minutes rounded to the nearest integer, a number that is not negative;
    no pair is reported in both orders and no event against itself; the
    rows come by overlap, longest first. *)
Theorem overlapping_pairs_report rows :
  NoDup (event_id <$> rows) ->
  let out := findOverlappingEvents rows in
  (forall a b, a ∈ rows -> b ∈ rows -> a <> b ->
     (reports out a b \/ reports out b a) <->
     Z.max (start_date a) (start_date b) < Z.min (end_date a) (end_date b))
  /\ (forall r, r ∈ out ->
        exists a b,
          a ∈ rows /\ b ∈ rows /\ event_id a <> event_id b
          /\ overlappingEventPairs r = (summary a, summary b)
          /\ 0 < Z.min (end_date a) (end_date b)
                 - Z.max (start_date a) (start_date b)
          /\ overlap_duration_minutes r
             = roundMinutes (Z.min (end_date a) (end_date b)
                             - Z.max (start_date a) (start_date b))
          /\ 0 <= overlap_duration_minutes r)
  /\ (forall a b, reports out a b -> ~ reports out b a)
  /\ (forall a, ~ reports out a a)
  /\ StronglySorted longerOverlap (overlapRows rows)
  /\ StronglySorted longerReported out.
Proof.
  intros Hnd out. repeat split.
  - intros [Hr|Hr]; apply reports_inv in Hr as (x & y & Hx & Hy & Ho & Hsx & Hsy);
      apply summary_event_id in Hsx, Hsy;
      apply (unique_event_id rows) in Hsx; auto;
      apply (unique_event_id rows) in Hsy; auto; subst x y;
      apply overlapping_spec in Ho as [_ Ho]; lia.
  - intros Hov.
    assert (Hid : event_id a <> event_id b).
    { intros Hid. apply H1. eapply unique_event_id; eauto. }
    destruct (uuid_lt_trichotomy (event_id a) (event_id b)) as [Hlt|[Heq|Hgt]].
    + left. apply reports_intro; auto. apply overlapping_spec. auto.
    + contradiction.
    + right. apply reports_intro; auto. apply overlapping_spec. split; [exact Hgt|lia].
  - intros r Hr. unfold out, findOverlappingEvents in Hr.
    apply list_elem_of_fmap in Hr as ([a b] & -> & Hab).
    apply overlapRows_elem in Hab as (Ha & Hb & Ho).
    apply overlapping_spec in Ho as [Hlt Ho].
    exists a, b. simpl. unfold overlap.
    repeat split; auto; try lia.
    + intros Hid. rewrite Hid in Hlt. exact (uuid_lt_irrefl _ Hlt).
    + apply roundMinutes_nonneg. lia.
  - intros a b Hab Hba.
    apply reports_inv in Hab as (x & y & _ & _ & Ho & Hsx & Hsy).
    apply reports_inv in Hba as (x' & y' & _ & _ & Ho' & Hsx' & Hsy').
    apply summary_event_id in Hsx, Hsy, Hsx', Hsy'.
    apply overlapping_spec in Ho as [Hlt _]. apply overlapping_spec in Ho' as [Hlt' _].
    rewrite Hsx, Hsy in Hlt. rewrite Hsx', Hsy' in Hlt'.
    exact (uuid_lt_asym _ _ Hlt Hlt').
  - intros a Haa.
    apply reports_inv in Haa as (x & y & _ & _ & Ho & Hsx & Hsy).
    apply summary_event_id in Hsx, Hsy.
    apply overlapping_spec in Ho as [Hlt _]. rewrite Hsx, Hsy in Hlt.
    exact (uuid_lt_irrefl _ Hlt).
  - apply StronglySorted_merge_sort; apply _.
  - unfold out, findOverlappingEvents.
    eapply StronglySorted_fmap; [|apply StronglySorted_merge_sort; apply _].
    intros r1 r2 Hr. unfold longerReported, longerOverlap in *. simpl.
    apply roundMinutes_mono. exact Hr.
Qed.
End OverlapProperties.

(** ** Gap finder *)

Section GapProperties.

Global Instance startsNoLater_total : Total startsNoLater.
Proof. intros e1 e2. unfold startsNoLater. lia. Qed.

Global Instance startsNoLater_trans : Transitive startsNoLater.
Proof. intros e1 e2 e3. unfold startsNoLater. lia. Qed.

Global Instance widerGap_total : Total widerGap.
Proof. intros g1 g2. unfold widerGap. lia. Qed.

Global Instance widerGap_trans : Transitive widerGap.
Proof. intros g1 g2 g3. unfold widerGap. lia. Qed.

(** The pairs [LAG] forms are the pairs of neighbours. *)
Lemma lagPairs_elem (l : list Event) p c :
  (p, c) ∈ lagPairs l <-> consecutive l p c.
Proof.
  induction l as [|x [|y l] IH]; simpl.
  - split; [inversion 1|intros (i & Hi & _); discriminate].
  - split; [inversion 1|intros (i & Hi & Hs); destruct i; discriminate].
  - rewrite elem_of_cons, IH. split.
    + intros [[= -> ->]|(i & Hi & Hs)]; [exists 0%nat; auto|exists (S i); auto].
    + intros ([|i] & Hi & Hs); simpl in Hi, Hs.
      * left. congruence.
      * right. exists i. auto.
Qed.

Lemma lagPairs_short (l : list Event) : (length l < 2)%nat -> lagPairs l = [].
Proof. destruct l as [|x [|y l]]; simpl; [reflexivity|reflexivity|lia]. Qed.

Lemma gapRows_elem startDate endDate rows g :
  g ∈ gapRows startDate endDate rows <->
  0 < gapOf g /\ g ∈ lagPairs (ordered_events startDate endDate rows).
Proof.
  unfold gapRows. rewrite merge_sort_Permutation.
  apply (list_elem_of_filter (fun g => 0 < gapOf g)).
Qed.

(** C6: the events the finder looks at are those lying inside the window,
    ordered by start; it answers with no gap exactly when no event in that
    order ends before the next one starts, in particular when fewer than
    two events qualify; otherwise it answers with one gap, lying between
    two neighbours of that order of which the first ends before the second
    starts, no narrower than the gap between any two neighbours, with its
    bounds, its length in rounded minutes and the two events. *)
Theorem largest_gap_report startDate endDate rows :
  let qualifying :=
    filter (fun e => startDate <= start_date e /\ end_date e <= endDate) rows in
  let ordered := ordered_events startDate endDate rows in
  ordered ≡ₚ qualifying
  /\ StronglySorted startsNoLater ordered
  /\ ((length qualifying < 2)%nat ->
        findTemporalGaps startDate endDate rows = None)
  /\ (findTemporalGaps startDate endDate rows = None <->
        forall p c, consecutive ordered p c -> ~ end_date p < start_date c)
  /\ (forall gap, findTemporalGaps startDate endDate rows = Some gap ->
        exists p c,
          consecutive ordered p c
          /\ end_date p < start_date c
          /\ gap = {| startOfGap := end_date p;
                      endOfGap := start_date c;
                      durationMinutes := roundMinutes (start_date c - end_date p);
                      precedingEvent := (event_id p, event_name p, end_date p);
                      succeedingEvent :=
                        (event_id c, event_name c, start_date c) |}
          /\ forall p' c', consecutive ordered p' c' ->
               start_date c' - end_date p' <= start_date c - end_date p).
Proof.
  intros qualifying ordered.
  assert (Hperm : ordered ≡ₚ qualifying) by apply merge_sort_Permutation.
  assert (Hnone : findTemporalGaps startDate endDate rows = None <->
                  forall p c, consecutive ordered p c -> ~ end_date p < start_date c).
  { unfold findTemporalGaps.
    destruct (gapRows startDate endDate rows) as [|[p c] rest] eqn:Hg.
    - split; [|reflexivity]. intros _ p c Hpc Hlt.
      assert (Hin : (p, c) ∈ gapRows startDate endDate rows).
      { apply gapRows_elem. split; [unfold gapOf; simpl; lia|].
        apply lagPairs_elem. exact Hpc. }
      rewrite Hg in Hin. inversion Hin.
    - split; [discriminate|]. intros Hno. exfalso.
      assert (Hin : (p, c) ∈ gapRows startDate endDate rows)
        by (rewrite Hg; left).
      apply gapRows_elem in Hin as [Hpos Hin]. apply lagPairs_elem in Hin.
      apply (Hno p c Hin). unfold gapOf in Hpos. simpl in Hpos. lia. }
  split; [exact Hperm|]. split; [apply StronglySorted_merge_sort; apply _|].
  split; [|split; [exact Hnone|]].
  - intros Hshort. apply Hnone. intros p c Hpc. exfalso.
    apply lagPairs_elem in Hpc. rewrite lagPairs_short in Hpc; [inversion Hpc|].
    rewrite Hperm. exact Hshort.
  - intros gap. unfold findTemporalGaps.
    destruct (gapRows startDate endDate rows) as [|[p c] rest] eqn:Hg; [discriminate|].
    intros [= <-].
    assert (Hin : (p, c) ∈ gapRows startDate endDate rows) by (rewrite Hg; left).
    apply gapRows_elem in Hin as [Hpos Hin]. apply lagPairs_elem in Hin.
    unfold gapOf in Hpos. simpl in Hpos.
    exists p, c. split; [exact Hin|]. split; [lia|]. split; [reflexivity|].
    intros p' c' Hpc'.
    destruct (decide (0 < gapOf (p', c'))) as [Hpos'|Hneg];
      [|unfold gapOf in Hneg; simpl in Hneg; lia].
    assert (Hin' : (p', c') ∈ gapRows startDate endDate rows).
    { apply gapRows_elem. split; [exact Hpos'|]. apply lagPairs_elem. exact Hpc'. }
    assert (Hsorted : StronglySorted widerGap (gapRows startDate endDate rows))
      by (apply StronglySorted_merge_sort; apply _).
    rewrite Hg in Hin', Hsorted.
    apply elem_of_cons in Hin' as [[= -> ->]|Hrest]; [lia|].
    apply StronglySorted_inv in Hsorted as [_ Hall].
    rewrite Forall_forall in Hall. specialize (Hall _ Hrest).
    unfold widerGap, gapOf in Hall. simpl in Hall. exact Hall.
Qed.
End GapProperties.


(** ** Shortest path *)

Section GraphProperties.

Lemma truthy_true (s : jsstring) : truthy s = true <-> s <> [].
Proof. destruct s; simpl; split; congruence. Qed.

Lemma graphOf_snoc rows e :
  graphOf (rows ++ [e]) =
    let graph := graphOf rows in
    let graph1 :=
      match graph !! event_id e with
      | Some _ => graph
      | None => <[event_id e := []]> graph
      end in
    match parent_event_id e with
    | Some parent =>
        if truthy parent then
          let graph2 :=
            match graph1 !! parent with
            | Some _ => graph1
            | None => <[parent := []]> graph1
            end in
          alter (fun children => children ++ [event_id e]) parent graph2
        else graph1
    | None => graph1
    end.
Proof. unfold graphOf. rewrite foldl_app. reflexivity. Qed.

Lemma ensure_default (g : gmap jsstring (list jsstring)) k p :
  default [] (match g !! k with Some _ => g | None => <[k := []]> g end !! p)
  = default [] (g !! p).
Proof.
  destruct (g !! k) eqn:Hk; [reflexivity|].
  destruct (decide (k = p)) as [->|Hne].
  - rewrite lookup_insert_eq, Hk. reflexivity.
  - rewrite lookup_insert_ne by exact Hne. reflexivity.
Qed.

Lemma ensure_alter_default (g : gmap jsstring (list jsstring)) k x p :
  default [] (alter (fun l => l ++ [x]) k
                (match g !! k with Some _ => g | None => <[k := []]> g end) !! p)
  = default [] (g !! p) ++ (if decide (k = p) then [x] else []).
Proof.
  destruct (decide (k = p)) as [->|Hne].
  - rewrite lookup_alter_eq. destruct (g !! p) eqn:Hp.
    + rewrite Hp. reflexivity.
    + rewrite lookup_insert_eq. reflexivity.
  - rewrite lookup_alter_ne by exact Hne. rewrite ensure_default.
    rewrite app_nil_r. reflexivity.
Qed.

(** The adjacency list the source builds is [children]. *)
Lemma graphOf_children rows p :
  default [] (graphOf rows !! p) = children rows p.
Proof.
  induction rows as [|e rows IH] using rev_ind.
  - reflexivity.
  - rewrite graphOf_snoc. cbv zeta. unfold children.
    rewrite filter_app, fmap_app. fold (children rows p). rewrite <- IH.
    rewrite filter_cons, filter_nil.
    destruct (parent_event_id e) as [q|] eqn:Hq.
    + destruct (truthy q) eqn:Ht.
      * rewrite ensure_alter_default, ensure_default.
        apply truthy_true in Ht.
        destruct (decide (q = p)) as [->|Hne].
        -- rewrite decide_True by auto. reflexivity.
        -- rewrite decide_False; [reflexivity|]. intros [[= ->] _]. contradiction.
      * rewrite ensure_default.
        rewrite decide_False; [rewrite app_nil_r; reflexivity|].
        intros [[= ->] Hne]. apply truthy_true in Hne. congruence.
    + rewrite ensure_default.
      rewrite decide_False; [rewrite app_nil_r; reflexivity|].
      intros [Hp _]. discriminate.
Qed.

Lemma children_elem rows p n :
  n ∈ children rows p <->
  exists e, e ∈ rows /\ event_id e = n /\ parent_event_id e = Some p /\ p <> [].
Proof.
  unfold children. rewrite list_elem_of_fmap. split.
  - intros (e & -> & He). apply list_elem_of_filter in He as [[Hp Hne] He]. eauto.
  - intros (e & He & <- & Hp & Hne). exists e. split; [reflexivity|].
    apply list_elem_of_filter. auto.
Qed.

Lemma children_NoDup rows p :
  NoDup (event_id <$> rows) -> NoDup (children rows p).
Proof.
  unfold children. induction rows as [|e rows IH]; intros Hnd.
  - constructor.
  - rewrite fmap_cons in Hnd. apply NoDup_cons in Hnd as [He Hnd].
    rewrite filter_cons. destruct (decide _); [|auto].
    rewrite fmap_cons. apply NoDup_cons. split; [|auto].
    intros Hin. apply He. apply list_elem_of_fmap in Hin as (x & Hx & Hin).
    apply list_elem_of_filter in Hin as [_ Hin].
    apply list_elem_of_fmap. eauto.
Qed.

Lemma detailsOf_snoc rows e :
  detailsOf (rows ++ [e]) = <[event_id e := e]> (detailsOf rows).
Proof. unfold detailsOf. rewrite foldl_app. reflexivity. Qed.

Lemma detailsOf_is_Some rows e :
  e ∈ rows -> is_Some (detailsOf rows !! event_id e).
Proof.
  induction rows as [|x rows IH] using rev_ind; [inversion 1|].
  intros He. rewrite detailsOf_snoc.
  destruct (decide (event_id x = event_id e)) as [Heq|Hne].
  - rewrite Heq, lookup_insert_eq. eauto.
  - rewrite lookup_insert_ne by exact Hne. apply IH.
    apply elem_of_app in He as [He|He]; [exact He|].
    apply list_elem_of_singleton in He. congruence.
Qed.

Lemma detailsOf_lookup rows e :
  NoDup (event_id <$> rows) -> e ∈ rows ->
  detailsOf rows !! event_id e = Some e.
Proof.
  induction rows as [|x rows IH] using rev_ind; [inversion 2|].
  intros Hnd He. rewrite detailsOf_snoc.
  rewrite fmap_app in Hnd. apply NoDup_app in Hnd as (Hnd & Hx & _).
  apply elem_of_app in He as [He|He].
  - rewrite lookup_insert_ne; [auto|].
    intros Heq. apply (Hx (event_id e)).
    + apply list_elem_of_fmap. eauto.
    + rewrite <- Heq. simpl. left.
  - apply list_elem_of_singleton in He as ->. apply lookup_insert_eq.
Qed.

Lemma initial_distances rows s e :
  e ∈ rows -> event_id e <> s ->
  distances (initialSearch rows s) !! event_id e = Some Infinity.
Proof.
  intros He Hne. unfold initialSearch. cbn [distances].
  rewrite lookup_insert_ne by auto.
  induction rows as [|x rows IH] using rev_ind; [inversion He|].
  rewrite foldl_app. simpl.
  destruct (decide (event_id x = event_id e)) as [Heq|Hne'].
  - rewrite Heq, lookup_insert_eq. reflexivity.
  - rewrite lookup_insert_ne by exact Hne'. apply IH.
    apply elem_of_app in He as [He|He]; [exact He|].
    apply list_elem_of_singleton in He. congruence.
Qed.

Lemma enqueueSorted_perm x l : enqueueSorted x l ≡ₚ x :: l.
Proof.
  induction l as [|y l IH]; simpl; [reflexivity|].
  destruct (x.2 <=? y.2); [reflexivity|].
  rewrite IH. apply perm_swap.
Qed.

Lemma sortQueue_perm l : sortQueue l ≡ₚ l.
Proof.
  induction l as [|x l IH]; simpl; [reflexivity|].
  rewrite enqueueSorted_perm, IH. reflexivity.
Qed.

Lemma unvisitedParent_true vis e :
  unvisitedParent vis e = true <->
  exists p, parent_event_id e = Some p /\ p <> [] /\ p ∉ vis.
Proof.
  unfold unvisitedParent. destruct (parent_event_id e) as [p|].
  - rewrite andb_true_iff, truthy_true, bool_decide_eq_true. split.
    + intros [Hne Hv]. eauto.
    + intros (q & [= <-] & Hne & Hv). auto.
  - split; [discriminate|]. intros (q & Hq & _). discriminate.
Qed.

Lemma pending_visit rows vis cur :
  cur ∉ vis ->
  (pending rows ({[cur]} ∪ vis) + length (children rows cur) = pending rows vis)%nat.
Proof.
  intros Hcur. unfold pending, children. rewrite length_fmap.
  induction rows as [|e rows IH]; [reflexivity|].
  rewrite !filter_cons.
  destruct (decide (parent_event_id e = Some cur /\ cur <> [])) as [[Hp Hne]|Hn].
  - rewrite decide_False.
    2:{ rewrite unvisitedParent_true. intros (p & Hp' & _ & Hnot).
        rewrite Hp in Hp'. injection Hp' as <-. apply Hnot. set_solver. }
    rewrite decide_True by (apply unvisitedParent_true; exists cur; auto).
    simpl. lia.
  - destruct (decide (unvisitedParent vis e = true)) as [Hy|Hno].
    + rewrite decide_True; [simpl; lia|].
      apply unvisitedParent_true in Hy as (p & Hp & Hne & Hv).
      apply unvisitedParent_true. exists p. repeat split; auto. intros Hin.
      apply elem_of_union in Hin as [Hin|Hin]; [|contradiction].
      apply elem_of_singleton in Hin as ->. apply Hn. auto.
    + rewrite decide_False; [exact IH|].
      rewrite unvisitedParent_true. intros (p & Hp & Hne & Hv). apply Hno.
      apply unvisitedParent_true. exists p. repeat split; auto.
      intros Hin. apply Hv. set_solver.
Qed.

Lemma pending_le_length rows vis : (pending rows vis <= length rows)%nat.
Proof. unfold pending. apply length_filter. Qed.
End GraphProperties.

Section Dijkstra.
Variables (rows : list Event) (s t : jsstring).
Hypothesis Hnd : NoDup (event_id <$> rows).

Local Abbreviation Inv := (SearchInv rows s t).
Local Abbreviation Ended := (Ended rows s t).

Lemma Inv_initial cur : Inv cur [] (initialSearch rows s).
Proof.
  split; unfold queued; cbn [previous visited queue initialSearch].
  - intros n p Hp. rewrite lookup_empty in Hp. discriminate.
  - apply lookup_empty.
  - intros n [Hn|Hn]; [set_solver|].
    apply list_elem_of_singleton in Hn as ->. exists 0.
    unfold initialSearch. cbn [distances]. apply lookup_insert_eq.
  - intros n [Hn|Hn] Hne; [set_solver|].
    apply list_elem_of_singleton in Hn. contradiction.
  - intros e He Hne _. split; [apply initial_distances; assumption|].
    split; [set_solver|]. intros Hin. apply list_elem_of_singleton in Hin.
    contradiction.
  - intros e p _ _ _ Hp. set_solver.
  - right. reflexivity.
  - set_solver.
Qed.

Lemma Inv_prevOK cur st : Inv cur [] st -> PrevOK rows s st.
Proof.
  intros HI. split; [|apply (si_prev_source _ _ _ _ _ _ HI)].
  intros n p Hp. destruct (si_prev _ _ _ _ _ _ HI n p Hp) as [Hv He].
  split; [exact He|].
  destruct (decide (p = s)) as [->|Hne]; [left; reflexivity|right].
  apply (si_reached _ _ _ _ _ _ HI); auto.
Qed.

(** One neighbour relaxed. *)
Lemma relax_step cur n todo st :
  Inv cur (n :: todo) st ->
  NoDup (n :: todo) ->
  cur ∈ visited st -> s ∈ visited st ->
  (exists e, e ∈ rows /\ event_id e = n /\ parent_event_id e = Some cur
             /\ cur <> []) ->
  exists st',
    relax (detailsOf rows) cur st n = Some st'
    /\ Inv cur todo st'
    /\ visited st' = visited st
    /\ (length (queue st') <= S (length (queue st)))%nat.
Proof.
  intros HI Hnodup Hcur Hs (e & He & Hid & Hpar & Hne).
  apply NoDup_cons in Hnodup as [Hn _].
  destruct HI as [Hprev Hps Hdist Hreach Hfresh Hchild Hsrc Htgt].
  unfold queued in *. unfold relax. case_bool_decide as Hvis.
  - (* already visited: it can only be the source *)
    assert (Hns : n = s).
    { destruct (decide (n = s)) as [|Hns]; [assumption|exfalso].
      destruct (Hfresh e He) as (_ & Hnv & _); [congruence| |congruence].
      intros p Hp _. right. split; [congruence|]. rewrite Hid. left. }
    exists st. split; [reflexivity|]. split; [|split; [reflexivity|lia]].
    split; auto.
    + intros e' He' Hne' Hp'. apply Hfresh; auto.
      intros p Hp Hpne. destruct (Hp' p Hp Hpne) as [|[-> Hin]]; [auto|].
      right. split; [reflexivity|]. right. exact Hin.
    + intros e' p He' Hp Hpne Hpv Hne'.
      destruct (Hchild e' p He' Hp Hpne Hpv Hne') as [|[|[-> Hin]]]; auto.
      apply elem_of_cons in Hin as [Hin|Hin]; [congruence|auto].
  - (* not visited: untouched so far, so it is pushed *)
    assert (Hns : n <> s) by (intros ->; contradiction).
    destruct (detailsOf_is_Some rows e He) as [ev Hev]. rewrite Hid in Hev.
    rewrite Hev.
    destruct (Hdist cur (or_introl Hcur)) as [d Hd]. rewrite Hd.
    destruct (Hfresh e He) as (Hinf & _ & Hnq); [congruence| |].
    { intros p Hp _. right. split; [congruence|]. rewrite Hid. left. }
    rewrite Hid in Hinf, Hnq. rewrite Hinf.
    eexists. split; [reflexivity|].
    split; [|split; [reflexivity|cbn [queue]; rewrite length_app; simpl; lia]].
    split; unfold queued; cbn [previous visited queue distances].
    + intros m p Hp. destruct (decide (n = m)) as [<-|Hnm].
      * rewrite lookup_insert_eq in Hp. injection Hp as <-.
        split; [exact Hcur|]. exists e. auto.
      * rewrite lookup_insert_ne in Hp by exact Hnm. auto.
    + rewrite lookup_insert_ne by exact Hns. exact Hps.
    + intros m Hm. destruct (decide (n = m)) as [<-|Hnm].
      * rewrite lookup_insert_eq. eauto.
      * rewrite lookup_insert_ne by exact Hnm. apply Hdist.
        destruct Hm as [Hm|Hm]; [auto|]. right.
        rewrite fmap_app in Hm. apply elem_of_app in Hm as [Hm|Hm]; [exact Hm|].
        apply list_elem_of_singleton in Hm. simpl in Hm. congruence.
    + intros m Hm Hms. destruct (decide (n = m)) as [<-|Hnm].
      * rewrite lookup_insert_eq. eauto.
      * rewrite lookup_insert_ne by exact Hnm. apply Hreach; [|exact Hms].
        destruct Hm as [Hm|Hm]; [auto|]. right.
        rewrite fmap_app in Hm. apply elem_of_app in Hm as [Hm|Hm]; [exact Hm|].
        apply list_elem_of_singleton in Hm. simpl in Hm. congruence.
    + intros e' He' Hne' Hp'.
      assert (Hen : event_id e' <> n).
      { intros Heq. assert (e' = e) as ->.
        { apply (unique_event_id rows); auto. congruence. }
        destruct (Hp' cur Hpar Hne) as [Hc|[_ Hin]]; [contradiction|].
        rewrite Hid in Hin. contradiction. }
      destruct (Hfresh e' He' Hne') as (Hinf' & Hnv' & Hnq').
      { intros p Hp Hpne. destruct (Hp' p Hp Hpne) as [|[-> Hin]]; [auto|].
        right. split; [reflexivity|]. right. exact Hin. }
      rewrite lookup_insert_ne by auto. split; [exact Hinf'|].
      split; [exact Hnv'|]. rewrite fmap_app. intros Hin.
      apply elem_of_app in Hin as [Hin|Hin]; [contradiction|].
      apply list_elem_of_singleton in Hin. simpl in Hin. contradiction.
    + intros e' p He' Hp Hpne Hpv Hne'. rewrite fmap_app.
      destruct (Hchild e' p He' Hp Hpne Hpv Hne') as [|[|[-> Hin]]]; auto.
      * right. left. apply elem_of_app. auto.
      * apply elem_of_cons in Hin as [Hin|Hin]; [|auto].
        right. left. apply elem_of_app. right. rewrite Hin. simpl. left.
    + left. exact Hs.
    + exact Htgt.
Qed.

Lemma relaxAll_spec cur todo : forall st,
  Inv cur todo st ->
  NoDup todo ->
  cur ∈ visited st -> s ∈ visited st ->
  (forall n, n ∈ todo ->
     exists e, e ∈ rows /\ event_id e = n /\ parent_event_id e = Some cur
               /\ cur <> []) ->
  exists st',
    relaxAll (detailsOf rows) cur st todo = Some st'
    /\ Inv cur [] st'
    /\ visited st' = visited st
    /\ (length (queue st') <= length (queue st) + length todo)%nat.
Proof.
  induction todo as [|n todo IH]; intros st HI Hnodup Hcur Hs Hall.
  - exists st. split; [reflexivity|]. split; [exact HI|].
    split; [reflexivity|]. simpl. lia.
  - destruct (relax_step cur n todo st HI Hnodup Hcur Hs) as (st1 & Hr & HI1 & Hv1 & Hl1).
    { apply Hall. left. }
    simpl. rewrite Hr.
    destruct (IH st1 HI1) as (st2 & Hr2 & HI2 & Hv2 & Hl2).
    + apply NoDup_cons in Hnodup as [_ Hnodup]. exact Hnodup.
    + rewrite Hv1. exact Hcur.
    + rewrite Hv1. exact Hs.
    + intros m Hm. apply Hall. right. exact Hm.
    + exists st2. split; [exact Hr2|]. split; [exact HI2|].
      split; [congruence|]. simpl. lia.
Qed.

(** The state the loop is in once it has popped and marked [cur]. *)
Lemma visit_start c0 st cur d rest :
  Inv c0 [] st ->
  sortQueue (queue st) = (cur, d) :: rest ->
  cur ∉ visited st -> cur <> t ->
  let st1 := {| distances := distances st; previous := previous st;
                visited := {[cur]} ∪ visited st; queue := rest |} in
  Inv cur (children rows cur) st1 /\ cur ∈ visited st1 /\ s ∈ visited st1.
Proof.
  intros HI Hsort Hcur Hct st1.
  destruct HI as [Hprev Hps Hdist Hreach Hfresh Hchild Hsrc Htgt].
  unfold queued in *.
  assert (Hperm : queue st ≡ₚ (cur, d) :: rest)
    by (rewrite <- Hsort, sortQueue_perm; reflexivity).
  assert (Hq : forall n, n ∈ (queue st).*1 <-> n = cur \/ n ∈ rest.*1).
  { intros n. rewrite Hperm, fmap_cons, elem_of_cons. reflexivity. }
  assert (Hs : s ∈ visited st1).
  { apply elem_of_union. destruct Hsrc as [Hv|Hv]; [auto|].
    left. apply elem_of_singleton.
    assert (Hin : cur ∈ (queue st).*1) by (apply Hq; auto).
    rewrite Hv in Hin. apply list_elem_of_singleton in Hin. congruence. }
  split; [|split; [set_solver|exact Hs]].
  split; unfold queued; cbn [previous visited queue distances].
  - intros n p Hp. destruct (Hprev n p Hp) as [Hv He]. split; [set_solver|exact He].
  - exact Hps.
  - intros n Hn. apply Hdist. rewrite Hq. set_solver.
  - intros n Hn. apply Hreach. rewrite Hq. set_solver.
  - intros e He Hne Hp.
    destruct (Hfresh e He Hne) as (Hinf & Hnv & Hnq).
    { intros p Hpar Hpne. left. destruct (Hp p Hpar Hpne) as [Hn|[-> _]]; set_solver. }
    rewrite Hq in Hnq. split; [exact Hinf|]. split; set_solver.
  - intros e p He Hpar Hpne Hpv Hne.
    apply elem_of_union in Hpv as [Hpv|Hpv].
    + apply elem_of_singleton in Hpv as ->. right. right. split; [reflexivity|].
      apply children_elem. eauto.
    + destruct (Hchild e p He Hpar Hpne Hpv Hne) as [Hv|[Hv|[_ Hv]]].
      * left. set_solver.
      * apply Hq in Hv as [->|Hv]; [left; set_solver|auto].
      * inversion Hv.
  - left. exact Hs.
  - set_solver.
Qed.

Lemma Inv_pop_visited c0 st cur d rest :
  Inv c0 [] st ->
  sortQueue (queue st) = (cur, d) :: rest ->
  cur ∈ visited st ->
  Inv c0 [] {| distances := distances st; previous := previous st;
               visited := visited st; queue := rest |}.
Proof.
  intros HI Hsort Hcur.
  destruct HI as [Hprev Hps Hdist Hreach Hfresh Hchild Hsrc Htgt].
  unfold queued in *.
  assert (Hperm : queue st ≡ₚ (cur, d) :: rest)
    by (rewrite <- Hsort, sortQueue_perm; reflexivity).
  assert (Hq : forall n, n ∈ (queue st).*1 <-> n = cur \/ n ∈ rest.*1).
  { intros n. rewrite Hperm, fmap_cons, elem_of_cons. reflexivity. }
  split; unfold queued; cbn [previous visited queue distances]; auto.
  - intros n Hn. apply Hdist. rewrite Hq. tauto.
  - intros n Hn. apply Hreach. rewrite Hq. tauto.
  - intros e He Hne Hp. destruct (Hfresh e He Hne Hp) as (Hinf & Hnv & Hnq).
    rewrite Hq in Hnq. tauto.
  - intros e p He Hpar Hpne Hpv Hne.
    destruct (Hchild e p He Hpar Hpne Hpv Hne) as [Hv|[Hv|Hv]]; auto.
    apply Hq in Hv as [->|Hv]; auto.
  - destruct Hsrc as [Hv|Hv]; [auto|]. left.
    assert (Hin : cur ∈ (queue st).*1) by (apply Hq; auto).
    rewrite Hv in Hin. apply list_elem_of_singleton in Hin. congruence.
Qed.


(** The loop ends within the fuel, without a TypeError. *)
Lemma dijkstra_ends fuel : forall st c0,
  Inv c0 [] st ->
  (length (queue st) + pending rows (visited st) < fuel)%nat ->
  exists st',
    dijkstra (graphOf rows) (detailsOf rows) t fuel st = Finished st'
    /\ Ended st'.
Proof.
  induction fuel as [|fuel IH]; intros st c0 HI Hfuel; [lia|].
  cbn [dijkstra].
  destruct (sortQueue (queue st)) as [|[cur d] rest] eqn:Hsort.
  - exists st. split; [reflexivity|]. split; [eapply Inv_prevOK, HI|].
    left. exists c0. split; [exact HI|].
    apply Permutation_nil. rewrite <- Hsort. apply sortQueue_perm.
  - assert (Hlen : length (queue st) = S (length rest)).
    { rewrite <- (sortQueue_perm (queue st)), Hsort. reflexivity. }
    case_bool_decide as Hvis.
    + apply (IH _ c0); [eapply Inv_pop_visited; eauto|].
      cbn [queue visited]. lia.
    + case_bool_decide as Htarget.
      * eexists. split; [reflexivity|]. subst cur.
        assert (Hin : t ∈ queued st).
        { unfold queued. rewrite <- (sortQueue_perm (queue st)), Hsort. left. }
        split.
        -- destruct (Inv_prevOK _ _ HI) as [Hlinks Hsrc]. split; assumption.
        -- right. destruct (decide (t = s)) as [|Hne]; [left; assumption|right].
           cbn [previous]. apply (si_reached _ _ _ _ _ _ HI); auto.
      * destruct (visit_start c0 st cur d rest HI Hsort Hvis Htarget)
          as (HI1 & Hc1 & Hs1).
        rewrite graphOf_children.
        destruct (relaxAll_spec cur (children rows cur) _ HI1
                    (children_NoDup rows cur Hnd) Hc1 Hs1)
          as (st2 & Hrelax & HI2 & Hv2 & Hl2).
        { intros n Hn. apply children_elem in Hn. exact Hn. }
        rewrite Hrelax. apply (IH _ cur HI2).
        rewrite Hv2. cbn [visited queue] in *.
        pose proof (pending_visit rows (visited st) cur Hvis). lia.
Qed.
End Dijkstra.

Section ShortestPath.
Variable rows : list Event.
Hypothesis Hnd : NoDup (event_id <$> rows).

Lemma initial_fuel s :
  (length (queue (initialSearch rows s))
   + pending rows (visited (initialSearch rows s)) < S (S (length rows)))%nat.
Proof.
  cbn [initialSearch queue visited length].
  pose proof (pending_le_length rows ∅). lia.
Qed.

Lemma reconstruct_done details prev fuel path :
  reconstruct details prev fuel None path = Some (Some path).
Proof. destruct fuel; reflexivity. Qed.

(** C10: called with the same existing event as source and target, the
    search does not answer with no path: it answers with the path made of
    that event alone, whose total is the event's own duration. *)
Theorem same_source_and_target e :
  e ∈ rows ->
  findShortestPath rows (event_id e) (event_id e)
  = Some (PathFound [pathNode e] (duration_minutes e)).
Proof.
  intros He. unfold findShortestPath.
  cbn [dijkstra initialSearch queue visited sortQueue foldr enqueueSorted].
  rewrite bool_decide_eq_false_2 by set_solver.
  rewrite bool_decide_eq_true_2 by reflexivity.
  cbn [previous].
  rewrite (bool_decide_eq_false_2 (event_id e <> event_id e)) by auto.
  rewrite andb_false_r.
  cbn [reconstruct]. rewrite (detailsOf_lookup rows e Hnd He).
  unfold initialSearch. cbn [previous]. rewrite lookup_empty.
  cbn [foldl pathNode pn_duration_minutes].
  reflexivity.
Qed.

(** C1, as amended: in a table of distinct identifiers that holds a root A,
    its child B lasting 10 minutes and B's child C lasting 20, among any
    other events, the path from A to C is A, B, C and its total is the sum
    of the durations of the three events, A's own included: the duration
    of A plus 30; from C to A there is no path. *)
Theorem chain_shortest_path a b c :
  a ∈ rows -> b ∈ rows -> c ∈ rows ->
  event_id a <> [] -> event_id b <> [] ->
  parent_event_id a = None ->
  parent_event_id b = Some (event_id a) ->
  parent_event_id c = Some (event_id b) ->
  duration_minutes b = 10 -> duration_minutes c = 20 ->
  findShortestPath rows (event_id a) (event_id c)
    = Some (PathFound [pathNode a; pathNode b; pathNode c]
              (duration_minutes a + 30))
  /\ findShortestPath rows (event_id c) (event_id a) = Some NoPath.
Proof.
  intros Ha Hb Hc Hna Hnb Hpa Hpb Hpc Hdb Hdc.
  assert (Hab : event_id a <> event_id b).
  { intros Heq. apply (unique_event_id rows) in Heq; auto. subst b. congruence. }
  assert (Hbc : event_id b <> event_id c).
  { intros Heq. apply (unique_event_id rows) in Heq; auto. subst c. congruence. }
  assert (Hac : event_id a <> event_id c).
  { intros Heq. apply (unique_event_id rows) in Heq; auto. subst c. congruence. }
  assert (Hparent : forall x p e, x ∈ rows -> e ∈ rows ->
            event_id e = event_id x -> parent_event_id e = Some p ->
            parent_event_id x = Some p).
  { intros x p e Hx He Hid Hp. apply (unique_event_id rows) in Hid; auto.
    subst e. exact Hp. }
  split.
  - unfold findShortestPath.
    destruct (dijkstra_ends rows (event_id a) (event_id c) Hnd
                (S (S (length rows))) (initialSearch rows (event_id a)) [])
      as (st & -> & [Hlinks Hsrc] & Hend);
      [apply Inv_initial; exact Hnd|apply initial_fuel|].
    assert (Hprev_c : previous st !! event_id c = Some (event_id b)
                      /\ previous st !! event_id b = Some (event_id a)).
    { assert (Hsome : is_Some (previous st !! event_id c)).
      { destruct Hend as [(c0 & HI & Hq)|[Heq|Hsome]]; [exfalso|congruence|exact Hsome].
        assert (Hqd : queued st = []) by (unfold queued; rewrite Hq; reflexivity).
        assert (Hva : event_id a ∈ visited st).
        { destruct (si_source _ _ _ _ _ _ HI) as [Hv|Hv]; [exact Hv|].
          rewrite Hqd in Hv. discriminate. }
        assert (Hvb : event_id b ∈ visited st).
        { destruct (si_children _ _ _ _ _ _ HI b (event_id a))
            as [Hv|[Hv|[_ Hv]]]; auto.
          - rewrite Hqd in Hv. inversion Hv.
          - inversion Hv. }
        assert (Hvc : event_id c ∈ visited st).
        { destruct (si_children _ _ _ _ _ _ HI c (event_id b))
            as [Hv|[Hv|[_ Hv]]]; auto.
          - rewrite Hqd in Hv. inversion Hv.
          - inversion Hv. }
        exact (si_target _ _ _ _ _ _ HI Hvc). }
      destruct Hsome as [p Hp].
      destruct (Hlinks _ _ Hp) as [(e & He & Hid & Hpar) Hback].
      pose proof (Hparent c p e Hc He Hid Hpar) as Hpc'.
      rewrite Hpc in Hpc'. injection Hpc' as <-.
      split; [exact Hp|].
      destruct Hback as [Heq|[q Hq]]; [congruence|].
      destruct (Hlinks _ _ Hq) as [(e' & He' & Hid' & Hpar') _].
      pose proof (Hparent b q e' Hb He' Hid' Hpar') as Hpb'.
      rewrite Hpb in Hpb'. injection Hpb' as <-. exact Hq. }
    destruct Hprev_c as [Hprev_c Hprev_b].
    rewrite bool_decide_eq_false_2 by (rewrite Hprev_c; discriminate).
    cbn [andb reconstruct].
    rewrite (detailsOf_lookup rows c Hnd Hc), Hprev_c.
    destruct rows as [|r0 rows'] eqn:Hrows; [inversion Ha|].
    cbn [length reconstruct]. rewrite <- Hrows in *.
    rewrite (detailsOf_lookup rows b Hnd Hb), Hprev_b.
    cbn [reconstruct].
    rewrite (detailsOf_lookup rows a Hnd Ha), Hsrc.
    rewrite reconstruct_done.
    cbn [foldl pathNode pn_duration_minutes].
    rewrite Hdb, Hdc. do 2 f_equal. lia.
  - unfold findShortestPath.
    destruct (dijkstra_ends rows (event_id c) (event_id a) Hnd
                (S (S (length rows))) (initialSearch rows (event_id c)) [])
      as (st & -> & [Hlinks Hsrc] & _);
      [apply Inv_initial; exact Hnd|apply initial_fuel|].
    assert (Hnone : previous st !! event_id a = None).
    { destruct (previous st !! event_id a) as [p|] eqn:Hp; [|reflexivity].
      destruct (Hlinks _ _ Hp) as [(e & He & Hid & Hpar) _].
      pose proof (Hparent a p e Ha He Hid Hpar). congruence. }
    rewrite bool_decide_eq_true_2 by exact Hnone.
    rewrite bool_decide_eq_true_2 by auto. reflexivity.
Qed.
End ShortestPath.

(** ** The analytics on sample rows *)

Lemma sample_ids_distinct :
  NoDup (event_id <$> [Sample.founding; Sample.research; Sample.review]).
Proof. apply (bool_decide_unpack _). vm_compute. reflexivity. Qed.

(** The three sample events: two overlaps, of 20 and of 10 minutes. *)
Lemma overlapping_pairs_report_witness :
  let rows := [Sample.founding; Sample.research; Sample.review] in
  let out := findOverlappingEvents rows in
  overlap_duration_minutes <$> out = [20; 10]
  /\ StronglySorted longerReported out
  /\ forall a, ~ reports out a a.
Proof.
  intros rows out.
  destruct (overlapping_pairs_report rows sample_ids_distinct)
    as (_ & _ & _ & Hself & _ & Hsorted).
  split; [vm_compute; reflexivity|]. split; [exact Hsorted|exact Hself].
Defined.

(** C5, as stated, fails on two events that overlap by 20 seconds: the
    pair is reported, with an overlap duration of 0 minutes. *)
Lemma short_overlap_reported_as_zero :
  let x := Sample.event 1 "X" (Sample.at_ 10 0 0) (Sample.at_ 10 0 50) None in
  let y := Sample.event 2 "Y" (Sample.at_ 10 0 30) (Sample.at_ 10 1 30) None in
  Z.min (end_date x) (end_date y) - Z.max (start_date x) (start_date y)
    = 20000000
  /\ exists r,
       findOverlappingEvents [x; y] = [r]
       /\ overlappingEventPairs r = (summary x, summary y)
       /\ overlap_duration_minutes r = 0
       /\ ~ 0 < overlap_duration_minutes r.
Proof.
  intros x y. split; [vm_compute; reflexivity|].
  eexists. split; [vm_compute; reflexivity|].
  split; [vm_compute; reflexivity|]. split; [reflexivity|]. simpl. lia.
Qed.

(** The scenarios of the specification: an event of 10:00 to 11:00 and one
    of 10:30 to 11:15 leave no gap; when the second runs from 11:30 the
    gap is of 30 minutes, between the two. *)
Lemma largest_gap_report_witness :
  let e1 := Sample.event 1 "E1" (Sample.at_ 10 0 0) (Sample.at_ 11 0 0) None in
  let e2 := Sample.event 2 "E2" (Sample.at_ 10 30 0) (Sample.at_ 11 15 0) None in
  let e3 := Sample.event 2 "E2" (Sample.at_ 11 30 0) (Sample.at_ 12 0 0) None in
  let from := Sample.at_ 0 0 0 in
  let to := Sample.at_ 23 59 59 in
  findTemporalGaps from to [e1; e2] = None
  /\ findTemporalGaps from to [e1] = None
  /\ exists gap,
       findTemporalGaps from to [e3; e1] = Some gap
       /\ durationMinutes gap = 30
       /\ startOfGap gap = end_date e1
       /\ endOfGap gap = start_date e3
       /\ exists p c,
            consecutive (ordered_events from to [e3; e1]) p c
            /\ end_date p < start_date c.
Proof.
  intros e1 e2 e3 from to.
  destruct (largest_gap_report from to [e1]) as (_ & _ & Hshort & _ & _).
  destruct (largest_gap_report from to [e3; e1]) as (_ & _ & _ & _ & Hsome).
  split; [vm_compute; reflexivity|]. split; [apply Hshort; vm_compute; lia|].
  destruct (findTemporalGaps from to [e3; e1]) as [gap|] eqn:Hgap;
    [|vm_compute in Hgap; discriminate].
  exists gap. split; [reflexivity|].
  destruct (Hsome gap eq_refl) as (p & c & Hpc & Hlt & _ & _).
  assert (Hval : Some gap = Some
            {| startOfGap := end_date e1; endOfGap := start_date e3;
               durationMinutes := 30;
               precedingEvent := (event_id e1, event_name e1, end_date e1);
               succeedingEvent := (event_id e3, event_name e3, start_date e3) |}).
  { rewrite <- Hgap. vm_compute. reflexivity. }
  injection Hval as ->.
  split; [reflexivity|]. split; [reflexivity|]. split; [reflexivity|].
  exists p, c. split; [exact Hpc|exact Hlt].
Defined.

(** The sample chain: the path from the root to the grandchild, and none
    back. *)
Lemma chain_shortest_path_witness :
  let rows := [Sample.founding; Sample.research; Sample.review] in
  findShortestPath rows (event_id Sample.founding) (event_id Sample.review)
    = Some (PathFound
              [pathNode Sample.founding; pathNode Sample.research;
               pathNode Sample.review]
              (duration_minutes Sample.founding + 30))
  /\ findShortestPath rows (event_id Sample.review)
       (event_id Sample.founding) = Some NoPath.
Proof.
  intros rows.
  apply (chain_shortest_path rows sample_ids_distinct
           Sample.founding Sample.research Sample.review).
  - left.
  - right. left.
  - right. right. left.
  - vm_compute. discriminate.
  - vm_compute. discriminate.
  - reflexivity.
  - reflexivity.
  - reflexivity.
  - vm_compute. reflexivity.
  - vm_compute. reflexivity.
Defined.

(** C1, as stated, fails on the sample chain: the child lasts 10 minutes
    and the grandchild 20, the root lasts 90, and the total of the path is
    120, not 30. *)
Lemma chain_total_counts_the_source :
  let rows := [Sample.founding; Sample.research; Sample.review] in
  parent_event_id Sample.founding = None
  /\ parent_event_id Sample.research = Some (event_id Sample.founding)
  /\ parent_event_id Sample.review = Some (event_id Sample.research)
  /\ duration_minutes Sample.research = 10
  /\ duration_minutes Sample.review = 20
  /\ findShortestPath rows (event_id Sample.founding) (event_id Sample.review)
     = Some (PathFound
               [pathNode Sample.founding; pathNode Sample.research;
                pathNode Sample.review] 120)
  /\ 120 <> 30.
Proof.
  intros rows. repeat split; try (vm_compute; reflexivity). lia.
Qed.

(** The sample child as both source and target. *)
Lemma same_source_and_target_witness :
  let rows := [Sample.founding; Sample.research; Sample.review] in
  findShortestPath rows (event_id Sample.research) (event_id Sample.research)
  = Some (PathFound [pathNode Sample.research] 10).
Proof.
  intros rows.
  rewrite (same_source_and_target rows sample_ids_distinct Sample.research).
  - reflexivity.
  - right. left.
Defined.

(** * Further properties of the code *)

(** ** Strings *)

Section StringProperties.

Lemma split_length sep s :
  length (split sep s) = S (length (filter (fun c => c = sep) s)).
Proof.
  induction s as [|c s IH]; [reflexivity|].
  simpl. rewrite filter_cons.
  destruct (N.eqb_spec c sep) as [->|Hne].
  - rewrite decide_True by reflexivity. simpl. rewrite IH. reflexivity.
  - rewrite decide_False by exact Hne.
    destruct (split sep s); simpl in *; [discriminate|exact IH].
Qed.

Lemma split_nonempty sep s : split sep s <> [].
Proof.
  intros Hs. pose proof (split_length sep s) as Hl. rewrite Hs in Hl.
  discriminate.
Qed.

Lemma split_app_sep sep p rest :
  sep ∉ p -> split sep (p ++ sep :: rest) = p :: split sep rest.
Proof.
  induction p as [|c p IH]; intros Hp; simpl.
  - rewrite N.eqb_refl. reflexivity.
  - destruct (N.eqb_spec c sep) as [->|Hne]; [exfalso; apply Hp; left|].
    rewrite IH by (intros Hin; apply Hp; right; exact Hin). reflexivity.
Qed.

Lemma split_no_sep sep p : sep ∉ p -> split sep p = [p].
Proof.
  induction p as [|c p IH]; intros Hp; simpl; [reflexivity|].
  destruct (N.eqb_spec c sep) as [->|Hne]; [exfalso; apply Hp; left|].
  rewrite IH by (intros Hin; apply Hp; right; exact Hin). reflexivity.
Qed.

Lemma split_join sep parts :
  parts <> [] -> Forall (fun p => sep ∉ p) parts ->
  split sep (join sep parts) = parts.
Proof.
  intros Hne Hall. induction Hall as [|p rest Hp Hrest IH]; [contradiction|].
  destruct rest as [|q rest].
  - simpl. apply split_no_sep, Hp.
  - change (join sep (p :: q :: rest)) with (p ++ sep :: join sep (q :: rest)).
    rewrite split_app_sep by exact Hp. rewrite IH by discriminate. reflexivity.
Qed.

Lemma join_split sep s : join sep (split sep s) = s.
Proof.
  induction s as [|c s IH]; [reflexivity|].
  simpl. destruct (N.eqb_spec c sep) as [->|Hne].
  - pose proof (split_nonempty sep s).
    destruct (split sep s) as [|q rest] eqn:Hs; [contradiction|].
    change (join sep ([] :: q :: rest)) with ([] ++ sep :: join sep (q :: rest)).
    rewrite IH. reflexivity.
  - destruct (split sep s) as [|q rest] eqn:Hs.
    + exfalso. eapply split_nonempty, Hs.
    + destruct rest as [|r rest]; simpl in *; rewrite <- IH; reflexivity.
Qed.

Lemma dropWhile_app_stop {A} (p : A -> bool) l x l' :
  Forall (fun c => p c = true) l -> p x = false ->
  dropWhile p (l ++ x :: l') = x :: l'.
Proof.
  intros Hall Hx. induction Hall as [|c l Hc _ IH]; simpl.
  - rewrite Hx. reflexivity.
  - rewrite Hc. exact IH.
Qed.

Lemma dropWhile_all {A} (p : A -> bool) l :
  Forall (fun c => p c = true) l -> dropWhile p l = [].
Proof.
  intros Hall. induction Hall as [|c l Hc _ IH]; simpl; [reflexivity|].
  rewrite Hc. exact IH.
Qed.

(** A string that neither starts nor ends with white space is its own
    trimming. *)
Lemma trim_fixed s :
  (forall c, head s = Some c -> isWhiteSpace c = false) ->
  (forall c, last s = Some c -> isWhiteSpace c = false) ->
  trim s = s.
Proof.
  intros Hh Hl. unfold trim.
  destruct s as [|c s]; [reflexivity|].
  simpl dropWhile at 2. rewrite (Hh c eq_refl).
  destruct (rev (c :: s)) as [|d r] eqn:Hr.
  - apply (f_equal (@rev _)) in Hr. rewrite rev_involutive in Hr. discriminate.
  - assert (Hd : last (c :: s) = Some d).
    { rewrite <- (rev_involutive (c :: s)), Hr. simpl.
      rewrite last_snoc. reflexivity. }
    simpl. rewrite (Hl d Hd). rewrite <- Hr. apply rev_involutive.
Qed.

Lemma dropWhile_head {A} (p : A -> bool) l x :
  head (dropWhile p l) = Some x -> p x = false.
Proof.
  induction l as [|c l IH]; simpl; [discriminate|].
  destruct (p c) eqn:Hc; [exact IH|]. simpl. intros [= <-]. exact Hc.
Qed.

Lemma dropWhile_suffix {A} (p : A -> bool) l : dropWhile p l `suffix_of` l.
Proof.
  induction l as [|c l IH]; simpl; [reflexivity|].
  destruct (p c); [|reflexivity]. apply suffix_cons_r, IH.
Qed.

Lemma last_suffix {A} (l k : list A) x :
  l `suffix_of` k -> last l = Some x -> last k = Some x.
Proof.
  intros [pre ->] Hl. destruct l as [|y l]; [discriminate|].
  rewrite last_app. rewrite Hl. reflexivity.
Qed.

Lemma rev_reverse {A} (l : list A) : rev l = reverse l.
Proof. rewrite rev_alt. reflexivity. Qed.

(** The trimming of a string has no white space at either end. *)
Lemma trim_ends s :
  (forall c, head (trim s) = Some c -> isWhiteSpace c = false)
  /\ (forall c, last (trim s) = Some c -> isWhiteSpace c = false).
Proof.
  unfold trim. split; intros c Hc.
  - rewrite rev_reverse, head_reverse in Hc.
    apply (last_suffix _ _ _ (dropWhile_suffix _ _)) in Hc.
    rewrite rev_reverse, last_reverse in Hc. eapply dropWhile_head, Hc.
  - rewrite rev_reverse, last_reverse in Hc. eapply dropWhile_head, Hc.
Qed.

Lemma trim_idempotent s : trim (trim s) = trim s.
Proof. apply trim_fixed; apply trim_ends. Qed.

Lemma dropWhile_keeps {A} (p : A -> bool) l c :
  c ∈ l -> p c = false -> c ∈ dropWhile p l.
Proof.
  intros Hl Hc. induction l as [|d l IH]; [inversion Hl|]. simpl.
  destruct (p d) eqn:Hd; [|exact Hl].
  apply IH. apply elem_of_cons in Hl as [->|Hl]; [congruence|exact Hl].
Qed.

(** A string that holds a character that is not white space is not blank. *)
Lemma trim_nonblank s c :
  c ∈ s -> isWhiteSpace c = false -> trim s <> [].
Proof.
  intros Hin Hc. unfold trim.
  assert (Hin' : c ∈ rev (dropWhile isWhiteSpace (rev (dropWhile isWhiteSpace s)))).
  { rewrite rev_reverse, elem_of_reverse. apply dropWhile_keeps; [|exact Hc].
    rewrite rev_reverse, elem_of_reverse. apply dropWhile_keeps; assumption. }
  intros Hnil. rewrite Hnil in Hin'. inversion Hin'.
Qed.
End StringProperties.

(** ** Identifiers and lines *)

Section UuidProperties.

Lemma matches_Forall2 pat s :
  matches pat s = true <-> Forall2 (fun p c => p c = true) pat s.
Proof.
  revert s. induction pat as [|p pat IH]; intros [|c s]; simpl.
  - split; [constructor|reflexivity].
  - split; [discriminate|inversion 1].
  - split; [discriminate|inversion 1].
  - rewrite andb_true_iff, IH. split.
    + intros [Hp Hs]. constructor; assumption.
    + inversion 1; subst. auto.
Qed.

Lemma matches_lookup pat s i p c :
  matches pat s = true -> pat !! i = Some p -> s !! i = Some c -> p c = true.
Proof.
  rewrite matches_Forall2. intros Hall Hp Hc.
  exact (Forall2_lookup_lr _ _ _ _ _ _ Hall Hp Hc).
Qed.

Lemma matches_fmap (f : N -> N) pat s :
  Forall (fun p : N -> bool => forall c, p (f c) = p c) pat ->
  matches pat (f <$> s) = matches pat s.
Proof.
  intros Hall. revert s. induction Hall as [|p pat Hp _ IH]; intros [|c s];
    simpl; try reflexivity.
  rewrite Hp, IH. reflexivity.
Qed.

Lemma isHex_not_space c : isHex c = true -> isWhiteSpace c = false.
Proof.
  intros Hh. apply not_true_is_false. revert Hh. unfold isHex, isWhiteSpace.
  rewrite !orb_true_iff, !andb_true_iff, !N.leb_le, !N.eqb_eq. lia.
Qed.

Lemma isHex_not_dash c : isHex c = true -> isDash c = false.
Proof.
  intros Hh. apply not_true_is_false. revert Hh. unfold isHex, isDash.
  rewrite !orb_true_iff, !andb_true_iff, !N.leb_le, !N.eqb_eq. lia.
Qed.

Lemma isVersion_isHex c : isVersion c = true -> isHex c = true.
Proof.
  unfold isHex, isVersion.
  rewrite !orb_true_iff, !andb_true_iff, !N.leb_le. lia.
Qed.

Lemma isVariant_isHex c : isVariant c = true -> isHex c = true.
Proof.
  unfold isHex, isVariant.
  rewrite !orb_true_iff, !andb_true_iff, !N.leb_le, !N.eqb_eq. lia.
Qed.

Lemma toUpperAscii_class (p : N -> bool) :
  p = isHex \/ p = isDash \/ p = isVersion \/ p = isVariant ->
  forall c, p (toUpperAscii c) = p c.
Proof.
  intros Hp c. apply eq_true_iff_eq. unfold toUpperAscii.
  destruct ((97 <=? c)%N && (c <=? 122)%N) eqn:Hlow; [|reflexivity].
  apply andb_true_iff in Hlow as [Hl Hu].
  apply N.leb_le in Hl, Hu.
  destruct Hp as [-> | [-> | [-> | ->]]];
    unfold isHex, isDash, isVersion, isVariant;
    rewrite ?orb_true_iff, ?andb_true_iff, ?N.leb_le, ?N.eqb_eq; lia.
Qed.

(** The classes of the pattern, position by position: a dash at 8, 13, 18
    and 23, the version digit at 14, the variant digit at 19. *)
Lemma uuidPattern_lookup i p :
  uuidPattern !! i = Some p ->
  if bool_decide (i = 8 \/ i = 13 \/ i = 18 \/ i = 23)%nat then p = isDash
  else if bool_decide (i = 14%nat) then p = isVersion
  else if bool_decide (i = 19%nat) then p = isVariant
  else p = isHex.
Proof.
  do 36 (destruct i as [|i]; [intros [= <-]; reflexivity|]). discriminate.
Qed.

Lemma uuidPattern_classes :
  Forall (fun p : N -> bool => forall c, p (toUpperAscii c) = p c) uuidPattern.
Proof.
  apply Forall_lookup. intros i p Hp. apply toUpperAscii_class.
  apply uuidPattern_lookup in Hp.
  repeat case_bool_decide; auto.
Qed.

Lemma isValidUUID_length s : isValidUUID s = true -> length s = 36%nat.
Proof.
  unfold isValidUUID. rewrite matches_Forall2. intros Hall.
  apply Forall2_length in Hall. rewrite <- Hall. reflexivity.
Qed.

Lemma isValidUUID_hex_ends s c :
  isValidUUID s = true -> head s = Some c \/ last s = Some c ->
  isHex c = true.
Proof.
  intros Hv Hc. pose proof (isValidUUID_length s Hv) as Hlen.
  destruct Hc as [Hc|Hc].
  - rewrite head_lookup in Hc.
    exact (matches_lookup uuidPattern s 0 isHex c Hv eq_refl Hc).
  - rewrite last_lookup, Hlen in Hc.
    exact (matches_lookup uuidPattern s 35 isHex c Hv eq_refl Hc).
Qed.

Lemma isValidUUID_trim s : isValidUUID s = true -> trim s = s.
Proof.
  intros Hv. apply trim_fixed; intros c Hc;
    apply isHex_not_space, (isValidUUID_hex_ends s c Hv); auto.
Qed.

(** X4: a string [isValidUUID] accepts has 36 characters, dashes at the
    positions 8, 13, 18 and 23 and nowhere else, a version digit from 1
    to 5 at position 14 and a variant digit 8, 9, a or b at position 19;
    trimming leaves it as it is, and it is not the NULL literal. *)
Theorem valid_uuid_shape s :
  isValidUUID s = true ->
  length s = 36%nat
  /\ (forall i c, s !! i = Some c ->
        isDash c = true <-> (i = 8 \/ i = 13 \/ i = 18 \/ i = 23)%nat)
  /\ (exists c, s !! 14%nat = Some c /\ isVersion c = true)
  /\ (exists c, s !! 19%nat = Some c /\ isVariant c = true)
  /\ trim s = s
  /\ isNullLiteral s = false.
Proof.
  intros Hv. pose proof (isValidUUID_length s Hv) as Hlen.
  split; [exact Hlen|]. split; [|split; [|split; [|split]]].
  - intros i c Hc.
    assert (Hi : (i < 36)%nat) by (rewrite <- Hlen; eapply lookup_lt_Some, Hc).
    destruct (lookup_lt_is_Some_2 uuidPattern i) as [p Hp]; [exact Hi|].
    pose proof (matches_lookup _ _ _ _ _ Hv Hp Hc) as Hpc.
    apply uuidPattern_lookup in Hp. case_bool_decide as Hd.
    + subst p. tauto.
    + assert (Hhex : isHex c = true).
      { repeat case_bool_decide; subst p;
          auto using isVersion_isHex, isVariant_isHex. }
      apply isHex_not_dash in Hhex. rewrite Hhex. split; [discriminate|tauto].
  - destruct (lookup_lt_is_Some_2 s 14) as [c Hc]; [lia|]. exists c.
    split; [exact Hc|].
    exact (matches_lookup uuidPattern s 14 isVersion c Hv eq_refl Hc).
  - destruct (lookup_lt_is_Some_2 s 19) as [c Hc]; [lia|]. exists c.
    split; [exact Hc|].
    exact (matches_lookup uuidPattern s 19 isVariant c Hv eq_refl Hc).
  - apply isValidUUID_trim, Hv.
  - unfold isNullLiteral. apply bool_decide_eq_false. intros Heq.
    apply (f_equal length) in Heq. rewrite length_fmap, Hlen in Heq.
    vm_compute in Heq. discriminate.
Qed.

(** X5: [isValidUUID] ignores the case of the letters: a string and its
    upper-casing are accepted or rejected together. *)
Theorem isValidUUID_ignores_case s :
  isValidUUID (toUpperAscii <$> s) = isValidUUID s.
Proof. apply matches_fmap, uuidPattern_classes. Qed.
End UuidProperties.

Section ParserOutput.
Context `{Platform}.

(** X1: a draft [parseLine] returns comes from a line of exactly six
    fields; its identifier is the trimmed first field and a valid UUID, its
    dates are those of the trimmed third and fourth fields, the start
    strictly before the end; it has no parent exactly when the trimmed
    fifth field is empty or spells NULL in any case, and otherwise its
    parent is that field, a valid UUID; its description is the trimmed
    sixth field, or [null] when that is empty; its metadata name the file
    and the line number, with no parsing flags. *)
Theorem draft_is_well_formed line lineNumber filePath e :
  parseLine line lineNumber filePath = Parsed e ->
  exists eventId eventName startDate endDate parentId description,
    split pipe line
      = [eventId; eventName; startDate; endDate; parentId; description]
    /\ ed_event_id e = trim eventId
    /\ isValidUUID (ed_event_id e) = true
    /\ ed_event_name e = trim eventName
    /\ newDate (trim startDate) = Some (ed_start_date e)
    /\ newDate (trim endDate) = Some (ed_end_date e)
    /\ ed_start_date e < ed_end_date e
    /\ (ed_parent_event_id e = None <->
          trim parentId = [] \/ isNullLiteral (trim parentId) = true)
    /\ (forall p, ed_parent_event_id e = Some p ->
          p = trim parentId /\ isValidUUID p = true)
    /\ (ed_description e = None <-> trim description = [])
    /\ (forall d, ed_description e = Some d -> d = trim description)
    /\ ed_metadata e = {| source_file := filePath;
                          line_number := lineNumber;
                          parsing_flags := [] |}.
Proof.
  unfold parseLine. destruct (truthy (trim line)); simpl; [|discriminate].
  destruct (split pipe line) as [|f1 [|f2 [|f3 [|f4 [|f5 [|f6 [|f7 fs]]]]]]];
    try discriminate.
  destruct (isValidUUID (trim f1)) eqn:Hid; simpl; [|discriminate].
  destruct (newDate (trim f3)) as [t1|] eqn:H1; [|discriminate].
  destruct (newDate (trim f4)) as [t2|] eqn:H2; [|discriminate].
  destruct (Z.geb_spec t1 t2) as [Hge|Hlt]; [discriminate|].
  assert (Hdesc : forall d : option jsstring,
            d = (if truthy (trim f6) then Some (trim f6) else None) ->
            (d = None <-> trim f6 = [])
            /\ (forall d', d = Some d' -> d' = trim f6)).
  { intros d ->. destruct (trim f6); simpl.
    - split; [tauto|discriminate].
    - split; [split; discriminate|]. intros d' [= <-]. reflexivity. }
  destruct (truthy (trim f5) && negb (isNullLiteral (trim f5))) eqn:Hp.
  - destruct (isValidUUID (trim f5)) eqn:Hpv; simpl; [|discriminate].
    intros [= <-]. exists f1, f2, f3, f4, f5, f6. simpl.
    destruct (Hdesc _ eq_refl) as [Hd1 Hd2].
    apply andb_true_iff in Hp as [Ht Hn]. apply negb_true_iff in Hn.
    apply truthy_true in Ht.
    split_and!; try assumption; try reflexivity; try lia.
    + split; [discriminate|]. intros [|]; congruence.
    + intros p [= <-]. auto.
  - intros [= <-]. exists f1, f2, f3, f4, f5, f6. simpl.
    destruct (Hdesc _ eq_refl) as [Hd1 Hd2].
    split_and!; try assumption; try reflexivity; try lia.
    + split; [|reflexivity]. intros _.
      apply andb_false_iff in Hp as [Ht|Hn].
      * left. apply truthy_nil, Ht.
      * right. apply negb_false_iff, Hn.
    + discriminate.
Qed.

(** X2: the field count [parseLine] checks is one more than the number
    of pipe characters of the line: the line is rejected as a malformed
    entry exactly when it is not blank and does not hold five pipes, and
    the count the error reports is the number of pipes plus one. *)
Theorem malformed_entry_counts_pipes line lineNumber filePath k :
  parseLine line lineNumber filePath = Rejected (MalformedEntry k) <->
  trim line <> [] /\ pipes line <> 5%nat /\ k = S (pipes line).
Proof.
  pose proof (split_length pipe line) as Hl. fold (pipes line) in Hl.
  destruct (decide (length (split pipe line) = 6%nat)) as [Hsix|Hne].
  - split; [|intros (_ & Hc & _); lia].
    unfold parseLine. destruct (truthy (trim line)); simpl; [|discriminate].
    destruct (split pipe line) as [|f1 [|f2 [|f3 [|f4 [|f5 [|f6 [|f7 fs]]]]]]];
      try discriminate.
    repeat case_match; discriminate.
  - rewrite (parseLine_wrong_count _ _ _ Hne).
    destruct (truthy (trim line)) eqn:Ht.
    + apply truthy_true in Ht. rewrite Hl. split.
      * intros [= <-]. split; [exact Ht|]. split; [lia|reflexivity].
      * intros (_ & _ & ->). reflexivity.
    + apply truthy_nil in Ht. split; [discriminate|].
      intros (Hb & _). contradiction.
Qed.

(** X3: [parseLine] looks at the trimmed fields only: two lines made of
    fields without pipes, the fields of the one equal to those of the
    other up to surrounding white space, have the same outcome. *)
Theorem parseLine_ignores_padding fields fields' lineNumber filePath :
  Forall (fun f => pipe ∉ f) fields ->
  Forall (fun f => pipe ∉ f) fields' ->
  Forall2 (fun f f' => trim f = trim f') fields fields' ->
  parseLine (join pipe fields) lineNumber filePath
  = parseLine (join pipe fields') lineNumber filePath.
Proof.
  intros Hn Hn' Hall.
  destruct Hall as [|f1 g1 fs gs H1 Hall]; [reflexivity|].
  assert (Hblank : truthy (trim (join pipe (f1 :: fs)))
                   = truthy (trim (join pipe (g1 :: gs)))).
  { inversion Hall as [|f2 g2 fs' gs' H2 Hall']; subst.
    - simpl. rewrite H1. reflexivity.
    - transitivity true; [|symmetry]; apply truthy_true;
        apply (trim_nonblank _ pipe); try reflexivity;
        change (join pipe (?a :: ?b :: ?c)) with (a ++ pipe :: join pipe (b :: c));
        apply elem_of_app; right; left. }
  unfold parseLine. rewrite <- Hblank.
  destruct (truthy (trim (join pipe (f1 :: fs)))); cbn [negb]; [|reflexivity].
  rewrite !split_join by (assumption || discriminate).
  destruct Hall as [|f2 g2 fs gs H2 Hall]; [reflexivity|].
  destruct Hall as [|f3 g3 fs gs H3 Hall]; [reflexivity|].
  destruct Hall as [|f4 g4 fs gs H4 Hall]; [reflexivity|].
  destruct Hall as [|f5 g5 fs gs H5 Hall]; [reflexivity|].
  destruct Hall as [|f6 g6 fs gs H6 Hall]; [reflexivity|].
  destruct Hall as [|f7 g7 fs gs H7 Hall].
  - rewrite H1, H2, H3, H4, H5, H6. reflexivity.
  - apply Forall2_length in Hall. simpl. rewrite Hall. reflexivity.
Qed.
End ParserOutput.

(** ** The ledger *)

Section LedgerProperties.
Context `{Platform}.

Lemma rowLocal_query jobId (f : Job -> Job) :
  (forall j, job_id (f j) = job_id j /\ file_path (f j) = file_path j
             /\ start_time (f j) = start_time j) ->
  rowLocal jobId (query (IngestionJob.updateRow jobId f)).
Proof.
  intros Hf w. unfold query, IngestionJob.updateRow.
  destruct (queryError (issued w)); cbn [fst snd ledger].
  - split; [reflexivity|].
    destruct (ledger w !! jobId) as [j|] eqn:Hj.
    + exists j. repeat split; try reflexivity. discriminate.
    + split; [reflexivity|discriminate].
  - split; [intros k Hk; apply lookup_alter_ne; congruence|].
    rewrite lookup_alter_eq.
    destruct (ledger w !! jobId) as [j|] eqn:Hj; simpl.
    + exists (f j). destruct (Hf j) as (? & ? & ?).
      repeat split; try assumption. intros r [= <-]. reflexivity.
    + split; [reflexivity|]. intros r [= <-]. reflexivity.
Qed.

Lemma rowLocal_now jobId (k : Z -> M (option Job)) :
  (forall t, rowLocal jobId (k t)) -> rowLocal jobId (bind now k).
Proof. intros Hk w. unfold bind, now. apply Hk. Qed.

(** X7: [updateProgress], [addError], [complete] and [fail] are local to
    the row they address: whatever the ledger answers, every other row
    stays as it is, the row is neither created nor deleted, and its
    identifier, file path and start time stay; on an identifier the ledger
    does not hold they change nothing and answer [undefined]. *)
Theorem ledger_updates_are_row_local jobId u msg :
  rowLocal jobId (IngestionJob.updateProgress jobId u)
  /\ rowLocal jobId (IngestionJob.addError jobId msg)
  /\ rowLocal jobId (IngestionJob.complete jobId)
  /\ rowLocal jobId (IngestionJob.fail jobId msg).
Proof.
  split; [|split; [|split]].
  - unfold IngestionJob.updateProgress. destruct (_ || _).
    + apply rowLocal_query. intros j. repeat split; reflexivity.
    + intros w. unfold throw. cbn [fst snd]. split; [reflexivity|].
      destruct (ledger w !! jobId) as [j|] eqn:Hj.
      * exists j. repeat split; try reflexivity. discriminate.
      * split; [reflexivity|discriminate].
  - apply rowLocal_query. intros j. repeat split; reflexivity.
  - apply rowLocal_now. intros t. apply rowLocal_query.
    intros j. repeat split; reflexivity.
  - apply rowLocal_now. intros t. apply rowLocal_query.
    intros j. repeat split; reflexivity.
Qed.

(** X6: when the ledger answers both queries, [create] of an identifier
    it does not hold followed by [findById] gives back the job created,
    with the status given, counters at zero, no errors and the time of
    creation as start time, the other rows being untouched; [create] of an
    identifier it holds already throws and leaves the row found as it
    was. *)
Theorem create_then_findById jobId filePath st w :
  queryError (issued w) = None ->
  queryError (S (issued w)) = None ->
  (ledger w !! jobId = None ->
     exists w1 w2,
       let job := {| job_id := jobId; status := st; file_path := filePath;
                     total_lines := 0; processed_lines := 0; error_lines := 0;
                     errors := []; start_time := clock w; end_time := None |} in
       IngestionJob.create jobId filePath st w = (Returned job, w1)
       /\ IngestionJob.findById jobId w1 = (Returned (Some job), w2)
       /\ ledger w2 = <[jobId := job]> (ledger w)
       /\ forall k, k <> jobId -> ledger w2 !! k = ledger w !! k)
  /\ (forall old, ledger w !! jobId = Some old ->
        exists msg w1 w2,
          IngestionJob.create jobId filePath st w = (Thrown msg, w1)
          /\ IngestionJob.findById jobId w1 = (Returned (Some old), w2)
          /\ ledger w2 = ledger w).
Proof.
  intros Hq1 Hq2.
  unfold IngestionJob.create, IngestionJob.findById, bind, now, query.
  rewrite Hq1. split.
  - intros Hfresh. rewrite Hfresh. do 2 eexists. cbn zeta.
    split; [reflexivity|]. cbn [issued ledger]. rewrite Hq2.
    rewrite lookup_insert_eq. split; [reflexivity|].
    cbn [ledger]. split; [reflexivity|].
    intros k Hk. apply lookup_insert_ne. congruence.
  - intros old Hold. rewrite Hold. do 3 eexists.
    split; [reflexivity|]. cbn [issued ledger]. rewrite Hq2, Hold.
    split; reflexivity.
Qed.
End LedgerProperties.

Section GetAllProperties.
Import IngestionJob.

Global Instance newerFirst_total : Total newerFirst.
Proof. intros r1 r2. unfold newerFirst. lia. Qed.

Global Instance newerFirst_trans : Transitive newerFirst.
Proof. intros r1 r2 r3. unfold newerFirst. lia. Qed.

End GetAllProperties.

(** ** Runs of the controller *)

Section Runs.
Context `{Platform}.
Variables (jobId filePath : jsstring).

Lemma bind_Returned {A B} (m : M A) (k : A -> M B) w b w' :
  bind m k w = (Returned b, w') ->
  exists a w1, m w = (Returned a, w1) /\ k a w1 = (Returned b, w').
Proof.
  unfold bind. destruct (m w) as [[a|msg] w1]; [|discriminate]. eauto.
Qed.

(** An update of the row that the ledger has answered. *)
Lemma updateRow_Returned f w r w' :
  query (IngestionJob.updateRow jobId f) w = (Returned r, w') ->
  r = f <$> ledger w !! jobId
  /\ ledger w' = alter f jobId (ledger w)
  /\ commits w' = commits w /\ events w' = events w.
Proof.
  unfold query, IngestionJob.updateRow.
  destruct (queryError (issued w)); [discriminate|].
  intros [= <- <-]. auto.
Qed.

Lemma complaints_app from l1 l2 :
  complaints filePath from (l1 ++ l2)
  = complaints filePath from l1
    ++ complaints filePath (from + Z.of_nat (length l1)) l2.
Proof.
  revert from. induction l1 as [|x l1 IH]; intros from; simpl.
  - rewrite Z.add_0_r. reflexivity.
  - rewrite IH. replace (from + 1 + Z.of_nat (length l1))
      with (from + Z.pos (Pos.of_succ_nat (length l1))) by lia.
    destruct (parseLine x (from + 1) filePath); reflexivity.
Qed.

Lemma loopRun_nil v w j :
  ledger w !! jobId = Some j ->
  (length (eventBatch v) < batchSize)%nat ->
  loopRun jobId filePath [] v w j v w [].
Proof.
  intros Hj Hb. unfold loopRun. simpl. rewrite ?app_nil_r.
  split_and!; [lia|reflexivity|reflexivity|constructor|assumption|lia|lia|].
  exists j. auto.
Qed.

(** One line. *)
Lemma forLine_run line v w j v' w' :
  ledger w !! jobId = Some j ->
  (length (eventBatch v) < batchSize)%nat ->
  forLine jobId filePath line v w = (Returned v', w') ->
  exists bs, loopRun jobId filePath [line] v w j v' w' bs.
Proof.
  intros Hj Hroom Hrun. unfold forLine in Hrun.
  apply bind_Returned in Hrun as (v1 & w1 & Hparse & Hrun).
  apply bind_Returned in Hrun as (v2 & w2 & Hbatch & Hrep).
  unfold batchSize in *.
  (* tryParse *)
  assert (H1 : lineNumber v1 = lineNumber v + 1
               /\ commits w1 = commits w
               /\ eventBatch v1
                  = eventBatch v ++ drafts filePath (lineNumber v) [line]
               /\ processedLines v1
                  = processedLines v
                    + Z.of_nat (length (drafts filePath (lineNumber v) [line]))
               /\ errorLines v1
                  = errorLines v
                    + Z.of_nat (length (complaints filePath (lineNumber v) [line]))
               /\ exists j1,
                    ledger w1 !! jobId = Some j1
                    /\ errors j1
                       = errors j ++ complaints filePath (lineNumber v) [line]
                    /\ status j1 = status j /\ total_lines j1 = total_lines j
                    /\ end_time j1 = end_time j).
  { unfold tryParse in Hparse. simpl.
    destruct (parseLine line (lineNumber v + 1) filePath) as [|e|err].
    - injection Hparse as <- <-. simpl. rewrite ?app_nil_r, ?Z.add_0_r.
      split_and!; try reflexivity. exists j. auto.
    - injection Hparse as <- <-. simpl. rewrite ?app_nil_r, ?Z.add_0_r.
      split_and!; try reflexivity. exists j. auto.
    - apply bind_Returned in Hparse as (r & w0 & Hadd & Hret).
      injection Hret as <- <-.
      apply updateRow_Returned in Hadd as (_ & Hl & Hc & _).
      simpl. rewrite ?app_nil_r, ?Z.add_0_r.
      split_and!; try reflexivity; [exact Hc|].
      eexists. rewrite Hl, lookup_alter_eq, Hj. simpl.
      split; [reflexivity|]. auto. }
  destruct H1 as (Hn1 & Hc1 & Hb1 & Hp1 & He1 & j1 & Hj1 & Herr1 & Hs1 & Ht1 & Hend1).
  assert (Hlen1 : (length (eventBatch v1) <= 100)%nat).
  { rewrite Hb1, length_app. simpl.
    destruct (parseLine line (lineNumber v + 1) filePath); simpl; lia. }
  (* processBatch *)
  assert (H2 : lineNumber v2 = lineNumber v1
               /\ ledger w2 = ledger w1
               /\ processedLines v2 <= processedLines v1
               /\ errorLines v1 <= errorLines v2
               /\ (length (eventBatch v2) < 100)%nat
               /\ exists bs,
                    commits w2 = reverse bs ++ commits w1
                    /\ concat bs ++ eventBatch v2 = eventBatch v1
                    /\ Forall (fun b => length b = 100%nat) bs).
  { unfold processBatch, batchSize in Hbatch. case_bool_decide as Hfull.
    - apply bind_Returned in Hbatch as (ok & w0 & Hcommit & Hret).
      unfold commitBatch in Hcommit.
      assert (Hw0 : ledger w0 = ledger w1
                    /\ commits w0 = eventBatch v1 :: commits w1).
      { destruct (bulkCreate (events w1) (eventBatch v1));
          injection Hcommit as <- <-; auto. }
      destruct Hw0 as [Hl0 Hc0].
      assert (Hv2 : lineNumber v2 = lineNumber v1 /\ eventBatch v2 = []
                    /\ processedLines v2 <= processedLines v1
                    /\ errorLines v1 <= errorLines v2 /\ w2 = w0).
      { destruct ok; injection Hret as <- <-; simpl; repeat split; lia. }
      destruct Hv2 as (-> & -> & ? & ? & ->).
      split_and!; try assumption; try reflexivity; [simpl; lia|].
      exists [eventBatch v1]. simpl. rewrite !app_nil_r.
      split_and!; [exact Hc0|reflexivity|]. constructor; [lia|constructor].
    - injection Hbatch as <- <-. split_and!; try reflexivity; try lia.
      exists []. split_and!; try reflexivity. constructor. }
  destruct H2 as (Hn2 & Hl2 & Hp2 & He2 & Hroom2 & bs & Hc2 & Hb2 & Hsz).
  (* reportProgress *)
  assert (H3 : v' = v2 /\ commits w' = commits w2
               /\ exists j',
                    ledger w' !! jobId = Some j'
                    /\ errors j' = errors j1 /\ status j' = status j1
                    /\ total_lines j' = total_lines j1
                    /\ end_time j' = end_time j1).
  { unfold reportProgress in Hrep. destruct (_ =? _).
    - apply bind_Returned in Hrep as (r & w0 & Hup & Hret).
      injection Hret as <- <-.
      unfold IngestionJob.updateProgress in Hup. simpl in Hup.
      apply updateRow_Returned in Hup as (_ & Hl & Hc & _).
      split_and!; [reflexivity|exact Hc|].
      eexists. rewrite Hl, lookup_alter_eq, Hl2, Hj1. simpl.
      split; [reflexivity|]. auto.
    - injection Hrep as <- <-. split_and!; try reflexivity.
      exists j1. rewrite Hl2. auto. }
  destruct H3 as (-> & Hc3 & j' & Hj' & Herr' & Hs' & Ht' & Hend').
  exists bs. unfold loopRun, batchSize.
  split; [simpl; lia|]. split; [congruence|].
  split; [rewrite Hb2; exact Hb1|]. split; [exact Hsz|].
  split; [exact Hroom2|]. split; [lia|]. split; [lia|].
  exists j'. split_and!; congruence.
Qed.

(** Runs compose. *)
Lemma loopRun_app l1 l2 v w j v1 w1 j1 v2 w2 bs1 bs2 :
  loopRun jobId filePath l1 v w j v1 w1 bs1 ->
  ledger w1 !! jobId = Some j1 ->
  loopRun jobId filePath l2 v1 w1 j1 v2 w2 bs2 ->
  loopRun jobId filePath (l1 ++ l2) v w j v2 w2 (bs1 ++ bs2).
Proof.
  intros (Hn1 & Hc1 & Hb1 & Hs1 & Hr1 & Hp1 & He1 & j1' & Hj1 & Herr1 & Hst1 & Ht1 & Hend1)
    Hj1' (Hn2 & Hc2 & Hb2 & Hs2 & Hr2 & Hp2 & He2 & j2 & Hj2 & Herr2 & Hst2 & Ht2 & Hend2).
  assert (j1' = j1) as -> by congruence.
  unfold loopRun. rewrite length_app, drafts_app, complaints_app, <- Hn1.
  rewrite !length_app in *.
  split; [lia|]. split; [rewrite Hc2, Hc1, reverse_app, app_assoc; reflexivity|].
  split; [rewrite concat_app, <- app_assoc, Hb2, !app_assoc, Hb1; reflexivity|].
  split; [apply Forall_app; auto|]. split; [exact Hr2|].
  split; [lia|]. split; [lia|].
  exists j2. rewrite app_assoc, <- Herr1. split_and!; congruence.
Qed.

(** The loop. *)
Lemma forEachLine_run lines : forall v w j v' w',
  ledger w !! jobId = Some j ->
  (length (eventBatch v) < batchSize)%nat ->
  forEachLine jobId filePath lines v w = (Returned v', w') ->
  exists bs, loopRun jobId filePath lines v w j v' w' bs.
Proof.
  induction lines as [|line rest IH]; intros v w j v' w' Hj Hroom Hrun.
  - injection Hrun as <- <-. exists []. apply loopRun_nil; assumption.
  - cbn [forEachLine] in Hrun.
    apply bind_Returned in Hrun as (v1 & w1 & Hline & Hrest).
    destruct (forLine_run line v w j v1 w1 Hj Hroom Hline) as (bs1 & H1).
    pose proof H1 as (_ & _ & _ & _ & Hroom1 & _ & _ & j1 & Hj1 & _).
    destruct (IH v1 w1 j1 v' w' Hj1 Hroom1 Hrest) as (bs2 & H2).
    exists (bs1 ++ bs2).
    exact (loopRun_app [line] rest v w j v1 w1 j1 v' w' bs1 bs2 H1 Hj1 H2).
Qed.
End Runs.

Section CompletedRuns.
Context `{Platform}.
Variables (jobId filePath : jsstring) (lines : list jsstring).
Hypothesis Hfile : fs filePath = Some (RegularFile true lines).

(** A job found COMPLETED after [processFile] is one whose [try] block ran
    to its end. *)
Lemma completed_means_returned w job' :
  processing jobId w ->
  ledger (processFile jobId filePath w).2 !! jobId = Some job' ->
  status job' = COMPLETED ->
  exists w', processFileBody jobId filePath w = (Returned tt, w')
             /\ processFile jobId filePath w = (Returned tt, w').
Proof.
  intros Hw. unfold processFile, try_catch.
  pose proof (triple_processFileBody jobId filePath lines Hfile w Hw) as Hbody.
  destruct (processFileBody jobId filePath w) as [[[]|msg] w1].
  - intros _ _. eauto.
  - destruct Hbody as (j & Hj & Hs).
    unfold IngestionJob.fail, bind, now, query, ret.
    destruct (queryError (issued w1)); cbn [snd ledger].
    + intros Hl Hc. rewrite Hj in Hl. injection Hl as <-. congruence.
    + simpl. rewrite lookup_alter_eq, Hj. simpl.
      intros [= <-]. discriminate.
Qed.

(** The [try] block that ran to its end. *)
Lemma processFileBody_run w w' job :
  ledger w !! jobId = Some job ->
  processFileBody jobId filePath w = (Returned tt, w') ->
  exists batches job',
    commits w' = reverse batches ++ commits w
    /\ concat batches = drafts filePath 0 lines
    /\ Forall (fun b => (0 < length b <= batchSize)%nat) batches
    /\ (forall i b, batches !! i = Some b -> (S i < length batches)%nat ->
          length b = batchSize)
    /\ ledger w' !! jobId = Some job'
    /\ status job' = COMPLETED
    /\ total_lines job' = Z.of_nat (length lines)
    /\ errors job' = errors job ++ complaints filePath 0 lines
    /\ processed_lines job' <= Z.of_nat (length (drafts filePath 0 lines))
    /\ Z.of_nat (length (complaints filePath 0 lines)) <= error_lines job'
    /\ is_Some (end_time job').
Proof.
  intros Hjob Hrun. unfold processFileBody, countLines, readLines in Hrun.
  rewrite Hfile in Hrun.
  apply bind_Returned in Hrun as (n & w0 & Hcount & Hrun).
  injection Hcount as <- <-.
  apply bind_Returned in Hrun as (r1 & w1 & Htotal & Hrun).
  unfold IngestionJob.updateProgress in Htotal. simpl in Htotal.
  apply updateRow_Returned in Htotal as (_ & Hl1 & Hc1 & _).
  apply bind_Returned in Hrun as (ls & w1' & Hread & Hrun).
  injection Hread as <- <-.
  apply bind_Returned in Hrun as (v & w2 & Hloop & Hrun).
  apply bind_Returned in Hrun as (v' & w3 & Hlast & Hrun).
  apply bind_Returned in Hrun as (t & w3' & Hnow & Hrun).
  injection Hnow as <- <-.
  apply bind_Returned in Hrun as (r2 & w4 & Hdone & Hret).
  injection Hret as <-.
  unfold IngestionJob.updateProgress in Hdone. simpl in Hdone.
  apply updateRow_Returned in Hdone as (_ & Hl4 & Hc4 & _).
  assert (Hj1 : ledger w1 !! jobId
                = Some (IngestionJob.applyUpdates
                          {| u_status := None;
                             u_total_lines := Some (Z.of_nat (length lines));
                             u_processed_lines := None; u_error_lines := None;
                             u_errors := None; u_end_time := None |} job)).
  { rewrite Hl1, lookup_alter_eq, Hjob. reflexivity. }
  apply (forEachLine_run jobId filePath lines _ _ _ _ _ Hj1) in Hloop
    as (bs & Hn & Hc2 & Hb & Hsz & Hroom & Hp & He & j2 & Hj2 & Herr2 & Hs2 & Ht2 & _);
    [|unfold batchSize; simpl; lia].
  cbn [lineNumber processedLines errorLines eventBatch app] in *.
  assert (Hlast' : ledger w3 = ledger w2
            /\ processedLines v' <= processedLines v
            /\ errorLines v <= errorLines v'
            /\ exists last,
                 commits w3 = reverse last ++ commits w2
                 /\ concat last = eventBatch v
                 /\ (last = [] \/ last = [eventBatch v] /\ eventBatch v <> [])).
  { unfold lastBatch in Hlast. case_bool_decide as Hsome.
    - apply bind_Returned in Hlast as (ok & w0 & Hcommit & Hret).
      unfold commitBatch in Hcommit.
      assert (Hw0 : ledger w0 = ledger w2
                    /\ commits w0 = eventBatch v :: commits w2).
      { destruct (bulkCreate (events w2) (eventBatch v));
          injection Hcommit as <- <-; auto. }
      destruct Hw0 as [Hl0 Hc0].
      assert (Hv : processedLines v' <= processedLines v
                   /\ errorLines v <= errorLines v' /\ w3 = w0).
      { destruct ok; injection Hret as <- <-; simpl; repeat split; lia. }
      destruct Hv as (? & ? & ->).
      split_and!; try assumption.
      exists [eventBatch v]. simpl. rewrite app_nil_r.
      split_and!; [exact Hc0|reflexivity|]. right. split; [reflexivity|].
      intros Hnil. rewrite Hnil in Hsome. simpl in Hsome. lia.
    - injection Hlast as <- <-. split_and!; try reflexivity; try lia.
      exists []. split_and!; try reflexivity.
      destruct (eventBatch v); [reflexivity|simpl in Hsome; lia]. left. reflexivity. }
  destruct Hlast' as (Hl3 & Hp3 & He3 & last & Hc3 & Hcl & Hshape).
  exists (bs ++ last). eexists.
  split; [rewrite Hc4, Hc3, Hc2, Hc1, reverse_app, app_assoc; reflexivity|].
  split; [rewrite concat_app, Hcl; exact Hb|].
  split.
  { apply Forall_app. split.
    - eapply Forall_impl; [exact Hsz|]. intros b Hb'. simpl in Hb'.
      rewrite Hb'. unfold batchSize. lia.
    - destruct Hshape as [->|[-> Hne]]; constructor; [|constructor].
      destruct (eventBatch v); [contradiction|simpl in *; lia]. }
  split.
  { intros i b Hib Hi. rewrite Forall_forall in Hsz.
    apply Hsz. apply (list_elem_of_lookup_2 _ i).
    rewrite lookup_app_l in Hib; [exact Hib|].
    rewrite length_app in Hi.
    destruct Hshape as [->|[-> _]]; simpl in Hi; lia. }
  rewrite Hl4, lookup_alter_eq, Hl3, Hj2. cbn [fmap option_fmap option_map].
  split; [reflexivity|]. simpl.
  split_and!; try reflexivity; try lia; try congruence; try eauto.
Qed.
(** X10: when the job of a readable file has completed, the batches
    [processFile] has handed to [bulkCreate] are, put end to end in the
    order of the calls, the drafts of the lines of the file in the order
    of the lines: no draft is left out and none is handed over twice. No
    batch is empty, every batch but the last holds exactly 100 drafts, and
    [processed_lines] is at most the number of drafts. *)
Theorem completed_job_committed_every_draft w job' :
  processing jobId w ->
  ledger (processFile jobId filePath w).2 !! jobId = Some job' ->
  status job' = COMPLETED ->
  exists batches,
    commits (processFile jobId filePath w).2 = reverse batches ++ commits w
    /\ concat batches = drafts filePath 0 lines
    /\ Forall (fun b => (0 < length b <= batchSize)%nat) batches
    /\ (forall i b, batches !! i = Some b -> (S i < length batches)%nat ->
          length b = batchSize)
    /\ processed_lines job' <= Z.of_nat (length (drafts filePath 0 lines)).
Proof.
  intros Hw Hjob' Hdone.
  destruct (completed_means_returned w job' Hw Hjob' Hdone) as (w' & Hbody & Hrun).
  rewrite Hrun in *. cbn [snd] in *.
  destruct Hw as (job & Hjob & _).
  destruct (processFileBody_run w w' job Hjob Hbody)
    as (batches & j & Hc & Hcat & Hsz & Hfull & Hj & _ & _ & _ & Hp & _).
  assert (j = job') as -> by congruence.
  exists batches. auto.
Qed.

(** X11: when the job of a readable file has completed, its error list
    is the list it had, followed by one entry per line [parseLine] has
    rejected, in the order of the lines, each made of the line number and
    the message of the error; [error_lines] is at least the number of these
    entries. *)
Theorem completed_job_lists_rejected_lines w job job' :
  ledger w !! jobId = Some job ->
  status job = PROCESSING ->
  ledger (processFile jobId filePath w).2 !! jobId = Some job' ->
  status job' = COMPLETED ->
  errors job' = errors job ++ complaints filePath 0 lines
  /\ Z.of_nat (length (complaints filePath 0 lines)) <= error_lines job'.
Proof.
  intros Hjob Hstatus Hjob' Hdone.
  assert (Hw : processing jobId w) by (exists job; auto).
  destruct (completed_means_returned w job' Hw Hjob' Hdone) as (w' & Hbody & Hrun).
  rewrite Hrun in *. cbn [snd] in *.
  destruct (processFileBody_run w w' job Hjob Hbody)
    as (batches & j & _ & _ & _ & _ & Hj & _ & _ & Herr & _ & He & _).
  assert (j = job') as -> by congruence.
  auto.
Qed.
End CompletedRuns.

Section Liveness.
Context `{Platform}.
Variables (jobId filePath : jsstring).
Hypothesis Hq : forall n, queryError n = None.

Lemma query_accepted f w :
  query (IngestionJob.updateRow jobId f) w
  = (Returned (f <$> ledger w !! jobId),
     afterQuery (alter f jobId (ledger w)) w).
Proof. unfold query. rewrite Hq. reflexivity. Qed.

Lemma forLine_total line v w :
  exists v' w', forLine jobId filePath line v w = (Returned v', w').
Proof.
  unfold forLine, bind.
  assert (H1 : exists v1 w1,
            tryParse jobId filePath line v w = (Returned v1, w1)).
  { unfold tryParse. destruct (parseLine _ _ _); [eauto|eauto|].
    unfold bind, IngestionJob.addError. rewrite query_accepted. eauto. }
  destruct H1 as (v1 & w1 & ->).
  assert (H2 : exists v2 w2, processBatch v1 w1 = (Returned v2, w2)).
  { unfold processBatch. case_bool_decide; [|eauto].
    unfold bind, commitBatch.
    destruct (bulkCreate (events w1) (eventBatch v1)); eauto. }
  destruct H2 as (v2 & w2 & ->).
  unfold reportProgress. destruct (_ =? _); [|eauto].
  unfold bind, IngestionJob.updateProgress. simpl.
  rewrite query_accepted. eauto.
Qed.

Lemma forEachLine_total lines : forall v w,
  exists v' w', forEachLine jobId filePath lines v w = (Returned v', w').
Proof.
  induction lines as [|line rest IH]; intros v w; [simpl; eauto|].
  cbn [forEachLine]. unfold bind.
  destruct (forLine_total line v w) as (v1 & w1 & ->). apply IH.
Qed.

Lemma processFileBody_total lines w :
  fs filePath = Some (RegularFile true lines) ->
  exists w', processFileBody jobId filePath w = (Returned tt, w').
Proof.
  intros Hfile. unfold processFileBody, countLines, readLines.
  rewrite Hfile. unfold bind at 1 2. unfold ret at 1 2.
  unfold bind at 1. unfold IngestionJob.updateProgress. simpl.
  rewrite query_accepted. unfold bind at 1. unfold ret at 1.
  unfold bind at 1.
  destruct (forEachLine_total lines
              {| lineNumber := 0; processedLines := 0; errorLines := 0;
                 eventBatch := [] |}
              (afterQuery
                 (alter (IngestionJob.applyUpdates
                           {| u_status := None;
                              u_total_lines := Some (Z.of_nat (length lines));
                              u_processed_lines := None; u_error_lines := None;
                              u_errors := None; u_end_time := None |})
                    jobId (ledger w)) w)) as (v & w2 & Hloop).
  unfold IngestionJob.applyUpdates in Hloop. simpl in Hloop.
  unfold IngestionJob.applyUpdates. simpl.
  rewrite Hloop. unfold bind at 1.
  assert (Hlast : exists v' w3, lastBatch v w2 = (Returned v', w3)).
  { unfold lastBatch. case_bool_decide; [|eauto].
    unfold bind, commitBatch.
    destruct (bulkCreate (events w2) (eventBatch v)); eauto. }
  destruct Hlast as (v' & w3 & ->).
  unfold bind, now. simpl. rewrite query_accepted. eauto.
Qed.

(** X12: with a ledger that answers every query, [processFile] on a job
    in PROCESSING state returns, and leaves the job in a terminal state
    with an end time: COMPLETED, with the number of lines as total, when
    the file could be read, and otherwise FAILED, its counters as they
    were and the reason appended to its errors. *)
Theorem every_job_reaches_a_terminal_state w job :
  ledger w !! jobId = Some job ->
  status job = PROCESSING ->
  exists w' job',
    processFile jobId filePath w = (Returned tt, w')
    /\ ledger w' !! jobId = Some job'
    /\ is_Some (end_time job')
    /\ match fs filePath with
       | Some (RegularFile true lines) =>
           status job' = COMPLETED
           /\ total_lines job' = Z.of_nat (length lines)
       | _ =>
           status job' = FAILED
           /\ total_lines job' = total_lines job
           /\ processed_lines job' = processed_lines job
           /\ error_lines job' = error_lines job
           /\ exists reason,
                errors job'
                = errors job ++ [str "Processing failed: " ++ reason]
       end.
Proof.
  intros Hjob Hstatus.
  assert (Hfail : forall msg,
            processFileBody jobId filePath w = (Thrown msg, w) ->
            exists w' job',
              processFile jobId filePath w = (Returned tt, w')
              /\ ledger w' !! jobId = Some job'
              /\ is_Some (end_time job')
              /\ status job' = FAILED
              /\ total_lines job' = total_lines job
              /\ processed_lines job' = processed_lines job
              /\ error_lines job' = error_lines job
              /\ exists reason,
                   errors job'
                   = errors job ++ [str "Processing failed: " ++ reason]).
  { intros msg Hbody. unfold processFile, try_catch. rewrite Hbody.
    unfold IngestionJob.fail, bind, now. rewrite query_accepted.
    do 2 eexists. split; [reflexivity|]. cbn [ledger afterQuery].
    rewrite lookup_alter_eq, Hjob. simpl. split; [reflexivity|].
    split_and!; eauto. }
  destruct (fs filePath) as [[[|] lines|]|] eqn:Hfile.
  - destruct (processFileBody_total lines w Hfile) as (w' & Hbody).
    destruct (processFileBody_run jobId filePath lines Hfile w w' job Hjob Hbody)
      as (_ & job' & _ & _ & _ & _ & Hj & Hs & Ht & _ & _ & _ & Hend).
    exists w', job'. unfold processFile, try_catch. rewrite Hbody. auto.
  - destruct (Hfail (str "EACCES: permission denied, open '" ++ filePath
                     ++ str "'")) as (w' & job' & ? & ? & ? & ?).
    { unfold processFileBody, countLines, readLines. rewrite Hfile.
      reflexivity. }
    exists w', job'. auto.
  - destruct (Hfail (str "EISDIR: illegal operation on a directory, read"))
      as (w' & job' & ? & ? & ? & ?).
    { unfold processFileBody, countLines, readLines. rewrite Hfile.
      reflexivity. }
    exists w', job'. auto.
  - destruct (Hfail (str "ENOENT: no such file or directory, open '"
                     ++ filePath ++ str "'")) as (w' & job' & ? & ? & ? & ?).
    { unfold processFileBody, countLines, readLines. rewrite Hfile.
      reflexivity. }
    exists w', job'. auto.
Qed.
End Liveness.

Section Polling.
Context `{Platform}.

(** X9: the identifier [startIngestion] returns can be polled at once:
    when the ledger answers, [getJobStatus] on it returns the job in
    PROCESSING state with all counters at zero, no errors and no times,
    and leaves the ledger as it is; the message of [startIngestion] names
    the same identifier, which is also the one handed to the task. *)
Theorem started_job_can_be_polled filePath w started task w' :
  startIngestion filePath w = (Returned (started, task), w') ->
  queryError (issued w') = None ->
  task = (s_jobId started, filePath)
  /\ s_message started
     = str "Check /api/events/ingestion-status/" ++ s_jobId started
       ++ str " for updates."
  /\ exists w'',
       getJobStatus (s_jobId started) w'
       = (Returned {| r_jobId := s_jobId started; r_status := PROCESSING;
                      r_processedLines := 0; r_errorLines := 0;
                      r_totalLines := 0; r_errors := []; r_times := None |},
          w'')
       /\ ledger w'' = ledger w'.
Proof.
  unfold startIngestion, generateJobId, access, IngestionJob.create,
    try_catch, bind, query, now, ret, throw.
  simpl. destruct (fs filePath); simpl; [|discriminate].
  destruct (queryError (issued w)); simpl; [discriminate|].
  destruct (ledger w !! _) eqn:Hfresh; simpl; [discriminate|].
  intros [= <- <- <-] Hq. simpl in *.
  split; [reflexivity|]. split; [reflexivity|].
  unfold getJobStatus, IngestionJob.findById, bind, query, ret.
  simpl. rewrite Hq. simpl. rewrite lookup_insert_eq. simpl.
  eexists. split; reflexivity.
Qed.
End Polling.

(** ** Lines of descent *)

Section VisitOrderProperties.
Variables (rows : list Event) (s t : jsstring).

Lemma detailsOf_Some n e :
  detailsOf rows !! n = Some e -> n ∈ event_id <$> rows.
Proof.
  induction rows as [|x l IH] using rev_ind.
  - unfold detailsOf. simpl. rewrite lookup_empty. discriminate.
  - rewrite detailsOf_snoc, fmap_app, elem_of_app.
    destruct (decide (event_id x = n)) as [<-|Hne].
    + intros _. right. left.
    + rewrite lookup_insert_ne by exact Hne. auto.
Qed.

Lemma VisitOrder_initial : VisitOrder rows s [] (initialSearch rows s).
Proof.
  unfold VisitOrder, queued. cbn [initialSearch visited queue previous].
  split; [constructor|]. split; [set_solver|]. split.
  - intros n [Hn|Hn]; [inversion Hn|].
    apply list_elem_of_singleton in Hn. auto.
  - intros n p Hp. rewrite lookup_empty in Hp. discriminate.
Qed.

Lemma VisitOrder_pop order st cur d rest :
  VisitOrder rows s order st ->
  sortQueue (queue st) = (cur, d) :: rest ->
  VisitOrder rows s order
    {| distances := distances st; previous := previous st;
       visited := visited st; queue := rest |}
  /\ (cur = s \/ cur ∈ event_id <$> rows).
Proof.
  intros (Hnd & Hvis & Hids & Hprev) Hsort.
  assert (Hperm : queue st ≡ₚ (cur, d) :: rest)
    by (rewrite <- Hsort, sortQueue_perm; reflexivity).
  assert (Hq : forall n, n ∈ (queue st).*1 <-> n = cur \/ n ∈ rest.*1).
  { intros n. rewrite Hperm, fmap_cons, elem_of_cons. reflexivity. }
  unfold VisitOrder, queued in *. cbn [visited queue previous].
  split; [|apply Hids; right; apply Hq; auto].
  split; [exact Hnd|]. split; [exact Hvis|]. split; [|exact Hprev].
  intros n [Hn|Hn]; apply Hids; [auto|]. right. apply Hq. auto.
Qed.

Lemma VisitOrder_visit order st cur d rest :
  VisitOrder rows s order st ->
  sortQueue (queue st) = (cur, d) :: rest ->
  cur ∉ visited st ->
  VisitOrder rows s (cur :: order)
    {| distances := distances st; previous := previous st;
       visited := {[cur]} ∪ visited st; queue := rest |}.
Proof.
  intros HV Hsort Hcur.
  destruct (VisitOrder_pop order st cur d rest HV Hsort)
    as ((Hnd & Hvis & Hids & Hprev) & Hc).
  unfold VisitOrder, queued in *. cbn [visited queue previous] in *.
  split; [apply NoDup_cons; split; [rewrite Hvis; exact Hcur|exact Hnd]|].
  split; [intros n; rewrite elem_of_cons, Hvis; set_solver|].
  split.
  - intros n [Hn|Hn]; [|apply Hids; auto].
    apply elem_of_cons in Hn as [->|Hn]; [exact Hc|apply Hids; auto].
  - intros n p Hp. destruct (Hprev n p Hp) as (Hne & Hin & Hsuf).
    split; [exact Hne|]. split; [right; exact Hin|].
    intros [|x pre] suf Heq; simpl in Heq.
    + injection Heq as _ <-. exact Hin.
    + injection Heq as _ Heq. eapply Hsuf, Heq.
Qed.

Lemma VisitOrder_relax order cur st n st' :
  VisitOrder rows s order st ->
  cur ∈ visited st -> cur <> [] ->
  relax (detailsOf rows) cur st n = Some st' ->
  VisitOrder rows s order st' /\ visited st' = visited st.
Proof.
  intros HV Hcur Hne. unfold relax. case_bool_decide as Hvis.
  { intros [= <-]. auto. }
  destruct (detailsOf rows !! n) as [ev|] eqn:Hev; [|discriminate].
  destruct (distances st !! cur) as [[dc|]|]; try (intros [= <-]; auto).
  destruct (distances st !! n) as [old|]; try (intros [= <-]; auto).
  destruct (match old with Num o => dc + duration_minutes ev <? o
                         | Infinity => true end);
    intros [= <-]; [|auto].
  split; [|reflexivity].
  destruct HV as (Hnd & Hv & Hids & Hprev).
  unfold VisitOrder, queued in *. cbn [visited queue previous].
  split; [exact Hnd|]. split; [exact Hv|]. split.
  - intros m [Hm|Hm]; [apply Hids; auto|].
    rewrite fmap_app in Hm. apply elem_of_app in Hm as [Hm|Hm];
      [apply Hids; auto|].
    apply list_elem_of_singleton in Hm. simpl in Hm. subst m.
    right. eapply detailsOf_Some, Hev.
  - intros m p Hp. destruct (decide (n = m)) as [<-|Hnm].
    + rewrite lookup_insert_eq in Hp. injection Hp as <-.
      split; [exact Hne|]. split; [apply Hv, Hcur|].
      intros pre suf Heq. exfalso. apply Hvis, Hv. rewrite Heq.
      apply elem_of_app. right. left.
    + rewrite lookup_insert_ne in Hp by exact Hnm. auto.
Qed.

Lemma VisitOrder_relaxAll order cur todo : forall st st',
  VisitOrder rows s order st ->
  cur ∈ visited st -> cur <> [] \/ todo = [] ->
  relaxAll (detailsOf rows) cur st todo = Some st' ->
  VisitOrder rows s order st'.
Proof.
  induction todo as [|n todo IH]; intros st st' HV Hcur Hne; simpl.
  - intros [= <-]. exact HV.
  - destruct Hne as [Hne|Hne]; [|discriminate].
    destruct (relax (detailsOf rows) cur st n) as [st1|] eqn:Hr; [|discriminate].
    destruct (VisitOrder_relax order cur st n st1 HV Hcur Hne Hr) as [HV1 Hv1].
    apply IH; [exact HV1|rewrite Hv1; exact Hcur|auto].
Qed.

(** The loop keeps a visit order. *)
Lemma dijkstra_VisitOrder fuel : forall st order st',
  VisitOrder rows s order st ->
  dijkstra (graphOf rows) (detailsOf rows) t fuel st = Finished st' ->
  exists order', VisitOrder rows s order' st'.
Proof.
  induction fuel as [|fuel IH]; intros st order st' HV; [discriminate|].
  cbn [dijkstra].
  destruct (sortQueue (queue st)) as [|[cur d] rest] eqn:Hsort.
  - intros [= <-]. eauto.
  - case_bool_decide as Hvis.
    + apply (IH _ order). eapply VisitOrder_pop; eauto.
    + pose proof (VisitOrder_visit order st cur d rest HV Hsort Hvis) as HV1.
      case_bool_decide as Htarget; [intros [= <-]; eauto|].
      rewrite graphOf_children.
      destruct (relaxAll _ _ _ _) as [st2|] eqn:Hrelax; [|discriminate].
      apply (IH _ (cur :: order)).
      eapply VisitOrder_relaxAll; [exact HV1| | |exact Hrelax].
      * cbn [visited]. set_solver.
      * destruct (decide (cur = [])) as [->|Hne]; [right|left; exact Hne].
        destruct (children rows []) as [|n l] eqn:Hch; [reflexivity|].
        assert (Hn : n ∈ children rows []) by (rewrite Hch; left).
        apply children_elem in Hn as (e & _ & _ & _ & Hne). contradiction.
Qed.

Lemma VisitOrder_length order st :
  VisitOrder rows s order st -> (length order <= S (length rows))%nat.
Proof.
  intros (Hnd & _ & Hids & _).
  assert (Hsub : order ⊆+ s :: (event_id <$> rows)).
  { apply NoDup_submseteq; [exact Hnd|]. intros n Hn.
    apply elem_of_cons. apply Hids. auto. }
  apply submseteq_length in Hsub. simpl in Hsub.
  rewrite length_fmap in Hsub. exact Hsub.
Qed.
End VisitOrderProperties.

Section LineOfDescent.
Variable rows : list Event.
Hypothesis Hnd : NoDup (event_id <$> rows).

Lemma lineage_snoc es a e :
  lineage es -> last es = Some a ->
  parent_event_id e = Some (event_id a) -> event_id a <> [] ->
  lineage (es ++ [e]).
Proof.
  intros Hl Ha Hp Hne. induction es as [|x es IH]; [discriminate|].
  destruct es as [|y es].
  - injection Ha as ->. simpl. auto.
  - destruct Hl as (Hxy & Hx & Hl). cbn [app lineage].
    split; [exact Hxy|]. split; [exact Hx|]. apply IH; assumption.
Qed.

Lemma total_of_path es acc :
  foldl (fun sum node => sum + pn_duration_minutes node) acc (pathNode <$> es)
  = acc + totalDuration es.
Proof.
  revert acc. induction es as [|e es IH]; intros acc; simpl; [lia|].
  rewrite IH. unfold totalDuration. simpl. lia.
Qed.

(** The walk back along [previous] ends within the fuel and yields a line
    of descent. *)
Lemma reconstruct_line s st order fuel : forall cur acc,
  PrevOK rows s st -> VisitOrder rows s order st ->
  s ∈ event_id <$> rows ->
  (0 < fuel)%nat ->
  cur = s \/ is_Some (previous st !! cur) ->
  (forall p, previous st !! cur = Some p ->
     exists pre suf, order = pre ++ p :: suf /\ (S (length suf) < fuel)%nat) ->
  exists es,
    reconstruct (detailsOf rows) (previous st) fuel (Some cur) acc
    = Some (Some ((pathNode <$> es) ++ acc))
    /\ descent rows s cur es
    /\ forall i e, es !! S i = Some e -> event_id e <> s.
Proof.
  induction fuel as [|fuel IH]; intros cur acc HP HV Hs Hfuel Hcur Hbound; [lia|].
  destruct HP as [Hlinks Hsrc]. pose proof HV as (_ & _ & _ & Hprev).
  assert (He : exists e, e ∈ rows /\ event_id e = cur
                         /\ (forall p, previous st !! cur = Some p ->
                               parent_event_id e = Some p)).
  { destruct Hcur as [->|[p Hp]].
    - apply list_elem_of_fmap in Hs as (a & -> & Ha). exists a.
      split; [exact Ha|]. split; [reflexivity|]. intros p Hp. congruence.
    - destruct (Hlinks _ _ Hp) as [(e & He & Hid & Hpar) _]. exists e.
      split; [exact He|]. split; [exact Hid|]. intros q Hq. congruence. }
  destruct He as (e & He & Hid & Hpar).
  cbn [reconstruct]. rewrite <- Hid, (detailsOf_lookup rows e Hnd He), Hid.
  destruct (previous st !! cur) as [p|] eqn:Hp.
  - destruct (Hlinks _ _ Hp) as [_ Hback].
    destruct (Hprev _ _ Hp) as (Hpne & _ & _).
    destruct (Hbound p eq_refl) as (pre & suf & Horder & Hlen).
    destruct (IH p (pathNode e :: acc))
      as (es & Hrec & (Hall & Hline & Hhead & Hlast) & Honce);
      [split; assumption|exact HV|exact Hs|lia|exact Hback| |].
    { intros q Hq. destruct (Hprev _ _ Hq) as (_ & _ & Hsuf).
      specialize (Hsuf pre suf Horder).
      apply list_elem_of_split in Hsuf as (pre2 & suf2 & ->).
      exists (pre ++ p :: pre2), suf2. split.
      - rewrite Horder, <- app_assoc. reflexivity.
      - rewrite length_app in Hlen. simpl in Hlen. lia. }
    exists (es ++ [e]). split; [|split].
    + rewrite Hrec, fmap_app, <- app_assoc. reflexivity.
    + destruct (last es) as [a|] eqn:Ha; [|discriminate].
      injection Hlast as Hlast.
      destruct es as [|x es]; [discriminate|].
      split; [apply Forall_app; split; [exact Hall|constructor; [exact He|constructor]]|].
      split; [|split].
      * apply (lineage_snoc _ a); [exact Hline|exact Ha| |];
          rewrite Hlast; [apply Hpar; reflexivity|exact Hpne].
      * exact Hhead.
      * rewrite last_snoc. simpl. congruence.
    + intros i x Hx. apply lookup_app_Some in Hx as [Hx|[_ Hx]].
      * eapply Honce, Hx.
      * apply list_lookup_singleton_Some in Hx as [_ <-].
        rewrite Hid. intros ->. congruence.
  - destruct Hcur as [->|[p Hp']]; [|discriminate].
    rewrite reconstruct_done. exists [e]. split; [reflexivity|]. split.
    + split; [constructor; [exact He|constructor]|].
      split; [exact I|]. simpl. split; congruence.
    + intros i x Hx. discriminate.
Qed.

Lemma lineage_snoc_inv es y z :
  lineage (es ++ [y; z]) ->
  lineage (es ++ [y]) /\ parent_event_id z = Some (event_id y).
Proof.
  induction es as [|x es IH]; simpl.
  - intros (Hp & _ & _). auto.
  - destruct es as [|x' es]; simpl in *.
    + intros (Hxy & Hx & Hyz & _ & _). auto.
    + intros (Hxx & Hx & Hl). destruct (IH Hl) as [Hl' Hp]. auto.
Qed.

Lemma snoc_cases {A} (l : list A) :
  l = [] \/ exists front z, l = front ++ [z].
Proof. induction l using rev_ind; eauto. Qed.

(** Of two lines that end in the same event, the one that meets [s] at
    its head only is the end of the other. *)
Lemma descent_suffix s es : forall es',
  Forall (fun e => e ∈ rows) es -> Forall (fun e => e ∈ rows) es' ->
  lineage es -> lineage es' ->
  event_id <$> head es' = Some s ->
  (forall i e, es !! S i = Some e -> event_id e <> s) ->
  es <> [] -> event_id <$> last es = event_id <$> last es' ->
  es `suffix_of` es'.
Proof.
  induction es as [|z front IH] using rev_ind; [contradiction|].
  intros es' Hall Hall' Hl Hl' Hhead Honce _ Hlast.
  rewrite last_snoc in Hlast. simpl in Hlast.
  destruct (snoc_cases es') as [->|(front' & z' & ->)]; [discriminate|].
  rewrite last_snoc in Hlast. simpl in Hlast. injection Hlast as Hid.
  apply Forall_app in Hall as [Hall Hz], Hall' as [Hall' Hz'].
  apply Forall_inv in Hz, Hz'.
  assert (z' = z) as -> by (apply (unique_event_id rows); auto; congruence).
  destruct (snoc_cases front) as [->|(front0 & y & ->)].
  - exists front'. reflexivity.
  - rename front0 into front. rewrite <- app_assoc in Hl. simpl in Hl.
    apply lineage_snoc_inv in Hl as [Hl Hp].
    assert (Hzs : event_id z <> s).
    { apply (Honce (length front)).
      rewrite <- app_assoc. simpl.
      rewrite lookup_app_r by lia.
      replace (S (length front) - length front)%nat with 1%nat by lia.
      reflexivity. }
    destruct (snoc_cases front') as [->|(front0 & y' & ->)].
    { simpl in Hhead. congruence. }
    rename front0 into front'. rewrite <- app_assoc in Hl'. simpl in Hl'.
    apply lineage_snoc_inv in Hl' as [Hl' Hp'].
    assert (y' = y) as ->.
    { apply Forall_app in Hall as [_ Hy], Hall' as [_ Hy'].
      apply Forall_inv in Hy, Hy'.
      apply (unique_event_id rows); auto. congruence. }
    destruct (IH (front' ++ [y])) as [pre Hpre]; auto.
    + destruct front'; simpl in *; exact Hhead.
    + intros i e He. apply (Honce i).
      apply lookup_app_Some. left. exact He.
    + destruct front; discriminate.
    + rewrite !last_snoc. reflexivity.
    + exists pre. rewrite Hpre, <- !app_assoc. reflexivity.
Qed.

(** When the queue has run empty, the descendants of the source have all
    been visited. *)
Lemma no_descent_left s t c0 st es :
  SearchInv rows s t c0 [] st -> queue st = [] ->
  descent rows s t es -> False.
Proof.
  intros HI Hq (Hall & Hline & Hhead & Hlast).
  assert (Hqd : queued st = []) by (unfold queued; rewrite Hq; reflexivity).
  assert (Hvs : s ∈ visited st).
  { destruct (si_source _ _ _ _ _ _ HI) as [Hv|Hv]; [exact Hv|].
    rewrite Hqd in Hv. discriminate. }
  assert (Hvis : forall e, e ∈ es -> event_id e ∈ visited st).
  { clear Hlast. revert Hall Hline Hhead.
    induction es as [|a es' IH]; intros Hall Hline Hhead e He; [inversion He|].
    simpl in Hhead. injection Hhead as Ha.
    apply elem_of_cons in He as [->|He]; [rewrite Ha; exact Hvs|].
    destruct es' as [|b es'']; [inversion He|].
    destruct Hline as (Hpar & Hne & Hline).
    apply Forall_cons in Hall as [_ Hall].
    assert (Hvb : event_id b ∈ visited st).
    { destruct (decide (event_id b = s)) as [->|Hbs]; [exact Hvs|].
      destruct (si_children _ _ _ _ _ _ HI b (event_id a))
        as [Hv|[Hv|[_ Hv]]]; auto.
      - apply Forall_cons in Hall as [Hb _]. exact Hb.
      - rewrite Ha. exact Hvs.
      - rewrite Hqd in Hv. inversion Hv.
      - inversion Hv. }
    apply elem_of_cons in He as [->|He]; [exact Hvb|].
    (* the rest of the line descends from b, which is visited *)
    clear IH Hpar Hne Ha a.
    revert b Hvb Hall Hline e He.
    induction es'' as [|c es3 IH]; intros b Hvb Hall Hline e He; [inversion He|].
    destruct Hline as (Hpar & Hne & Hline).
    apply Forall_cons in Hall as [_ Hall].
    assert (Hvc : event_id c ∈ visited st).
    { destruct (decide (event_id c = s)) as [->|Hcs]; [exact Hvs|].
      destruct (si_children _ _ _ _ _ _ HI c (event_id b))
        as [Hv|[Hv|[_ Hv]]]; auto.
      - apply Forall_cons in Hall as [Hc _]. exact Hc.
      - rewrite Hqd in Hv. inversion Hv.
      - inversion Hv. }
    apply elem_of_cons in He as [->|He]; [exact Hvc|].
    exact (IH c Hvc Hall Hline e He). }
  destruct (last es) as [z|] eqn:Hz; [|discriminate].
  injection Hlast as Hlast.
  apply (si_target _ _ _ _ _ _ HI). rewrite <- Hlast. apply Hvis.
  rewrite last_lookup in Hz. eapply list_elem_of_lookup_2, Hz.
Qed.
(** X13: over a table of distinct identifiers and for a source that is
    an event of the table, [findShortestPath] returns, and answers in one
    of two ways. Either it answers with a line of descent from the source
    down to the target, each event the parent of the next, and with the sum
    of the durations of all its events as total; this line is the end of
    every line of descent from the source to the target, so it is the
    shortest one. Or the source and the target differ, no line of descent
    leads from the one to the other, and it answers with no path. *)
Theorem shortest_path_is_the_line_of_descent s t :
  s ∈ event_id <$> rows ->
  (exists es,
     descent rows s t es
     /\ (forall es', descent rows s t es' -> es `suffix_of` es')
     /\ findShortestPath rows s t
        = Some (PathFound (pathNode <$> es) (totalDuration es)))
  \/ ((forall es, ~ descent rows s t es) /\ s <> t
      /\ findShortestPath rows s t = Some NoPath).
Proof.
  intros Hs. unfold findShortestPath.
  destruct (dijkstra_ends rows s t Hnd (S (S (length rows)))
              (initialSearch rows s) [])
    as (st & Hrun & HP & Hend);
    [apply Inv_initial; exact Hnd|apply initial_fuel|].
  destruct (dijkstra_VisitOrder rows s t _ _ [] st
              (VisitOrder_initial rows s) Hrun) as (order & HV).
  rewrite Hrun.
  destruct (bool_decide (previous st !! t = None) && bool_decide (s <> t))
    eqn:Hno.
  - right. apply andb_true_iff in Hno as [Hnone Hne].
    apply bool_decide_eq_true in Hnone, Hne.
    split; [|auto]. intros es Hes.
    destruct Hend as [(c0 & HI & Hq)|[Heq|[p Hp]]]; [|congruence|congruence].
    exact (no_descent_left s t c0 st es HI Hq Hes).
  - left.
    assert (Hcur : t = s \/ is_Some (previous st !! t)).
    { apply andb_false_iff in Hno as [Hno|Hno];
        apply bool_decide_eq_false in Hno.
      - right. destruct (previous st !! t); [eauto|contradiction].
      - left. destruct (decide (s = t)); [auto|contradiction]. }
    destruct (reconstruct_line s st order (S (S (length rows))) t [] HP HV Hs)
      as (es & Hrec & Hes & Honce); [lia|exact Hcur| |].
    { intros p Hp. pose proof HV as (_ & _ & _ & Hprev).
      destruct (Hprev _ _ Hp) as (_ & Hin & _).
      apply list_elem_of_split in Hin as (pre & suf & Horder).
      exists pre, suf. split; [exact Horder|].
      pose proof (VisitOrder_length rows s order st HV) as Hlen.
      rewrite Horder, length_app in Hlen. simpl in Hlen. lia. }
    exists es. split; [exact Hes|]. split.
    + intros es' (Hall' & Hl' & Hhead' & Hlast').
      destruct Hes as (Hall & Hl & Hhead & Hlast).
      apply (descent_suffix s); auto.
      * intros ->. discriminate.
      * congruence.
    + rewrite Hrec, app_nil_r, total_of_path. reflexivity.
Qed.
End LineOfDescent.

(** ** Timelines *)

Section HierarchyProperties.
Context {Row : Type} (key : Row -> jsstring) (parent : Row -> option jsstring).

Local Abbreviation Node := (@TimelineNode Row).

Lemma eventMapOf_snoc events e :
  eventMapOf key (events ++ [e])
  = <[key e := {| tn_row := e; tn_children := [] |}]> (eventMapOf key events).
Proof. unfold eventMapOf. rewrite foldl_app. reflexivity. Qed.

(** The map of the first pass: one fresh object per key, holding the last
    row of that key. *)
Lemma eventMapOf_lookup events k :
  eventMapOf key events !! k
  = (fun e => {| tn_row := e; tn_children := [] |})
    <$> last (filter (fun e => key e = k) events).
Proof.
  induction events as [|e events IH] using rev_ind; [reflexivity|].
  rewrite eventMapOf_snoc, filter_app, filter_cons, filter_nil.
  destruct (decide (key e = k)) as [<-|Hne].
  - rewrite lookup_insert_eq, last_snoc. reflexivity.
  - rewrite lookup_insert_ne by exact Hne. rewrite app_nil_r. exact IH.
Qed.

Lemma linkChildren_snoc (m : gmap jsstring Node) events e :
  linkChildren key parent m (events ++ [e])
  = let m' := linkChildren key parent m events in
    match parent e with
    | Some p =>
        if truthy p && bool_decide (is_Some (m' !! p))
        then alter (fun node =>
                      {| tn_row := tn_row node;
                         tn_children := tn_children node ++ [key e] |}) p m'
        else m'
    | None => m'
    end.
Proof. unfold linkChildren. rewrite foldl_app. reflexivity. Qed.

(** The second pass keeps the objects and their rows, and appends to the
    array of an object the keys of the rows that name it as parent. *)
Lemma linkChildren_lookup (m : gmap jsstring Node) events k :
  linkChildren key parent m events !! k
  = (fun node =>
       {| tn_row := tn_row node;
          tn_children :=
            tn_children node
            ++ (key <$> filter (fun e => parent e = Some k /\ k <> []) events) |})
    <$> m !! k.
Proof.
  induction events as [|e events IH] using rev_ind.
  - simpl. destruct (m !! k) as [[r c]|]; simpl; [|reflexivity].
    rewrite app_nil_r. reflexivity.
  - rewrite linkChildren_snoc. cbv zeta.
    rewrite filter_app, fmap_app, filter_cons, filter_nil.
    destruct (parent e) as [p|] eqn:Hp.
    + destruct (truthy p && bool_decide (is_Some (linkChildren key parent m events !! p)))
        eqn:Hc.
      * apply andb_true_iff in Hc as [Ht Hin]. apply truthy_true in Ht.
        destruct (decide (p = k)) as [->|Hne].
        -- rewrite lookup_alter_eq, IH. rewrite decide_True by auto.
           destruct (m !! k) as [[r c]|]; simpl; [|reflexivity].
           rewrite app_assoc. reflexivity.
        -- rewrite lookup_alter_ne by exact Hne. rewrite IH.
           rewrite decide_False by (intros [[= ->] _]; contradiction).
           rewrite app_nil_r. reflexivity.
      * rewrite IH. apply andb_false_iff in Hc.
        destruct (decide (Some p = Some k /\ k <> [])) as [[[= ->] Hne]|Hn].
        -- destruct Hc as [Hc|Hc].
           ++ apply truthy_nil in Hc. contradiction.
           ++ apply bool_decide_eq_false in Hc. rewrite IH in Hc.
              destruct (m !! k); simpl in *; [|reflexivity].
              exfalso. apply Hc. eauto.
        -- rewrite app_nil_r. reflexivity.
    + rewrite IH. rewrite decide_False by (intros [? _]; discriminate).
      rewrite app_nil_r. reflexivity.
Qed.

(** X14: [buildHierarchy] returns [null] for no rows, and otherwise the
    object under the key of the first row. The map has one object per key
    of the rows, holding the last row of that key; the [children] of the
    object of a key are the keys of the rows that name this key as their
    parent, in the order of the rows. *)
Theorem buildHierarchy_links events :
  match buildHierarchy key parent events with
  | None => events = []
  | Some (root, nodes) =>
      key <$> head events = Some root
      /\ (forall k, is_Some (nodes !! k) <-> k ∈ key <$> events)
      /\ (forall k node, nodes !! k = Some node ->
            last (filter (fun e => key e = k) events) = Some (tn_row node)
            /\ tn_children node
               = key <$> filter (fun e => parent e = Some k /\ k <> []) events)
  end.
Proof.
  destruct events as [|r0 events]; [reflexivity|].
  cbn [buildHierarchy]. set (all := r0 :: events).
  split; [reflexivity|]. split.
  - intros k. rewrite linkChildren_lookup, eventMapOf_lookup.
    rewrite !fmap_is_Some. rewrite list_elem_of_fmap. split.
    + intros [e He]. rewrite last_lookup in He.
      apply list_elem_of_lookup_2, list_elem_of_filter in He as [Hk He]. eauto.
    + intros (e & -> & He).
      assert (Hin : e ∈ filter (fun x => key x = key e) all)
        by (apply list_elem_of_filter; auto).
      destruct (filter (fun x => key x = key e) all) as [|x l] eqn:Hf;
        [inversion Hin|].
      rewrite last_lookup. apply lookup_lt_is_Some_2. simpl. lia.
  - intros k node. rewrite linkChildren_lookup, eventMapOf_lookup.
    destruct (last (filter (fun e => key e = k) all)) as [e|]; [|discriminate].
    simpl. intros [= <-]. simpl. auto.
Qed.
End HierarchyProperties.

Global Instance byLevelThenStart_trans : Transitive byLevelThenStart.
Proof. unfold byLevelThenStart. intros x y z Hxy Hyz. lia. Qed.

Global Instance byLevelThenStart_total : Total byLevelThenStart.
Proof. unfold byLevelThenStart. intros x y. lia. Qed.

Lemma StronglySorted_filter {A} (R : relation A) (P : A -> Prop)
  `{!forall x, Decision (P x)} l :
  StronglySorted R l -> StronglySorted R (filter P l).
Proof.
  induction 1 as [|x l Hl IH Hx]; [constructor|].
  rewrite filter_cons. destruct (decide (P x)); [|exact IH].
  constructor; [exact IH|].
  apply Forall_forall. intros y Hy. apply list_elem_of_filter in Hy as [_ Hy].
  rewrite Forall_forall in Hx. auto.
Qed.

Lemma siblings_by_start L l :
  StronglySorted byLevelThenStart l -> Forall (fun r => hr_level r = L) l ->
  StronglySorted earlierStart l.
Proof.
  induction 1 as [|x l Hl IH Hx]; intros Hall; [constructor|].
  apply Forall_cons in Hall as [HxL Hall]. constructor; [auto|].
  rewrite Forall_forall in *. intros y Hy.
  specialize (Hx y Hy). specialize (Hall y Hy).
  unfold byLevelThenStart, earlierStart in *. lia.
Qed.

Lemma last_filter_is_Some {A} (P : A -> Prop) `{!forall x, Decision (P x)} l :
  is_Some (last (filter P l)) <-> exists x, x ∈ l /\ P x.
Proof.
  rewrite last_is_Some. split.
  - intros Hne. destruct (filter P l) as [|x k] eqn:Hf; [congruence|].
    assert (Hx : x ∈ filter P l) by (rewrite Hf; left).
    apply list_elem_of_filter in Hx as [HP Hx]. eauto.
  - intros (x & Hx & HP) Hnil.
    assert (Hin : x ∈ filter P l) by (apply list_elem_of_filter; auto).
    rewrite Hnil in Hin. inversion Hin.
Qed.

Lemma buildHierarchy_head {Row} (key : Row -> jsstring)
  (parent : Row -> option jsstring) events h :
  head events = Some h ->
  buildHierarchy key parent events
  = Some (key h, linkChildren key parent (eventMapOf key events) events).
Proof. destruct events; intros [= ->]. reflexivity. Qed.

Lemma bind_at_most_once {A} (f : A -> list A) l :
  (forall x, f x = [] \/ f x = [x]) -> l ≫= f `sublist_of` l.
Proof.
  intros Hf. induction l as [|a l IH]; [constructor|].
  rewrite bind_cons. destruct (Hf a) as [-> | ->]; simpl.
  - apply sublist_cons, IH.
  - apply sublist_skip, IH.
Qed.

Lemma filter_length_lt {A} (P Q : A -> Prop)
  `{!forall x, Decision (P x)} `{!forall x, Decision (Q x)} l x :
  (forall y, P y -> Q y) -> x ∈ l -> Q x -> ~ P x ->
  (length (filter P l) < length (filter Q l))%nat.
Proof.
  intros HPQ Hx HQ HnP.
  assert (Heq : forall k : list A, filter P k = filter P (filter Q k)).
  { induction k as [|b k IHk]; [reflexivity|].
    rewrite !filter_cons. destruct (decide (Q b)) as [Hq|Hq].
    - rewrite filter_cons. destruct (decide (P b)); congruence.
    - destruct (decide (P b)) as [Hp|Hp]; [exfalso; auto|exact IHk]. }
  rewrite Heq. apply (length_filter_lt _ _ x); [|exact HnP].
  apply list_elem_of_filter. auto.
Qed.

Section TimelineProperties.
Variables (table : list StoredEvent) (root : jsstring).
Variable depth : jsstring -> nat.
Hypothesis Hnd : NoDup (event_id ∘ se_event <$> table).
Hypothesis Hids : forall e, e ∈ table -> event_id (se_event e) <> [].
Hypothesis Hforest : forest table depth.

Local Abbreviation rows := (se_event <$> table).
Local Abbreviation eid := (fun e : StoredEvent => event_id (se_event e)).

(** The stored event of an identifier. *)
Lemma stored_unique e1 e2 :
  e1 ∈ table -> e2 ∈ table -> eid e1 = eid e2 -> e1 = e2.
Proof.
  intros H1 H2 Heq.
  apply list_elem_of_lookup_1 in H1 as [i Hi], H2 as [j Hj].
  assert (i = j) as ->.
  { apply (NoDup_lookup _ i j (eid e1) Hnd).
    - rewrite list_lookup_fmap, Hi. reflexivity.
    - rewrite list_lookup_fmap, Hj. simpl. congruence. }
  congruence.
Qed.

Lemma rows_NoDup : NoDup (event_id <$> rows).
Proof. rewrite <- list_fmap_compose. exact Hnd. Qed.

Lemma lineage_depth : forall es a z,
  Forall (fun e => e ∈ rows) es -> lineage es ->
  head es = Some a -> last es = Some z ->
  depth (event_id z) = (depth (event_id a) + length es - 1)%nat.
Proof.
  induction es as [|x es IH]; intros a z Hall Hl Hh Hz; [discriminate|].
  injection Hh as ->. destruct es as [|y es].
  - injection Hz as ->. simpl. lia.
  - destruct Hl as (Hp & _ & Hl). apply Forall_cons in Hall as [_ Hall].
    pose proof Hall as Hy. apply Forall_cons in Hy as [Hy _].
    apply list_elem_of_fmap in Hy as (sy & -> & Hsy).
    rewrite (IH (se_event sy) z Hall Hl eq_refl Hz).
    rewrite (Hforest sy _ Hsy Hp). simpl. lia.
Qed.

Lemma atLevel_depth n e :
  atLevel table root n e -> depth (eid e) = (depth root + n)%nat.
Proof.
  intros (He & es & (Hall & Hl & Hh & Hz) & Hlen).
  destruct (head es) as [a|] eqn:Ha; [|discriminate].
  destruct (last es) as [z|] eqn:Hzz; [|discriminate].
  injection Hh as Hh. injection Hz as Hz.
  pose proof (lineage_depth es a z Hall Hl Ha Hzz) as Hd.
  rewrite Hz, Hh, Hlen in Hd. simpl in Hd. lia.
Qed.

Lemma atLevel_0 e : atLevel table root 0 e <-> e ∈ table /\ eid e = root.
Proof.
  split.
  - intros (He & es & (Hall & Hl & Hh & Hz) & Hlen).
    split; [exact He|].
    destruct es as [|a [|b es]]; try discriminate.
    simpl in Hh, Hz. congruence.
  - intros [He Hid]. split; [exact He|]. exists [se_event e].
    split; [|reflexivity]. split; [|split; [exact I|simpl; split; congruence]].
    constructor; [|constructor]. apply list_elem_of_fmap. eauto.
Qed.

Lemma atLevel_S n e :
  atLevel table root (S n) e <->
  e ∈ table /\ exists p, atLevel table root n p
                         /\ parent_event_id (se_event e) = Some (eid p).
Proof.
  split.
  - intros (He & es & (Hall & Hl & Hh & Hz) & Hlen). split; [exact He|].
    destruct (snoc_cases es) as [->|(front & z & ->)]; [discriminate|].
    rewrite length_app in Hlen. simpl in Hlen.
    destruct (snoc_cases front) as [->|(front' & y & ->)]; [simpl in Hlen; lia|].
    rewrite <- app_assoc in Hl. simpl in Hl.
    apply lineage_snoc_inv in Hl as [Hl Hp].
    rewrite last_snoc in Hz. simpl in Hz. injection Hz as Hz.
    apply Forall_app in Hall as [Hall Hzin]. apply Forall_inv in Hzin.
    pose proof Hall as Hyin. apply Forall_app in Hyin as [_ Hyin].
    apply Forall_inv in Hyin.
    apply list_elem_of_fmap in Hyin as (sy & -> & Hsy).
    apply list_elem_of_fmap in Hzin as (sz & -> & Hsz).
    assert (sz = e) as -> by (apply stored_unique; auto).
    exists sy. split; [|exact Hp].
    split; [exact Hsy|]. exists (front' ++ [se_event sy]).
    split; [|rewrite length_app in *; simpl in *; lia].
    split; [exact Hall|]. split; [exact Hl|]. split.
    + destruct front'; simpl in *; exact Hh.
    + rewrite last_snoc. reflexivity.
  - intros (He & p & (Hp & es & (Hall & Hl & Hh & Hz) & Hlen) & Hpar).
    split; [exact He|]. exists (es ++ [se_event e]).
    split; [|rewrite length_app; simpl; lia].
    destruct (last es) as [a|] eqn:Ha; [|discriminate].
    injection Hz as Hz.
    split; [apply Forall_app; split; [exact Hall|]|].
    { constructor; [|constructor]. apply list_elem_of_fmap. eauto. }
    split; [|split].
    + apply (lineage_snoc _ a); [exact Hl|exact Ha|congruence|].
      rewrite Hz. apply Hids, Hp.
    + destruct es; [discriminate|exact Hh].
    + rewrite last_snoc. reflexivity.
Qed.

Lemma atLevel_none_above n :
  (forall e, ~ atLevel table root n e) ->
  forall m e, (n <= m)%nat -> ~ atLevel table root m e.
Proof.
  intros Hn m. induction m as [|m IH]; intros e Hle He.
  - assert (n = 0%nat) as -> by lia. exact (Hn e He).
  - destruct (decide (n = S m)) as [->|Hne]; [exact (Hn e He)|].
    apply atLevel_S in He as (_ & p & Hp & _). apply (IH p); [lia|exact Hp].
Qed.

Lemma descent_atLevel k es :
  descent rows root k es ->
  exists e n, e ∈ table /\ eid e = k /\ atLevel table root n e.
Proof.
  intros Hd. pose proof Hd as (Hall & Hl & Hh & Hz).
  destruct (last es) as [z|] eqn:Hlast; [|discriminate].
  injection Hz as Hz.
  assert (Hzin : z ∈ es) by (apply last_Some_elem_of; exact Hlast).
  rewrite Forall_forall in Hall. apply Hall in Hzin.
  apply list_elem_of_fmap in Hzin as (sz & -> & Hsz).
  exists sz, (pred (length es)). split; [exact Hsz|]. split; [exact Hz|].
  split; [exact Hsz|]. exists es. rewrite Hz. split; [exact Hd|].
  destruct es; [discriminate|reflexivity].
Qed.

(** The recursive term gives the rows whose parent is in the working
    table, each of them once. *)
Lemma childRows_elem W e :
  e ∈ childRows table W <->
  e ∈ table /\ exists p, p ∈ W /\ parent_event_id (se_event e) = Some (eid p).
Proof.
  unfold childRows. rewrite list_elem_of_bind. split.
  - intros (he & Hin & Hhe). apply list_elem_of_bind in Hin as (eh & Hin & Heh).
    case_bool_decide; [|inversion Hin].
    apply list_elem_of_singleton in Hin as ->. eauto.
  - intros (He & p & Hp & Hpar). exists e. split; [|exact He].
    apply list_elem_of_bind. exists p. split; [|exact Hp].
    rewrite bool_decide_true by exact Hpar. left.
Qed.

Lemma join_once W he :
  NoDup (eid <$> W) ->
  W ≫= (fun eh =>
          if bool_decide (parent_event_id (se_event he) = Some (eid eh))
          then [he] else []) = []
  \/ W ≫= (fun eh =>
             if bool_decide (parent_event_id (se_event he) = Some (eid eh))
             then [he] else []) = [he].
Proof.
  induction W as [|x W IH]; intros HW; [left; reflexivity|].
  rewrite fmap_cons in HW. apply NoDup_cons in HW as [Hx HW].
  rewrite bind_cons. case_bool_decide as Hm; [|exact (IH HW)].
  right. simpl. f_equal. apply elem_of_nil_inv. intros y Hy.
  apply list_elem_of_bind in Hy as (eh & Hy & Heh).
  case_bool_decide as Hm'; [|inversion Hy].
  apply Hx. apply list_elem_of_fmap. exists eh. split; [congruence|exact Heh].
Qed.

Lemma round_ids n W : round table root n W -> NoDup (eid <$> W).
Proof.
  intros [Hs _]. apply (sublist_NoDup _ (eid <$> table)); [exact Hnd|].
  apply fmap_sublist, Hs.
Qed.

Lemma round_0 : round table root 0 (filter (fun e => eid e = root) table).
Proof.
  split; [apply sublist_filter|]. intros e.
  rewrite list_elem_of_filter, atLevel_0. tauto.
Qed.

Lemma round_S n W :
  round table root n W -> round table root (S n) (childRows table W).
Proof.
  intros HW. pose proof (round_ids n W HW) as Hids'. destruct HW as [Hs HW].
  split.
  - apply bind_at_most_once. intros he. apply join_once, Hids'.
  - intros e. rewrite childRows_elem, atLevel_S. split.
    + intros (He & p & Hp & Hpar). split; [exact He|]. exists p.
      split; [apply HW, Hp|exact Hpar].
    + intros (He & p & Hp & Hpar). split; [exact He|]. exists p.
      split; [apply HW, Hp|exact Hpar].
Qed.

Lemma below_shrinks n W e :
  round table root n W -> e ∈ W ->
  (length (remaining table root depth (S n))
   < length (remaining table root depth n))%nat.
Proof.
  intros [_ HW] He. apply HW in He. pose proof (atLevel_depth n e He) as Hd.
  unfold remaining. apply (filter_length_lt _ _ _ e).
  - intros y. lia.
  - apply He.
  - lia.
  - lia.
Qed.

Lemma event_hierarchy_nil fuel lvl :
  event_hierarchy table fuel lvl [] = Some [].
Proof. destruct fuel; reflexivity. Qed.

Lemma event_hierarchy_S fuel lvl W :
  W <> [] ->
  event_hierarchy table (S fuel) lvl W
  = rest ← event_hierarchy table fuel (lvl + 1) (childRows table W);
    Some (((fun e => {| hr_row := e; hr_level := lvl |}) <$> W) ++ rest).
Proof. destruct W; [congruence|reflexivity]. Qed.

(** The query ends, with every row of every level from [n], once. *)
Lemma event_hierarchy_levels : forall fuel n W,
  round table root n W -> (length (remaining table root depth n) < fuel)%nat ->
  exists out,
    event_hierarchy table fuel (Z.of_nat n) W = Some out
    /\ NoDup (hr_event_id <$> out)
    /\ forall r, r ∈ out <->
          exists m, (n <= m)%nat /\ hr_level r = Z.of_nat m
                    /\ atLevel table root m (hr_row r).
Proof.
  induction fuel as [|fuel IH]; intros n W HW Hfuel; [lia|].
  destruct (decide (W = [])) as [->|Hne].
  - exists []. split; [apply event_hierarchy_nil|]. split; [constructor|].
    intros r. split; [intros Hr; inversion Hr|].
    intros (m & Hm & _ & Hat). exfalso.
    apply (atLevel_none_above n) with (m := m) (e := hr_row r); auto.
    intros e He. apply HW in He. inversion He.
  - assert (exists w, w ∈ W) as [w Hw]
      by (destruct W; [congruence|eexists; left]).
    destruct (IH (S n) (childRows table W) (round_S n W HW))
      as (rest & Hrun & Hndrest & Hmem).
    { pose proof (below_shrinks n W w HW Hw). lia. }
    rewrite event_hierarchy_S by exact Hne.
    replace (Z.of_nat n + 1) with (Z.of_nat (S n)) by lia.
    rewrite Hrun. cbn [mbind option_bind].
    eexists. split; [reflexivity|]. split.
    + rewrite fmap_app. apply NoDup_app. split; [|split; [|exact Hndrest]].
      * rewrite <- list_fmap_compose. exact (round_ids n W HW).
      * intros x Hx Hx'. rewrite <- list_fmap_compose in Hx.
        apply list_elem_of_fmap in Hx as (e & -> & He).
        apply list_elem_of_fmap in Hx' as (r & Hr & Hrin).
        apply Hmem in Hrin as (m & Hm & _ & Hat).
        apply HW in He. apply atLevel_depth in He, Hat.
        unfold hr_event_id in Hr. simpl in Hr. rewrite <- Hr in Hat. lia.
    + intros r. rewrite elem_of_app, Hmem. split.
      * intros [Hr|(m & Hm & Hlv & Hat)].
        -- apply list_elem_of_fmap in Hr as (e & -> & He). exists n.
           split; [lia|]. split; [reflexivity|]. apply HW, He.
        -- exists m. split; [lia|]. auto.
      * intros (m & Hm & Hlv & Hat). destruct (decide (m = n)) as [->|Hmn].
        -- left. apply list_elem_of_fmap. exists (hr_row r).
           split; [destruct r; simpl in *; congruence|]. apply HW, Hat.
        -- right. exists m. split; [lia|]. auto.
Qed.

(** X15: over a table of distinct, non-empty identifiers without cycles,
    [getTimeline] answers [null] for an identifier the table does not
    hold. For one it holds, the answer is the object of that event; the
    objects are those of the events a line of descent leads to from it,
    each holding its row of the table and, as level, the number of
    generations below the root; the children of an object are the rows of
    the table that name its event as parent, in the order of their
    start. *)
Theorem getTimeline_is_the_tree_of_descendants :
  (root ∉ eid <$> table -> getTimeline table root = Some None)
  /\ (root ∈ eid <$> table ->
      exists nodes,
        getTimeline table root = Some (Some (root, nodes))
        /\ (forall k, is_Some (nodes !! k) <-> exists es, descent rows root k es)
        /\ (forall k node, nodes !! k = Some node ->
              hr_row (tn_row node) ∈ table
              /\ hr_event_id (tn_row node) = k
              /\ hr_level (tn_row node)
                 = Z.of_nat (depth k) - Z.of_nat (depth root)
              /\ exists cs,
                   tn_children node = hr_event_id <$> cs
                   /\ StronglySorted earlierStart cs
                   /\ hr_row <$> cs
                      ≡ₚ filter (fun e => parent_event_id (se_event e) = Some k)
                           table)).
Proof.
  split.
  - intros Hout. unfold getTimeline.
    assert (Hnil : filter (fun e => eid e = root) table = []).
    { apply elem_of_nil_inv. intros x Hx.
      apply list_elem_of_filter in Hx as [Hid Hx]. apply Hout.
      apply list_elem_of_fmap. eauto. }
    rewrite Hnil, event_hierarchy_nil. reflexivity.
  - intros Hin. apply list_elem_of_fmap in Hin as (r0 & Hr0 & Hr0in).
    destruct (event_hierarchy_levels (S (length table)) 0 _ round_0)
      as (out & Hrun & Hndout & Hmem).
    { unfold remaining. pose proof (length_filter
        (fun e => (depth root + 0 <= depth (eid e))%nat) table). lia. }
    change (Z.of_nat 0) with 0 in Hrun.
    unfold getTimeline. rewrite Hrun. cbn [mbind option_bind].
    pose proof (merge_sort_Permutation byLevelThenStart out) as Hperm.
    pose proof (StronglySorted_merge_sort byLevelThenStart out) as Hss.
    remember (merge_sort byLevelThenStart out) as sorted eqn:Hdef. clear Hdef.
    assert (Hsorted : forall r, r ∈ sorted <->
              exists m, hr_level r = Z.of_nat m
                        /\ atLevel table root m (hr_row r)).
    { intros r. rewrite Hperm, Hmem. split.
      - intros (m & _ & H1 & H2). eauto.
      - intros (m & H1 & H2). exists m. split; [lia|]. auto. }
    assert (Hndsorted : NoDup (hr_event_id <$> sorted))
      by (rewrite Hperm; exact Hndout).
    assert (Hroot : {| hr_row := r0; hr_level := 0 |} ∈ sorted).
    { apply Hsorted. exists 0%nat. split; [reflexivity|].
      apply atLevel_0. auto. }
    destruct (head sorted) as [h|] eqn:Hhead;
      [|apply head_None in Hhead; rewrite Hhead in Hroot; inversion Hroot].
    rewrite (buildHierarchy_head _ _ _ h Hhead).
    assert (Hh : hr_event_id h = root).
    { pose proof (head_Some_elem_of _ _ Hhead) as Hhin.
      apply Hsorted in Hhin as (m & Hlv & Hat).
      assert (m = 0%nat) as ->.
      { apply head_Some in Hhead as [tl Htl]. rewrite Htl in Hroot, Hss.
        apply elem_of_cons in Hroot as [<-|Hroot].
        - simpl in Hlv. lia.
        - apply StronglySorted_inv in Hss as [_ Hss].
          rewrite Forall_forall in Hss. specialize (Hss _ Hroot).
          unfold byLevelThenStart in Hss. simpl in Hss. lia. }
      apply atLevel_0 in Hat. apply Hat. }
    rewrite Hh.
    eexists. split; [reflexivity|]. split.
    + intros k. rewrite linkChildren_lookup, eventMapOf_lookup, !fmap_is_Some.
      rewrite last_filter_is_Some. split.
      * intros (r & Hr & <-). apply Hsorted in Hr as (m & _ & _ & es & Hes & _).
        exists es. exact Hes.
      * intros (es & Hes).
        apply descent_atLevel in Hes as (e & n & He & <- & Hat).
        exists {| hr_row := e; hr_level := Z.of_nat n |}.
        split; [|reflexivity]. apply Hsorted. exists n. auto.
    + intros k node. rewrite linkChildren_lookup, eventMapOf_lookup.
      destruct (last (filter (fun e => hr_event_id e = k) sorted)) as [r|]
        eqn:Hlast; [|discriminate].
      simpl. intros [= <-]. simpl.
      apply last_Some_elem_of, list_elem_of_filter in Hlast as [Hk Hr].
      apply Hsorted in Hr as (m & Hlv & Hat).
      pose proof (atLevel_depth m _ Hat) as Hd. cbv beta in Hd.
      assert (Hkne : k <> []) by (rewrite <- Hk; apply Hids, Hat).
      split; [apply Hat|]. split; [exact Hk|]. split.
      { rewrite Hlv, <- Hk. unfold hr_event_id. lia. }
      exists (filter (fun e => hr_parent_event_id e = Some k /\ k <> []) sorted).
      split; [reflexivity|].
      assert (Hchild : forall c,
                c ∈ filter (fun e => hr_parent_event_id e = Some k /\ k <> [])
                      sorted
                <-> hr_level c = Z.of_nat (S m) /\ hr_row c ∈ table
                    /\ hr_parent_event_id c = Some k).
      { intros c. rewrite list_elem_of_filter, Hsorted. split.
        - intros ((Hpar & _) & m' & Hlv' & Hat').
          split; [|split; [apply Hat'|exact Hpar]].
          pose proof (atLevel_depth m' _ Hat') as Hd'. cbv beta in Hd'.
          rewrite (Hforest _ k (proj1 Hat') Hpar) in Hd'.
          rewrite <- Hk in Hd'. unfold hr_event_id in Hd'. lia.
        - intros (Hlv' & Hc & Hpar). split; [auto|]. exists (S m).
          split; [exact Hlv'|]. apply atLevel_S. split; [exact Hc|].
          exists (hr_row r). split; [exact Hat|]. rewrite <- Hk in Hpar.
          exact Hpar. }
      split.
      * apply (siblings_by_start (Z.of_nat (S m))).
        -- apply StronglySorted_filter, Hss.
        -- apply Forall_forall. intros c Hc. apply Hchild in Hc. apply Hc.
      * apply NoDup_Permutation.
        -- apply (NoDup_fmap_1 eid). rewrite <- list_fmap_compose.
           apply (sublist_NoDup _ (hr_event_id <$> sorted)); [exact Hndsorted|].
           apply fmap_sublist, sublist_filter.
        -- apply NoDup_filter. apply (NoDup_fmap_1 eid). exact Hnd.
        -- intros x. rewrite list_elem_of_fmap, list_elem_of_filter. split.
           ++ intros (c & -> & Hc). apply Hchild in Hc as (_ & Hc & Hpar). auto.
           ++ intros [Hpar Hx].
              exists {| hr_row := x; hr_level := Z.of_nat (S m) |}.
              split; [reflexivity|]. apply Hchild. auto.
Qed.
End TimelineProperties.

(** ** The further properties on sample data *)

(** A sample identifier. *)
Lemma valid_uuid_shape_witness :
  isValidUUID (Sample.uuid 7) = true
  /\ length (Sample.uuid 7) = 36%nat
  /\ trim (Sample.uuid 7) = Sample.uuid 7.
Proof.
  assert (Hv : isValidUUID (Sample.uuid 7) = true) by (vm_compute; reflexivity).
  destruct (valid_uuid_shape (Sample.uuid 7) Hv) as (Hlen & _ & _ & _ & Htrim & _).
  auto.
Defined.

(** The draft of the first line of the sample file. *)
Lemma draft_is_well_formed_witness :
  let P := Sample.platform Sample.noFiles Sample.noFaults in
  exists e,
    parseLine (Sample.line 1) 1 (str "events.txt") = Parsed e
    /\ isValidUUID (ed_event_id e) = true
    /\ ed_start_date e < ed_end_date e
    /\ ed_metadata e = {| source_file := str "events.txt"; line_number := 1;
                          parsing_flags := [] |}.
Proof.
  intros P.
  destruct (parseLine (Sample.line 1) 1 (str "events.txt")) as [|e|err] eqn:Hp;
    [vm_compute in Hp; discriminate| |vm_compute in Hp; discriminate].
  exists e. split; [reflexivity|].
  destruct (draft_is_well_formed (H := P) _ _ _ e Hp)
    as (f1 & f2 & f3 & f4 & f5 & f6 & _ & _ & Hid & _ & _ & _ & Hlt & _ & _ & _ & _ & Hm).
  auto.
Defined.

(** A line and the same line with its fields padded. *)
Lemma parseLine_ignores_padding_witness :
  let P := Sample.platform Sample.noFiles Sample.noFaults in
  let fields :=
    [Sample.uuid 1; str "Event"; str "2023-01-01T10:00:00Z";
     str "2023-01-01T11:00:00Z"; str "NULL"; str "sample"] in
  let padded :=
    [Sample.uuid 1 ++ str " "; str "  Event"; str " 2023-01-01T10:00:00Z ";
     str "2023-01-01T11:00:00Z"; str " NULL  "; str "sample "] in
  parseLine (join pipe fields) 1 (str "events.txt")
  = parseLine (join pipe padded) 1 (str "events.txt").
Proof.
  intros P fields padded.
  apply (parseLine_ignores_padding (H := P) fields padded).
  - apply (bool_decide_unpack _). vm_compute. reflexivity.
  - apply (bool_decide_unpack _). vm_compute. reflexivity.
  - apply (bool_decide_unpack _). vm_compute. reflexivity.
Defined.

(** A job created in an empty ledger, and created again. *)
Lemma create_then_findById_witness :
  let P := Sample.platform Sample.noFiles Sample.noFaults in
  let w := Sample.world [] ∅ 1000 in
  exists job w1 w2,
    IngestionJob.create (str "job-1") (str "events.txt") PROCESSING w
      = (Returned job, w1)
    /\ IngestionJob.findById (str "job-1") w1 = (Returned (Some job), w2)
    /\ status job = PROCESSING /\ start_time job = 1000.
Proof.
  intros P w.
  destruct (create_then_findById (H := P) (str "job-1") (str "events.txt")
              PROCESSING w eq_refl eq_refl) as [Hfresh _].
  destruct (Hfresh eq_refl) as (w1 & w2 & Hc & Hf & _).
  eexists _, w1, w2. split; [exact Hc|]. split; [exact Hf|].
  split; reflexivity.
Defined.

(** A file of five lines: two events, one bad identifier, two blanks. *)
Lemma completed_job_committed_every_draft_witness :
  let lines :=
    [ Sample.line 1;
      str "";
      str "not-a-uuid|Event|2023-01-01T10:00:00Z|2023-01-01T11:00:00Z|NULL|x";
      Sample.line 2;
      str "   " ] in
  let P := Sample.platform
             (Sample.oneFile (str "events.txt") (RegularFile true lines))
             Sample.noFaults in
  let job := {| job_id := str "job-1"; status := PROCESSING;
                file_path := str "events.txt"; total_lines := 0;
                processed_lines := 0; error_lines := 0; errors := [];
                start_time := 1000; end_time := None |} in
  let w := Sample.world [] {[ str "job-1" := job ]} 2000 in
  exists batches,
    commits (processFile (str "job-1") (str "events.txt") w).2
      = reverse batches ++ []
    /\ concat batches = drafts (str "events.txt") 0 lines
    /\ length (concat batches) = 2%nat.
Proof.
  intros lines P job w.
  destruct (ledger (processFile (str "job-1") (str "events.txt") w).2
              !! str "job-1") as [job'|] eqn:Hjob; [|vm_compute in Hjob; discriminate].
  assert (Hdone : status job' = COMPLETED).
  { assert (Hs : status <$> Some job' = Some COMPLETED)
      by (rewrite <- Hjob; vm_compute; reflexivity).
    injection Hs as Hs. exact Hs. }
  destruct (completed_job_committed_every_draft (H := P) (str "job-1")
              (str "events.txt") lines eq_refl w job'
              ltac:(exists job; split; reflexivity) Hjob Hdone)
    as (batches & Hc & Hcat & _).
  exists batches. split; [exact Hc|]. split; [exact Hcat|].
  rewrite Hcat. vm_compute. reflexivity.
Defined.

(** The same file: the one rejected line is the one entry of the list. *)
Lemma completed_job_lists_rejected_lines_witness :
  let lines :=
    [ Sample.line 1;
      str "";
      str "not-a-uuid|Event|2023-01-01T10:00:00Z|2023-01-01T11:00:00Z|NULL|x";
      Sample.line 2;
      str "   " ] in
  let P := Sample.platform
             (Sample.oneFile (str "events.txt") (RegularFile true lines))
             Sample.noFaults in
  let job := {| job_id := str "job-1"; status := PROCESSING;
                file_path := str "events.txt"; total_lines := 0;
                processed_lines := 0; error_lines := 0; errors := [];
                start_time := 1000; end_time := None |} in
  let w := Sample.world [] {[ str "job-1" := job ]} 2000 in
  exists job',
    ledger (processFile (str "job-1") (str "events.txt") w).2 !! str "job-1"
      = Some job'
    /\ errors job' = [str "Line 3: Invalid UUID format: 'not-a-uuid'"].
Proof.
  intros lines P job w.
  destruct (ledger (processFile (str "job-1") (str "events.txt") w).2
              !! str "job-1") as [job'|] eqn:Hjob; [|vm_compute in Hjob; discriminate].
  assert (Hdone : status job' = COMPLETED).
  { assert (Hs : status <$> Some job' = Some COMPLETED)
      by (rewrite <- Hjob; vm_compute; reflexivity).
    injection Hs as Hs. exact Hs. }
  destruct (completed_job_lists_rejected_lines (H := P) (str "job-1")
              (str "events.txt") lines eq_refl w job job'
              eq_refl eq_refl Hjob Hdone) as [Herr _].
  exists job'. split; [reflexivity|]. rewrite Herr. vm_compute. reflexivity.
Defined.

(** A job on a readable file and a job on a directory. *)
Lemma every_job_reaches_a_terminal_state_witness :
  let P := Sample.platform
             (Sample.oneFile (str "events.txt")
                (RegularFile true [Sample.line 1; Sample.line 2]))
             Sample.noFaults in
  let job := {| job_id := str "job-1"; status := PROCESSING;
                file_path := str "events.txt"; total_lines := 0;
                processed_lines := 0; error_lines := 0; errors := [];
                start_time := 1000; end_time := None |} in
  let w := Sample.world [] {[ str "job-1" := job ]} 2000 in
  (exists w' job',
     processFile (str "job-1") (str "events.txt") w = (Returned tt, w')
     /\ ledger w' !! str "job-1" = Some job' /\ status job' = COMPLETED)
  /\ (exists w' job',
        processFile (str "job-1") (str "uploads") w = (Returned tt, w')
        /\ ledger w' !! str "job-1" = Some job' /\ status job' = FAILED).
Proof.
  intros P job w. split.
  - destruct (every_job_reaches_a_terminal_state (H := P) (str "job-1")
                (str "events.txt") (fun _ => eq_refl) w job eq_refl eq_refl)
      as (w' & job' & Hrun & Hj & _ & Hend).
    exists w', job'. split; [exact Hrun|]. split; [exact Hj|].
    exact (proj1 Hend).
  - destruct (every_job_reaches_a_terminal_state (H := P) (str "job-1")
                (str "uploads") (fun _ => eq_refl) w job eq_refl eq_refl)
      as (w' & job' & Hrun & Hj & _ & Hend).
    exists w', job'. split; [exact Hrun|]. split; [exact Hj|].
    exact (proj1 Hend).
Defined.

(** A submission polled right after it has started. *)
Lemma started_job_can_be_polled_witness :
  let file := RegularFile true [Sample.line 1] in
  let P := Sample.platform (Sample.oneFile (str "events.txt") file)
             Sample.noFaults in
  let w := Sample.world [] ∅ 1700000000000 in
  exists started task w' w'' snapshot,
    startIngestion (str "events.txt") w = (Returned (started, task), w')
    /\ getJobStatus (s_jobId started) w' = (Returned snapshot, w'')
    /\ r_status snapshot = PROCESSING
    /\ r_jobId snapshot = str "ingest-job-1700000000000-00000000".
Proof.
  intros file P w.
  destruct (startIngestion (str "events.txt") w) as [[[started task]|msg] w']
    eqn:Hstart;
    [|apply (f_equal fst) in Hstart; vm_compute in Hstart; discriminate].
  destruct (started_job_can_be_polled (H := P) (str "events.txt") w
              started task w' Hstart) as (_ & _ & w'' & Hpoll & _).
  { assert (Hq : (queryError ∘ issued ∘ snd)
                   (startIngestion (str "events.txt") w) = None)
      by reflexivity.
    rewrite Hstart in Hq. exact Hq. }
  eexists started, task, w', w'', _. split; [reflexivity|].
  split; [exact Hpoll|]. split; [reflexivity|].
  assert (Hid : (fun r => match r with
                          | (Returned (s, _), _) => s_jobId s
                          | _ => []
                          end) (startIngestion (str "events.txt") w)
                = str "ingest-job-1700000000000-00000000")
    by (vm_compute; reflexivity).
  rewrite Hstart in Hid. exact Hid.
Defined.

(** The sample chain, from the root to the grandchild. *)
Lemma shortest_path_is_the_line_of_descent_witness :
  let rows := [Sample.founding; Sample.research; Sample.review] in
  exists es,
    descent rows (event_id Sample.founding) (event_id Sample.review) es
    /\ findShortestPath rows (event_id Sample.founding) (event_id Sample.review)
       = Some (PathFound (pathNode <$> es) (totalDuration es)).
Proof.
  intros rows.
  destruct (shortest_path_is_the_line_of_descent rows sample_ids_distinct
              (event_id Sample.founding) (event_id Sample.review))
    as [(es & Hes & _ & Hrun)|(_ & _ & Hno)].
  - apply (bool_decide_unpack _). vm_compute. reflexivity.
  - exists es. auto.
  - vm_compute in Hno. discriminate.
Defined.

(** The sample chain as a table, and the timeline of its root. *)
Lemma getTimeline_is_the_tree_of_descendants_witness :
  let stored e := {| se_event := e; se_description := None;
                     se_metadata := Some (str "{}") |} in
  let table := stored <$> [Sample.founding; Sample.research; Sample.review] in
  let root := event_id Sample.founding in
  exists nodes,
    getTimeline table root = Some (Some (root, nodes))
    /\ forall k, is_Some (nodes !! k)
                 <-> exists es, descent (se_event <$> table) root k es.
Proof.
  intros stored table root.
  set (depth := fun k : jsstring =>
         if decide (k = event_id Sample.founding) then 0%nat
         else if decide (k = event_id Sample.research) then 1%nat else 2%nat).
  destruct (getTimeline_is_the_tree_of_descendants table root depth)
    as [_ Hin].
  - apply (bool_decide_unpack _). vm_compute. reflexivity.
  - apply (proj1 (Forall_forall _ _)).
    apply (bool_decide_unpack _). vm_compute. reflexivity.
  - intros e p He Hp.
    apply elem_of_cons in He as [->|He];
      [|apply elem_of_cons in He as [->|He];
        [|apply elem_of_cons in He as [->|He]; [|inversion He]]];
      vm_compute in Hp; try discriminate;
      injection Hp as <-; vm_compute; reflexivity.
  - destruct Hin as (nodes & Hrun & Hnodes & _).
    + apply (bool_decide_unpack _). vm_compute. reflexivity.
    + exists nodes. auto.
Defined.
